(** * Financier: stock return series and portfolio risk

    A shallow embedding of [lib/Stock.js] and [lib/Portfolio.js], and of
    the older single-file version of the module where it differs (the
    guard of [calculateRisk]).

    - JavaScript numbers are modelled as exact rationals extended with the
      special values that the code produces when it divides by zero
      ([Infinity], [-Infinity], [NaN]), with the arithmetic of IEEE 754 on
      them.  Rounding and the sign of zero are not modelled.
    - Stock objects and their [returns] arrays live in a heap and are
      handed around by reference, as in JavaScript; a portfolio is a record
      threaded through its methods.
    - The [stocks] object of a portfolio is modelled as the dictionary of
      its own properties, in the order of [Object.keys], together with the
      names that every object inherits from [Object.prototype]
      ([constructor], [toString], ...), which the lookup of [updateStock]
      finds when no member has the name.  Tickers are taken to be ticker
      symbols: what JavaScript does when [__proto__] is assigned to, or
      assigned through, is not followed.
    - Of the Sylvester library, the three matrix operations that
      [calculateRisk] calls are modelled. *)

From Stdlib Require Import Ascii String QArith Qcanon.
From stdpp Require Import base decidable option numbers list strings.

(** ** Numbers *)

Inductive num :=
  | Fin (q : Qc)
  | Inf (negative : bool)
  | NaN.

Global Instance num_eq_dec : EqDecision num.
Proof. solve_decision. Defined.

Declare Scope js_scope.
Delimit Scope js_scope with js.
Bind Scope js_scope with num.

(** Integer literals and array lengths. *)
Definition of_Z (z : Z) : num := Fin (Q2Qc (inject_Z z)).
Definition of_nat (n : nat) : num := of_Z (Z.of_nat n).

Definition is_negative (q : Qc) : bool := bool_decide (q < 0)%Qc.

(** Addition: opposite infinities cancel to [NaN]. *)
Definition js_add (x y : num) : num :=
  match x, y with
  | NaN, _ | _, NaN => NaN
  | Fin a, Fin b => Fin (a + b)
  | Fin _, Inf s | Inf s, Fin _ => Inf s
  | Inf s, Inf s' => if bool_decide (s = s') then Inf s else NaN
  end.

Definition js_opp (x : num) : num :=
  match x with
  | Fin a => Fin (- a)
  | Inf s => Inf (negb s)
  | NaN => NaN
  end.

Definition js_sub (x y : num) : num := js_add x (js_opp y).

(** Multiplication: zero times infinity is [NaN]. *)
Definition js_mul (x y : num) : num :=
  match x, y with
  | NaN, _ | _, NaN => NaN
  | Fin a, Fin b => Fin (a * b)
  | Fin a, Inf s | Inf s, Fin a =>
      if bool_decide (a = 0%Qc) then NaN else Inf (xorb s (is_negative a))
  | Inf s, Inf s' => Inf (xorb s s')
  end.

(** Division: [0 / 0] and [Infinity / Infinity] are [NaN], any other
    number over zero is an infinity with the sign of the number. *)
Definition js_div (x y : num) : num :=
  match x, y with
  | NaN, _ | _, NaN => NaN
  | Fin a, Fin b =>
      if bool_decide (b = 0%Qc)
      then if bool_decide (a = 0%Qc) then NaN else Inf (is_negative a)
      else Fin (a / b)
  | Fin _, Inf _ => Fin 0
  | Inf s, Fin b => Inf (xorb s (is_negative b))
  | Inf _, Inf _ => NaN
  end.

(** [x <= 0] and [x > 0]; every comparison with [NaN] is false. *)
Definition js_le0 (x : num) : bool :=
  match x with
  | Fin a => bool_decide (a <= 0)%Qc
  | Inf s => s
  | NaN => false
  end.

Definition js_gt0 (x : num) : bool :=
  match x with
  | Fin a => bool_decide (0 < a)%Qc
  | Inf s => negb s
  | NaN => false
  end.

Infix "+" := js_add : js_scope.
Infix "-" := js_sub : js_scope.
Infix "*" := js_mul : js_scope.
Infix "/" := js_div : js_scope.

(** Reading a property that was never set yields [undefined], which
    arithmetic coerces to [NaN]. *)
Definition to_number (v : option num) : num := default NaN v.

Definition is_finite (x : num) : bool :=
  match x with Fin _ => true | _ => false end.

(** The loop [for (i = 0; i < a.length; i++) sum += a[i]] started at [0]. *)
Definition sum_loop (l : list num) : num := fold_left js_add l (of_Z 0).

(** ** Effects: a heap threaded through the methods, and exceptions *)

Inductive failure :=
  | TypeError  (* thrown by the engine: property access on [undefined] *)
  | BadRef.    (* a dangling reference; no JavaScript state has one *)

Inductive outcome (A : Type) :=
  | Ok (a : A)
  | Throw (e : failure).
Arguments Ok {A} a.
Arguments Throw {A} e.

Global Instance failure_eq_dec : EqDecision failure.
Proof. solve_decision. Defined.
Global Instance outcome_eq_dec {A} `{EqDecision A} : EqDecision (outcome A).
Proof. solve_decision. Defined.

(** A computation returns a value or throws; in both cases the state keeps
    the mutations made so far. *)
Definition M (S A : Type) : Type := S -> outcome A * S.

Definition ret {S A} (a : A) : M S A := fun s => (Ok a, s).
Definition throw {S A} (e : failure) : M S A := fun s => (Throw e, s).
Definition bind {S A B} (m : M S A) (k : A -> M S B) : M S B :=
  fun s => match m s with
           | (Ok a, s') => k a s'
           | (Throw e, s') => (Throw e, s')
           end.

Notation "'let*' x := m 'in' k" := (bind m (fun x => k))
  (at level 10, x name, m at level 100, k at level 200).
Notation "m ;; k" := (bind m (fun _ => k))
  (at level 100, k at level 200, right associativity).

(** [for (i = 0; i < xs.length; i++) body(xs[i])] with an accumulator. *)
Fixpoint for_each {S A B} (xs : list A) (acc : B) (body : B -> A -> M S B)
  : M S B :=
  match xs with
  | [] => ret acc
  | x :: xs' => let* acc' := body acc x in for_each xs' acc' body
  end.

(** References are allocation indices. *)
Abbreviation ref := nat (only parsing).

Module Stock.

(** A Stock object.  [value] and [weight] do not exist until a portfolio
    assigns them. *)
Record t := mk {
  ticker : string;
  returns : ref;        (* the array object held by [this.returns] *)
  average : num;
  value : option num;
  weight : option num
}.

Global Instance t_eq_dec : EqDecision t.
Proof. solve_decision. Defined.

Definition with_ticker (k : string) (s : t) : t :=
  mk k (returns s) (average s) (value s) (weight s).
Definition with_returns (a : ref) (s : t) : t :=
  mk (ticker s) a (average s) (value s) (weight s).
Definition with_average (x : num) (s : t) : t :=
  mk (ticker s) (returns s) x (value s) (weight s).
Definition with_value (x : num) (s : t) : t :=
  mk (ticker s) (returns s) (average s) (Some x) (weight s).
Definition with_weight (x : num) (s : t) : t :=
  mk (ticker s) (returns s) (average s) (value s) (Some x).

(** The heap: Stock objects and array objects, each addressed by its
    allocation index. *)
Record heap := Heap {
  objects : list t;
  arrays : list (list num)
}.

Global Instance heap_eq_dec : EqDecision heap.
Proof. solve_decision. Defined.

Definition empty : heap := Heap [] [].

Definition alloc_array (l : list num) : M heap ref :=
  fun h => (Ok (length (arrays h)), Heap (objects h) (arrays h ++ [l])).
Definition alloc_object (s : t) : M heap ref :=
  fun h => (Ok (length (objects h)), Heap (objects h ++ [s]) (arrays h)).

Definition get_object (r : ref) : M heap t :=
  fun h => match objects h !! r with
           | Some s => (Ok s, h)
           | None => (Throw BadRef, h)
           end.
Definition get_array (a : ref) : M heap (list num) :=
  fun h => match arrays h !! a with
           | Some l => (Ok l, h)
           | None => (Throw BadRef, h)
           end.
Definition update_object (r : ref) (f : t -> t) : M heap unit :=
  fun h => match objects h !! r with
           | Some s => (Ok tt, Heap (<[r := f s]> (objects h)) (arrays h))
           | None => (Throw BadRef, h)
           end.
Definition update_array (a : ref) (f : list num -> list num) : M heap unit :=
  fun h => match arrays h !! a with
           | Some l => (Ok tt, Heap (objects h) (<[a := f l]> (arrays h)))
           | None => (Throw BadRef, h)
           end.

(** [new Stock(ticker)] *)
Definition new (ticker : string) : M heap ref :=
  let* a := alloc_array [] in
  alloc_object (mk ticker a (of_Z 0) None None).

(** [Stock.prototype.calculateAverage] *)
Definition calculateAverage (this : ref) : M heap num :=
  let* s := get_object this in
  let* l := get_array (returns s) in
  let sum := sum_loop l in
  let avg := (sum / of_nat (length l))%js in
  update_object this (with_average avg) ;;
  ret avg.

(** [Stock.prototype.push].  [wait] is [None] when the argument is
    missing or not a boolean. *)
Definition push (this : ref) (open close : num) (wait : option bool)
  : M heap unit :=
  let* s := get_object this in
  update_array (returns s)
    (fun l => l ++ [((close - open) / open * of_Z 100)%js]) ;;
  match wait with
  | Some true => ret tt
  | _ => calculateAverage this ;; ret tt
  end.

End Stock.

(** ** Plain objects used as dictionaries *)

Module Dict.

(** Own properties in creation order. *)
Definition t (V : Type) : Type := list (string * V).

Fixpoint get {V} (k : string) (o : t V) : option V :=
  match o with
  | [] => None
  | (k', v) :: o' => if bool_decide (k' = k) then Some v else get k o'
  end.

(** [o[k] = v]: an existing property keeps its place, a new one goes last. *)
Fixpoint set {V} (k : string) (v : V) (o : t V) : t V :=
  match o with
  | [] => [(k, v)]
  | (k', v') :: o' =>
      if bool_decide (k' = k) then (k, v) :: o' else (k', v') :: set k v o'
  end.

(** [delete o[k]] *)
Fixpoint delete {V} (k : string) (o : t V) : t V :=
  match o with
  | [] => []
  | (k', v') :: o' =>
      if bool_decide (k' = k) then o' else (k', v') :: delete k o'
  end.

Definition hasOwnProperty {V} (k : string) (o : t V) : bool :=
  bool_decide (is_Some (get k o)).

(** The property names of [Object.prototype], which every plain object
    inherits: reading [o[k]] for one of them finds a function (for
    [__proto__], the prototype itself) unless [o] has a property [k] of
    its own. *)
Definition inherited : list string :=
  [ "constructor"; "__defineGetter__"; "__defineSetter__";
    "hasOwnProperty"; "__lookupGetter__"; "__lookupSetter__";
    "isPrototypeOf"; "propertyIsEnumerable"; "toString"; "valueOf";
    "__proto__"; "toLocaleString" ].

Definition digit (c : ascii) : option N :=
  let n := N_of_ascii c in
  if ((48 <=? n) && (n <=? 57))%N then Some (n - 48)%N else None.

Fixpoint digits (s : string) (acc : N) : option N :=
  match s with
  | EmptyString => Some acc
  | String c s' =>
      match digit c with
      | Some d => digits s' (10 * acc + d)%N
      | None => None
      end
  end.

(** A key is an array index when it is the canonical decimal form of an
    integer below [2^32 - 1]. *)
Definition array_index (k : string) : option N :=
  match k with
  | EmptyString => None
  | String "0"%char EmptyString => Some 0%N
  | String "0"%char _ => None
  | _ =>
      match digits k 0 with
      | Some n => if (n <? 2 ^ 32 - 1)%N then Some n else None
      | None => None
      end
  end.

Fixpoint insert_sorted (x : N * string) (l : list (N * string))
  : list (N * string) :=
  match l with
  | [] => [x]
  | y :: l' => if (x.1 <=? y.1)%N then x :: l else y :: insert_sorted x l'
  end.

Definition index_keys (ks : list string) : list (N * string) :=
  omap (fun k => match array_index k with
                 | Some n => Some (n, k)
                 | None => None
                 end) ks.

(** [Object.keys(o)]: array indices ascending, then the other keys in
    creation order. *)
Definition keys {V} (o : t V) : list string :=
  let ks := o.*1 in
  (foldr insert_sorted [] (index_keys ks)).*2
    ++ filter (fun k => array_index k = None) ks.

End Dict.

(** ** The matrix operations of Sylvester that [calculateRisk] uses *)

Module Matrix.

(** Modelled from the spec: the Sylvester library is a dependency and not
    among the sources.  [calculateRisk] calls its [Matrix.create],
    [multiply], [transpose] and [e]; the specification describes their
    combined result as the scalar quadratic form [w^T C w].  A matrix is
    the list of its rows. *)
Definition t : Type := list (list num).

(** [Matrix.create] of a flat array is a column; of an array of rows, the
    matrix with these rows. *)
Definition create_column (l : list num) : t := (fun x => [x]) <$> l.
Definition create (rows : list (list num)) : t := rows.

Definition cols (m : t) : nat :=
  match m with
  | [] => 0
  | r :: _ => length r
  end.

Definition column (j : nat) (m : t) : list num :=
  (fun r => to_number (r !! j)) <$> m.

(** One cell of a product: the sum of [a[i][c] * b[c][j]] over [c],
    accumulated from 0. *)
Definition dot (u v : list num) : num := sum_loop (zip_with js_mul u v).

(** [a.multiply(b)]; [None] when the library throws or returns [null]
    (an empty operand, or sizes that do not match). *)
Definition multiply (a b : t) : option t :=
  if bool_decide (a <> [] /\ b <> [] /\ cols a = length b)
  then Some ((fun r => (fun j => dot r (column j b)) <$> seq 0 (cols b))
               <$> a)
  else None.

Definition transpose (m : t) : t :=
  (fun j => column j m) <$> seq 0 (cols m).

(** [m.e(i, j)], one-based. *)
Definition e (i j : nat) (m : t) : option num :=
  match i, j with
  | S i', S j' => match m !! i' with
                  | Some r => r !! j'
                  | None => None
                  end
  | _, _ => None
  end.

End Matrix.

(** ** The text produced by [JSON.stringify(this.stocks)]

    The text is kept as the tree it spells out.  Printing a finite number
    or a string is injective, so two texts are equal exactly when their
    trees are; [NaN] and the infinities are all printed as [null], and a
    property that is [undefined] is left out. *)

Module JSON.

Inductive number :=
  | null
  | lit (q : Qc).

Global Instance number_eq_dec : EqDecision number.
Proof. solve_decision. Defined.

Definition of_num (x : num) : number :=
  match x with
  | Fin q => lit q
  | _ => null
  end.

Record stock := mk {
  ticker : string;
  returns : list number;
  average : number;
  value : option number;
  weight : option number
}.

Global Instance stock_eq_dec : EqDecision stock.
Proof. solve_decision. Defined.

Definition of_stock (s : Stock.t) (l : list num) : stock :=
  mk (Stock.ticker s) (of_num <$> l) (of_num (Stock.average s))
     (of_num <$> Stock.value s) (of_num <$> Stock.weight s).

Definition t : Type := list (string * stock).

End JSON.

(** ** Portfolio *)

Module Portfolio.
Import Stock.

Record t := mk {
  stocks : Dict.t ref;
  value : num;
  risk : num;
  cache : option JSON.t   (* [null], or the text of the last computation *)
}.

Global Instance t_eq_dec : EqDecision t.
Proof. solve_decision. Defined.

(** [new Portfolio()] *)
Definition new : t := mk [] (of_Z 0) (of_Z 0) None.

Definition with_stocks (o : Dict.t ref) (p : t) : t :=
  mk o (value p) (risk p) (cache p).
Definition with_value (x : num) (p : t) : t :=
  mk (stocks p) x (risk p) (cache p).
Definition with_risk (j : JSON.t) (x : num) (p : t) : t :=
  mk (stocks p) (value p) x (Some j).

(** A parameter documented as [{Stock|String}]. *)
Inductive stock_arg :=
  | Ticker (k : string)
  | Object (r : ref).

(** [typeof stock === 'string' ? stock : stock.ticker] *)
Definition ticker_of (stock : stock_arg) : M heap string :=
  match stock with
  | Ticker k => ret k
  | Object r => let* s := get_object r in ret (ticker s)
  end.

(** [this.stocks[k]] where [k] is a property of [this.stocks] itself:
    one of [Object.keys(this.stocks)] in the loops, and the key that
    [addStock] has just assigned. *)
Definition member (this : t) (k : string) : M heap ref :=
  match Dict.get k (stocks this) with
  | Some r => ret r
  | None => throw TypeError
  end.

(** [Portfolio.prototype.calculateTotalValue] *)
Definition calculateTotalValue (this : t) : M heap (num * t) :=
  let tickers := Dict.keys (stocks this) in
  let* v := for_each tickers (of_Z 0) (fun acc k =>
              let* r := member this k in
              let* s := get_object r in
              ret (acc + to_number (Stock.value s))%js) in
  ret (v, with_value v this).

(** [stock.weight = stock.value / this.value] *)
Definition assign_weight (total : num) (stock : Stock.t) : Stock.t :=
  with_weight (to_number (Stock.value stock) / total)%js stock.

(** [Portfolio.prototype.calculateWeights] *)
Definition calculateWeights (this : t) : M heap t :=
  let tickers := Dict.keys (stocks this) in
  let* vt := calculateTotalValue this in
  let this := vt.2 in
  for_each tickers tt (fun _ k =>
    let* r := member this k in
    update_object r (assign_weight (value this))) ;;
  ret this.

(** [Portfolio.prototype.addStock].  [clone] is [None] when the argument
    is missing or not a boolean. *)
Definition addStock (this : t) (stock : ref) (v : num) (clone : option bool)
  : M heap t :=
  let* s := get_object stock in
  let* stored :=
    match clone with
    | Some true =>
        let* copy := Stock.new (ticker s) in
        update_object copy (with_ticker (ticker s)) ;;
        update_object copy (with_returns (returns s)) ;;
        update_object copy (with_average (average s)) ;;
        ret copy
    | _ => ret stock
    end in
  let this := with_stocks (Dict.set (ticker s) stored (stocks this)) this in
  let* r := member this (ticker s) in
  update_object r (Stock.with_value v) ;;
  calculateWeights this.

(** [Portfolio.prototype.removeStock] *)
Definition removeStock (this : t) (stock : stock_arg) : M heap t :=
  let* ticker := ticker_of stock in
  let this := with_stocks (Dict.delete ticker (stocks this)) this in
  calculateWeights this.

(** What [this.stocks[k]] evaluates to for any [k]: the member stored
    under [k]; or, for a name inherited from [Object.prototype], the
    object found there; or [undefined]. *)
Inductive found :=
  | Member (r : ref)
  | Inherited
  | Undefined.

Definition lookup (this : t) (k : string) : found :=
  match Dict.get k (stocks this) with
  | Some r => Member r
  | None => if bool_decide (k ∈ Dict.inherited) then Inherited else Undefined
  end.

(** [Portfolio.prototype.updateStock].  The assignment
    [this.stocks[ticker].value = value] writes into the member; on an
    inherited function it adds a property to that function, which neither
    a stock nor a portfolio reads; on [undefined] it throws.  (For
    [__proto__] the object found is [Object.prototype] itself; what its
    new property does to other objects is not followed.) *)
Definition updateStock (this : t) (stock : stock_arg) (v : num) : M heap t :=
  let* ticker := ticker_of stock in
  match lookup this ticker with
  | Member r => update_object r (Stock.with_value v)
  | Inherited => ret tt
  | Undefined => throw TypeError
  end ;;
  calculateWeights this.

(** [Portfolio.prototype.getStockTickers] *)
Definition getStockTickers (this : t) : list string :=
  Dict.keys (stocks this).

(** [Portfolio.prototype.hasStock] *)
Definition hasStock (this : t) (stock : stock_arg) : M heap bool :=
  let* ticker := ticker_of stock in
  ret (Dict.hasOwnProperty ticker (stocks this)).

(** The body of [calculateCovariance] for two distinct objects, once the
    objects and their arrays have been read. *)
Definition covariance (a b : Stock.t) (ra rb : list num) : num :=
  let n := Nat.min (length ra) (length rb) in
  let diffSum :=
    fold_left (fun diffSum i =>
        let diffA := (to_number (ra !! i) - average a)%js in
        let diffB := (to_number (rb !! i) - average b)%js in
        (diffSum + diffA * diffB)%js)
      (seq 0 n) (of_Z 0) in
  (diffSum / of_Z (Z.of_nat n - 1))%js.

(** [Portfolio.prototype.calculateCovariance] *)
Definition calculateCovariance (stockA stockB : ref) : M heap num :=
  if bool_decide (stockA = stockB) then ret (of_Z 1)
  else
    let* a := get_object stockA in
    let* ra := get_array (returns a) in
    let* b := get_object stockB in
    let* rb := get_array (returns b) in
    ret (covariance a b ra rb).

(** [Portfolio.prototype.createWeightMatrix] *)
Definition createWeightMatrix (this : t) : M heap Matrix.t :=
  let tickers := Dict.keys (stocks this) in
  let* weights := for_each tickers [] (fun weights k =>
                    let* r := member this k in
                    let* s := get_object r in
                    ret (weights ++ [to_number (Stock.weight s)])) in
  ret (Matrix.create_column weights).

(** [Portfolio.prototype.createCovarianceMatrix] *)
Definition createCovarianceMatrix (this : t) : M heap Matrix.t :=
  let tickers := Dict.keys (stocks this) in
  let* covariances := for_each tickers [] (fun covariances ki =>
      let* stockA := member this ki in
      let* row := for_each tickers [] (fun row kj =>
                    let* stockB := member this kj in
                    let* c := calculateCovariance stockA stockB in
                    ret (row ++ [c])) in
      ret (covariances ++ [row])) in
  ret (Matrix.create covariances).

(** [JSON.stringify(this.stocks)] *)
Definition stringify (this : t) : M heap JSON.t :=
  for_each (Dict.keys (stocks this)) [] (fun text k =>
    let* r := member this k in
    let* s := get_object r in
    let* l := get_array (returns s) in
    ret (text ++ [(k, JSON.of_stock s l)])).

(** [weightMatrix.transpose().multiply(covarianceMatrix.multiply(weightMatrix))
    .e(1,1)]: the cell [w^T (C w)].  A product that the library refuses
    ends in a property access on [null]. *)
Definition quadratic_form (weightMatrix covarianceMatrix : Matrix.t)
  : M heap num :=
  match Matrix.multiply covarianceMatrix weightMatrix with
  | Some intermediate =>
      match Matrix.multiply (Matrix.transpose weightMatrix) intermediate with
      | Some product =>
          match Matrix.e 1 1 product with
          | Some x => ret x
          | None => throw TypeError
          end
      | None => throw TypeError
      end
  | None => throw TypeError
  end.

(** The body of [calculateRisk] once the portfolio is known not to be
    empty: compare the text of the members with the cache, and recompute
    on a difference. *)
Definition cached_risk (this : t) : M heap (num * t) :=
  let* current := stringify this in
  if bool_decide (cache this <> Some current) then
    let* weightMatrix := createWeightMatrix this in
    let* covarianceMatrix := createCovarianceMatrix this in
    let* x := quadratic_form weightMatrix covarianceMatrix in
    let this := with_risk current x this in
    ret (risk this, this)
  else ret (risk this, this).

(** [Portfolio.prototype.calculateRisk] of [lib/Portfolio.js], which
    starts with [if (this.value <= 0) { return 0 }]. *)
Definition calculateRisk (this : t) : M heap (num * t) :=
  if js_le0 (value this) then ret (of_Z 0, this)
  else cached_risk this.

(** [calculateRisk] of the single-file version of the module, which wraps
    the same body in [if (this.value > 0) { ... }] and returns 0 after it. *)
Definition calculateRisk_single_file (this : t) : M heap (num * t) :=
  if js_gt0 (value this) then cached_risk this
  else ret (of_Z 0, this).

End Portfolio.

(** * Properties

    The rest of the file states and proves properties of the methods.
    The definitions of this part describe states and results; nothing in
    the methods above refers to them. *)

Import Stock.
Import Portfolio.
Local Open Scope js_scope.

(** ** Words of the specification *)

(** The sum [x1 + ... + xn]. *)
Fixpoint total (l : list num) : num :=
  match l with
  | [] => of_Z 0
  | x :: l' => x + total l'
  end.

(** The arithmetic mean: sum divided by count. *)
Definition arithmetic_mean (l : list num) : num :=
  total l / of_nat (length l).

(** The return of a tick: [(close - open) / open * 100]. *)
Definition tick_return (open close : num) : num :=
  (close - open) / open * of_Z 100.

(** The fraction [n / d] as a number. *)
Definition ratio (n : Z) (d : positive) : num := Fin (Q2Qc (n # d)).

(** The risk computed from the current members, without consulting the
    cache. *)
Definition risk_from_scratch (this : Portfolio.t) : M heap num :=
  if js_le0 (value this) then ret (of_Z 0)
  else
    let* weightMatrix := createWeightMatrix this in
    let* covarianceMatrix := createCovarianceMatrix this in
    quadratic_form weightMatrix covarianceMatrix.

(** The operations that end with [this.calculateWeights()]. *)
Inductive weight_trigger :=
  | AddStock (stock : ref) (v : num) (clone : option bool)
  | RemoveStock (stock : stock_arg)
  | UpdateStock (stock : stock_arg) (v : num).

Definition run_trigger (op : weight_trigger) (this : Portfolio.t)
  : M heap Portfolio.t :=
  match op with
  | AddStock stock v clone => addStock this stock v clone
  | RemoveStock stock => removeStock this stock
  | UpdateStock stock v => updateStock this stock v
  end.

(** ** Reading a state *)

(** The contents of the returns array of the object at [r], and its
    average. *)
Definition returns_of (h : heap) (r : ref) : option (list num) :=
  match objects h !! r with
  | Some s => arrays h !! returns s
  | None => None
  end.

Definition average_of (h : heap) (r : ref) : option num :=
  average <$> objects h !! r.

(** Every reference stored in the portfolio points to an object. *)
Definition live (h : heap) (p : Portfolio.t) : Prop :=
  forall k r, (k, r) ∈ stocks p -> is_Some (objects h !! r).

(** The same for the references that the loops over [Object.keys] read. *)
Definition members_live (h : heap) (p : Portfolio.t) : Prop :=
  forall k, k ∈ Dict.keys (stocks p) ->
    exists r s, Dict.get k (stocks p) = Some r /\ objects h !! r = Some s.

(** The object stored under [k]; the values and the weights of the members
    in the order of [Object.keys]; the references of the members. *)
Definition member_object (h : heap) (p : Portfolio.t) (k : string)
  : option Stock.t :=
  match Dict.get k (stocks p) with
  | Some r => objects h !! r
  | None => None
  end.

Definition member_values (h : heap) (p : Portfolio.t) : list num :=
  (fun k => to_number (member_object h p k ≫= Stock.value))
    <$> Dict.keys (stocks p).


Definition member_refs (p : Portfolio.t) : list ref :=
  omap (fun k => Dict.get k (stocks p)) (Dict.keys (stocks p)).

(** The heap after the loop of [calculateWeights]: the weight of every
    member is assigned, one member after the other. *)
Definition assign_weight_at (total : num) (objs : list Stock.t) (r : ref)
  : list Stock.t :=
  match objs !! r with
  | Some s => <[r := assign_weight total s]> objs
  | None => objs
  end.

Definition reweighed (h : heap) (p : Portfolio.t) : heap :=
  Heap (fold_left (assign_weight_at (sum_loop (member_values h p)))
          (member_refs p) (objects h))
       (arrays h).

(** The object built by the cloning branch of [addStock]. *)
Definition clone_of (s : Stock.t) : Stock.t :=
  Stock.mk (ticker s) (returns s) (average s) None None.

(** ** Reachable states *)

(** What a caller can do with stocks and one portfolio. *)
Inductive operation :=
  | NewStock (k : string)
  | Push (r : ref) (open close : num) (wait : option bool)
  | CalculateAverage (r : ref)
  | Trigger (op : weight_trigger)
  | CalculateTotalValue
  | CalculateWeights
  | CalculateRisk.

Definition step (op : operation) (this : Portfolio.t) : M heap Portfolio.t :=
  match op with
  | NewStock k => Stock.new k ;; ret this
  | Push r open close wait => Stock.push r open close wait ;; ret this
  | CalculateAverage r => Stock.calculateAverage r ;; ret this
  | Trigger op => run_trigger op this
  | CalculateTotalValue => let* vt := calculateTotalValue this in ret vt.2
  | CalculateWeights => calculateWeights this
  | CalculateRisk => let* xt := calculateRisk this in ret xt.2
  end.

Fixpoint run (ops : list operation) (this : Portfolio.t) : M heap Portfolio.t :=
  match ops with
  | [] => ret this
  | op :: ops' => let* this := step op this in run ops' this
  end.

(** The states reached from a new portfolio and an empty heap.  A call
    that throws is not a step: the only exception that the engine can
    raise, in [updateStock] for a ticker that is neither a member nor an
    inherited name, comes before any assignment. *)
Inductive reachable : Portfolio.t -> heap -> Prop :=
  | reachable_new : reachable Portfolio.new Stock.empty
  | reachable_step p h op p' h' :
      reachable p h -> step op p h = (Ok p', h') -> reachable p' h'.

(** Every member is an object of the heap that carries the ticker it is
    stored under and holds an array of the heap. *)
Definition keyed (h : heap) (p : Portfolio.t) : Prop :=
  forall k r, (k, r) ∈ stocks p ->
    exists s l, objects h !! r = Some s /\ ticker s = k /\
                arrays h !! returns s = Some l.

(** Every object holds an array of the heap. *)
Definition arrays_allocated (h : heap) : Prop :=
  forall r s, objects h !! r = Some s -> is_Some (arrays h !! returns s).

(** A portfolio without members has total value 0. *)
Definition empty_is_worthless (p : Portfolio.t) : Prop :=
  stocks p = [] -> value p = of_Z 0.

Definition invariant (h : heap) (p : Portfolio.t) : Prop :=
  keyed h p /\ arrays_allocated h /\ empty_is_worthless p.

(** The later heap still holds every object of the earlier one, with its
    ticker and its array reference, and every array. *)
Definition extends (h h' : heap) : Prop :=
  (forall r s, objects h !! r = Some s ->
     exists s', objects h' !! r = Some s' /\
                ticker s' = ticker s /\ returns s' = returns s) /\
  (forall a, is_Some (arrays h !! a) -> is_Some (arrays h' !! a)).

(** A computation that leaves the heap as it found it. *)
Definition read_only {A} (m : M heap A) : Prop := forall h, (m h).2 = h.

(** ** The members as [calculateRisk] sees them *)

(** A member: the key it is stored under, the reference stored there, the
    object behind the reference and the contents of its returns array. *)
Record view := View {
  key : string;
  address : ref;
  object : Stock.t;
  history : list num
}.

Definition entry (h : heap) (p : Portfolio.t) (k : string) : option view :=
  match Dict.get k (stocks p) with
  | Some r =>
      match objects h !! r with
      | Some s =>
          match arrays h !! returns s with
          | Some l => Some (View k r s l)
          | None => None
          end
      | None => None
      end
  | None => None
  end.

(** The members in the order of [Object.keys]. *)
Definition snapshot (h : heap) (p : Portfolio.t) : option (list view) :=
  mapM (entry h p) (Dict.keys (stocks p)).

(** What the methods compute from the members: the JSON text, the weight
    vector, the covariance matrix and the risk. *)
Definition text_of (snap : list view) : JSON.t :=
  (fun e => (key e, JSON.of_stock (object e) (history e))) <$> snap.

Definition weights_of (snap : list view) : list num :=
  (fun e => to_number (Stock.weight (object e))) <$> snap.

Definition covariance_between (a b : view) : num :=
  if bool_decide (address a = address b) then of_Z 1
  else covariance (object a) (object b) (history a) (history b).

Definition covariances_of (snap : list view) : Matrix.t :=
  (fun a => covariance_between a <$> snap) <$> snap.

Definition quadratic (w c : Matrix.t) : option num :=
  match Matrix.multiply c w with
  | Some intermediate =>
      match Matrix.multiply (Matrix.transpose w) intermediate with
      | Some product => Matrix.e 1 1 product
      | None => None
      end
  | None => None
  end.

Definition risk_of (snap : list view) : option num :=
  quadratic (Matrix.create_column (weights_of snap)) (covariances_of snap).

(** Two members are the same object exactly when they have the same key. *)
Definition coherent (snap : list view) : Prop :=
  forall a b, a ∈ snap -> b ∈ snap ->
    (address a = address b <-> key a = key b).

(** The numbers of a member that enter the risk are finite, so that the
    JSON text shows them. *)
Definition printable (e : view) : Prop :=
  Forall (fun x => is_finite x = true) (history e) /\
  is_finite (average (object e)) = true /\
  is_finite (to_number (Stock.weight (object e))) = true.

(** Two members with the same key and the same numbers. *)
Definition agree (e e' : view) : Prop :=
  key e = key e' /\ history e = history e' /\
  average (object e) = average (object e') /\
  Stock.weight (object e) = Stock.weight (object e').

(** The cached risk is the risk of every state with printable members
    whose text is the cached one. *)
Definition cache_sound (p : Portfolio.t) : Prop :=
  forall snap,
    cache p = Some (text_of snap) ->
    coherent snap -> Forall printable snap ->
    risk_of snap = Some (risk p).
(** ** Scenarios *)

Module Scenario.

(** The set-up of the test suite. *)
Definition intel_and_apple : M heap (ref * ref * Portfolio.t) :=
  let* intel := Stock.new "intel" in
  Stock.push intel (of_Z 10) (of_Z 20) None ;;
  Stock.push intel (of_Z 20) (of_Z 30) None ;;
  Stock.push intel (of_Z 30) (of_Z 15) None ;;
  let* apple := Stock.new "apple" in
  Stock.push apple (of_Z 10) (of_Z 20) None ;;
  Stock.push apple (of_Z 20) (of_Z 30) None ;;
  let* portfolio := addStock Portfolio.new intel (of_Z 30) None in
  let* portfolio := addStock portfolio apple (of_Z 20) None in
  ret (intel, apple, portfolio).

(** A stock with one tick, added as a clone. *)
Definition cloned : M heap (ref * Portfolio.t) :=
  let* s := Stock.new "AAPL" in
  Stock.push s (of_Z 10) (of_Z 20) None ;;
  let* portfolio := addStock Portfolio.new s (of_Z 30) (Some true) in
  ret (s, portfolio).

(** Two stocks with the ticker A, loaded with a deferred average: the
    first tick of [a1] opens at 0 and closes at 1, the first tick of [a2]
    opens at 0 and closes at -1.  [a1] and [b] are in the portfolio, [a2]
    waits to replace [a1]. *)
Definition replaced : M heap (ref * Portfolio.t) :=
  let* a1 := Stock.new "A" in
  Stock.push a1 (of_Z 0) (of_Z 1) (Some true) ;;
  Stock.push a1 (of_Z 1) (of_Z 2) (Some true) ;;
  let* a2 := Stock.new "A" in
  Stock.push a2 (of_Z 0) (of_Z (-1)) (Some true) ;;
  Stock.push a2 (of_Z 1) (of_Z 2) (Some true) ;;
  let* b := Stock.new "B" in
  Stock.push b (of_Z 1) (of_Z 2) None ;;
  Stock.push b (of_Z 1) (of_Z 3) None ;;
  let* portfolio := addStock Portfolio.new a1 (of_Z 1) None in
  let* portfolio := addStock portfolio b (of_Z 1) None in
  ret (a2, portfolio).

(** The example of the README: a stock cloned into two portfolios, then
    the same tick pushed to the stock and to each clone. *)
Definition readme : M heap (ref * Portfolio.t * Portfolio.t) :=
  let* aapl := Stock.new "AAPL" in
  Stock.push aapl (of_Z 10) (of_Z 20) None ;;
  let* client := addStock Portfolio.new aapl (of_Z 100) (Some true) in
  let* other := addStock Portfolio.new aapl (of_Z 50) (Some true) in
  Stock.push aapl (of_Z 20) (of_Z 30) None ;;
  let* c1 := member client "AAPL" in
  Stock.push c1 (of_Z 20) (of_Z 30) None ;;
  let* c2 := member other "AAPL" in
  Stock.push c2 (of_Z 20) (of_Z 30) None ;;
  ret (aapl, client, other).

(** A stock that never traded next to one with two ticks. *)
Definition untraded : M heap (ref * ref) :=
  let* a := Stock.new "A" in
  let* b := Stock.new "B" in
  Stock.push b (of_Z 10) (of_Z 20) None ;;
  Stock.push b (of_Z 20) (of_Z 30) None ;;
  ret (a, b).

(** The heap and the portfolio that [intel_and_apple] ends in. *)
Definition intel : Stock.t :=
  Stock.mk "intel" 0 (ratio 100 3) (Some (of_Z 30)) (Some (ratio 3 5)).
Definition apple : Stock.t :=
  Stock.mk "apple" 1 (of_Z 75) (Some (of_Z 20)) (Some (ratio 2 5)).
Definition tested_heap : heap :=
  Heap [intel; apple]
       [[of_Z 100; of_Z 50; of_Z (-50)]; [of_Z 100; of_Z 50]].
Definition tested_portfolio : Portfolio.t :=
  Portfolio.mk [("intel", 0); ("apple", 1)] (of_Z 50) (of_Z 0) None.

(** Two stocks with a single tick each. *)
Definition single_tick_heap : heap :=
  Heap [Stock.mk "A" 0 (of_Z 100) None None;
        Stock.mk "B" 1 (of_Z 50) None None]
       [[of_Z 100]; [of_Z 50]].


(** The operations that lead to the tested state, and to the state of
    [replaced] after [calculateRisk()] and [addStock(a2, 1)]. *)
Definition tested_operations : list operation :=
  [ NewStock "intel";
    Push 0 (of_Z 10) (of_Z 20) None;
    Push 0 (of_Z 20) (of_Z 30) None;
    Push 0 (of_Z 30) (of_Z 15) None;
    NewStock "apple";
    Push 1 (of_Z 10) (of_Z 20) None;
    Push 1 (of_Z 20) (of_Z 30) None;
    Trigger (AddStock 0 (of_Z 30) None);
    Trigger (AddStock 1 (of_Z 20) None) ].

Definition replaced_operations : list operation :=
  [ NewStock "A";
    Push 0 (of_Z 0) (of_Z 1) (Some true);
    Push 0 (of_Z 1) (of_Z 2) (Some true);
    NewStock "A";
    Push 1 (of_Z 0) (of_Z (-1)) (Some true);
    Push 1 (of_Z 1) (of_Z 2) (Some true);
    NewStock "B";
    Push 2 (of_Z 1) (of_Z 2) None;
    Push 2 (of_Z 1) (of_Z 3) None;
    Trigger (AddStock 0 (of_Z 1) None);
    Trigger (AddStock 2 (of_Z 1) None);
    CalculateRisk;
    Trigger (AddStock 1 (of_Z 1) None) ].

End Scenario.
(** ** Further words for states and calls *)

(** [ticks.forEach(t => stock.push(t.open, t.close, wait))] *)
Definition push_all (this : ref) (ticks : list (num * num))
    (wait : option bool) : M heap unit :=
  for_each ticks tt (fun _ t => push this t.1 t.2 wait).

(** The returns of a list of ticks. *)
Definition tick_returns (ticks : list (num * num)) : list num :=
  (fun t => tick_return t.1 t.2) <$> ticks.

(** The total value is the sum of the values of the members, and the
    weight of every member is its value over the total. *)
Definition up_to_date (h : heap) (p : Portfolio.t) : Prop :=
  value p = sum_loop (member_values h p) /\
  forall k r s, Dict.get k (stocks p) = Some r -> objects h !! r = Some s ->
    Stock.weight s = Some (to_number (Stock.value s) / value p).

(** The later heap holds every object of the earlier one, with the same
    value and weight. *)
Definition same_holdings (h h' : heap) : Prop :=
  forall r s, objects h !! r = Some s ->
    exists s', objects h' !! r = Some s' /\
               Stock.value s' = Stock.value s /\
               Stock.weight s' = Stock.weight s.

(** The products of the deviations from the stored averages, tick by
    tick, as far as both histories reach. *)
Definition co_deviations (a b : Stock.t) (ra rb : list num) : list num :=
  zip_with (fun x y => (x - average a) * (y - average b)) ra rb.

(** What an operation needs in order not to throw: the stocks it is handed
    are stock objects, and [updateStock] names a member. *)
Definition applicable (h : heap) (p : Portfolio.t) (op : operation) : Prop :=
  match op with
  | NewStock _ | CalculateTotalValue | CalculateWeights | CalculateRisk =>
      True
  | Push r _ _ _ | CalculateAverage r => is_Some (objects h !! r)
  | Trigger (AddStock r _ _) => is_Some (objects h !! r)
  | Trigger (RemoveStock (Ticker _)) => True
  | Trigger (RemoveStock (Object r)) => is_Some (objects h !! r)
  | Trigger (UpdateStock arg _) =>
      exists k, ticker_of arg h = (Ok k, h) /\
                is_Some (Dict.get k (stocks p))
  end.

(** The numbers of every member that enter the risk are finite. *)
Definition finite_members (h : heap) (p : Portfolio.t) : Prop :=
  forall k r s l,
    Dict.get k (stocks p) = Some r -> objects h !! r = Some s ->
    arrays h !! returns s = Some l ->
    Forall (fun x => is_finite x = true) l /\
    is_finite (average s) = true /\
    is_finite (to_number (Stock.weight s)) = true.

(** Two stock objects hold the same array only if they carry the same
    ticker. *)
Definition histories_apart (h : heap) : Prop :=
  forall r1 r2 s1 s2,
    objects h !! r1 = Some s1 -> objects h !! r2 = Some s2 ->
    returns s1 = returns s2 -> ticker s1 = ticker s2.

(** Every object of the later heap is an object of the earlier one, with
    the same ticker and the same array. *)
Definition shape_kept (h h' : heap) : Prop :=
  forall r s', objects h' !! r = Some s' ->
    exists s, objects h !! r = Some s /\
              ticker s' = ticker s /\ returns s' = returns s.

(** ** Further scenarios *)

Module Cases.

(** A heap with one stock that has no ticks yet. *)
Definition fresh_heap : heap :=
  Heap [Stock.mk "A" 0 (of_Z 0) None None] [[]].

(** The tested state with a third stock that is not in the portfolio. *)
Definition msft : Stock.t := Stock.mk "msft" 2 (of_Z 10) None None.
Definition spare_heap : heap :=
  Heap [Scenario.intel; Scenario.apple; msft]
       [[of_Z 100; of_Z 50; of_Z (-50)]; [of_Z 100; of_Z 50]; [of_Z 10]].
Definition spare_operations : list operation :=
  Scenario.tested_operations
    ++ [NewStock "msft"; Push 2 (of_Z 10) (of_Z 11) None].

(** The state after [s = new Stock("AAPL"); s.push(10, 20);
    portfolio.addStock(s, 30, true)]: the original at 0, the clone at 1. *)
Definition original : Stock.t := Stock.mk "AAPL" 0 (of_Z 100) None None.
Definition cloned_heap : heap :=
  Heap [original;
        Stock.mk "AAPL" 0 (of_Z 100) (Some (of_Z 30)) (Some (of_Z 1))]
       [[of_Z 100]; []].
Definition cloned_portfolio : Portfolio.t :=
  Portfolio.mk [("AAPL", 1)] (of_Z 30) (of_Z 0) None.
Definition cloned_operations : list operation :=
  [ NewStock "AAPL";
    Push 0 (of_Z 10) (of_Z 20) None;
    Trigger (AddStock 0 (of_Z 30) (Some true)) ].

(** A stock with two ticks and its clone in a portfolio. *)
Definition twin_heap : heap :=
  Heap [Stock.mk "AAPL" 0 (of_Z 75) None None;
        Stock.mk "AAPL" 0 (of_Z 75) (Some (of_Z 30)) (Some (of_Z 1))]
       [[of_Z 100; of_Z 50]; []].

(** A portfolio whose only member has the value 0. *)
Definition worthless_heap : heap :=
  Heap [Stock.mk "A" 0 (of_Z 0) (Some (of_Z 0)) (Some NaN)] [[]].
Definition worthless_portfolio : Portfolio.t :=
  Portfolio.mk [("A", 0)] (of_Z 0) (of_Z 0) None.
Definition worthless_operations : list operation :=
  [ NewStock "A"; Trigger (AddStock 0 (of_Z 0) None) ].

(** The tested state after [calculateRisk()]. *)
Definition assessed_portfolio : Portfolio.t :=
  Portfolio.mk [("intel", 0); ("apple", 1)] (of_Z 50) (ratio 60052 100)
    (Some [("intel", JSON.of_stock Scenario.intel
                       [of_Z 100; of_Z 50; of_Z (-50)]);
           ("apple", JSON.of_stock Scenario.apple [of_Z 100; of_Z 50])]).

(** The tested state after [calculateRisk()] and the removal of both
    members. *)
Definition emptied_operations : list operation :=
  Scenario.tested_operations
    ++ [ CalculateRisk;
         Trigger (RemoveStock (Ticker "intel"));
         Trigger (RemoveStock (Object 1)) ].
Definition emptied : outcome Portfolio.t * heap :=
  run emptied_operations Portfolio.new Stock.empty.
Definition emptied_portfolio : Portfolio.t :=
  match emptied.1 with
  | Ok p => p
  | Throw _ => Portfolio.new
  end.

(** A portfolio with one member. *)
Definition lone_operations : list operation :=
  [ NewStock "intel";
    Push 0 (of_Z 10) (of_Z 20) None;
    Push 0 (of_Z 20) (of_Z 30) None;
    Trigger (AddStock 0 (of_Z 30) None) ].
Definition lone : Stock.t :=
  Stock.mk "intel" 0 (of_Z 75) (Some (of_Z 30)) (Some (of_Z 1)).
Definition lone_heap : heap := Heap [lone] [[of_Z 100; of_Z 50]].
Definition lone_portfolio : Portfolio.t :=
  Portfolio.mk [("intel", 0)] (of_Z 30) (of_Z 0) None.

End Cases.
(** ** Arithmetic *)

Lemma js_add_comm (x y : num) : x + y = y + x.
Proof.
  destruct x as [a|[]|], y as [b|[]|]; simpl; try done.
  f_equal. ring.
Qed.

Lemma js_add_assoc (x y z : num) : x + (y + z) = (x + y) + z.
Proof.
  destruct x as [a|[]|], y as [b|[]|], z as [c|[]|]; simpl; try done.
  f_equal. ring.
Qed.

Lemma js_add_0_r (x : num) : x + of_Z 0 = x.
Proof.
  destruct x as [a| |]; simpl; try done. f_equal.
  change (Q2Qc (inject_Z 0)) with 0%Qc. ring.
Qed.

Lemma js_add_0_l (x : num) : of_Z 0 + x = x.
Proof. rewrite js_add_comm. apply js_add_0_r. Qed.

Lemma js_mul_comm (x y : num) : x * y = y * x.
Proof.
  destruct x as [a|s|], y as [b|s'|]; simpl; try done.
  - f_equal. ring.
  - by rewrite xorb_comm.
Qed.

Lemma fold_left_js_add (l : list num) (a : num) :
  fold_left js_add l a = a + total l.
Proof.
  revert a. induction l as [|x l IH]; intros a; simpl.
  - by rewrite js_add_0_r.
  - by rewrite IH, js_add_assoc.
Qed.

Lemma sum_loop_total (l : list num) : sum_loop l = total l.
Proof. unfold sum_loop. by rewrite fold_left_js_add, js_add_0_l. Qed.

(** ** Running computations *)

Section monad.
Context {S A B : Type}.
Implicit Types (m : M S A) (k : A -> M S B).

Lemma bind_ok m k s a s' : m s = (Ok a, s') -> bind m k s = k a s'.
Proof. unfold bind. by intros ->. Qed.

Lemma bind_inv_ok m k s b s2 :
  bind m k s = (Ok b, s2) ->
  exists a s1, m s = (Ok a, s1) /\ k a s1 = (Ok b, s2).
Proof.
  unfold bind. destruct (m s) as [[a|e] s1]; [eauto | discriminate].
Qed.
End monad.

Lemma get_object_ok h r s :
  objects h !! r = Some s -> get_object r h = (Ok s, h).
Proof. unfold get_object. by intros ->. Qed.

Lemma get_array_ok h a l :
  arrays h !! a = Some l -> get_array a h = (Ok l, h).
Proof. unfold get_array. by intros ->. Qed.

Lemma update_object_ok h r s f :
  objects h !! r = Some s ->
  update_object r f h = (Ok tt, Heap (<[r := f s]> (objects h)) (arrays h)).
Proof. unfold update_object. by intros ->. Qed.

Lemma update_array_ok h a l f :
  arrays h !! a = Some l ->
  update_array a f h = (Ok tt, Heap (objects h) (<[a := f l]> (arrays h))).
Proof. unfold update_array. by intros ->. Qed.

(** ** Stock *)

Lemma calculateAverage_mean h this s l :
  objects h !! this = Some s ->
  arrays h !! returns s = Some l ->
  calculateAverage this h =
    (Ok (arithmetic_mean l),
     Heap (<[this := with_average (arithmetic_mean l) s]> (objects h))
          (arrays h)).
Proof.
  intros Hs Hl. unfold calculateAverage.
  rewrite (bind_ok _ _ _ _ _ (get_object_ok _ _ _ Hs)).
  rewrite (bind_ok _ _ _ _ _ (get_array_ok _ _ _ Hl)).
  rewrite (bind_ok _ _ _ _ _ (update_object_ok _ _ _ _ Hs)).
  unfold ret, arithmetic_mean. by rewrite sum_loop_total.
Qed.

Lemma push_appends h this s l open close wait :
  objects h !! this = Some s ->
  arrays h !! returns s = Some l ->
  wait <> Some true ->
  push this open close wait h =
    (Ok tt,
     Heap (<[this := with_average
                       (arithmetic_mean (l ++ [tick_return open close])) s]>
             (objects h))
          (<[returns s := l ++ [tick_return open close]]> (arrays h))).
Proof.
  intros Hs Hl Hwait. unfold push.
  rewrite (bind_ok _ _ _ _ _ (get_object_ok _ _ _ Hs)).
  rewrite (bind_ok _ _ _ _ _ (update_array_ok _ _ _ _ Hl)).
  set (l' := l ++ [tick_return open close]).
  set (h' := Heap (objects h) (<[returns s := l']> (arrays h))).
  assert (calculateAverage this h' =
            (Ok (arithmetic_mean l'),
             Heap (<[this := with_average (arithmetic_mean l') s]> (objects h))
                  (<[returns s := l']> (arrays h)))) as Havg.
  { apply (calculateAverage_mean h' this s l'); [done|].
    apply list_lookup_insert_eq. by eapply lookup_lt_Some. }
  destruct wait as [[]|]; [done| |];
    by rewrite (bind_ok _ _ _ _ _ Havg).
Qed.

Lemma push_deferred h this s l open close :
  objects h !! this = Some s ->
  arrays h !! returns s = Some l ->
  push this open close (Some true) h =
    (Ok tt,
     Heap (objects h)
          (<[returns s := l ++ [tick_return open close]]> (arrays h))).
Proof.
  intros Hs Hl. unfold push.
  rewrite (bind_ok _ _ _ _ _ (get_object_ok _ _ _ Hs)).
  by rewrite (bind_ok _ _ _ _ _ (update_array_ok _ _ _ _ Hl)).
Qed.

(** ** Dictionaries *)

Section dict.
Context {V : Type}.
Implicit Types (o : Dict.t V) (k : string) (v : V).

Lemma dict_get_Some o k v : Dict.get k o = Some v -> (k, v) ∈ o.
Proof.
  induction o as [|[k' v'] o IH]; simpl; [done|].
  case_bool_decide as Hk.
  - intros [= <-]. subst. left.
  - intros ?. right. auto.
Qed.

Lemma dict_get_None o k : Dict.get k o = None <-> k ∉ o.*1.
Proof.
  induction o as [|[k' v'] o IH]; simpl.
  - split; [intros _; apply not_elem_of_nil | done].
  - rewrite not_elem_of_cons. case_bool_decide as Hk; subst.
    + split; [done | intros [? _]; done].
    + rewrite IH. split; [intros ?; split; [congruence | done] |].
      by intros [_ ?].
Qed.

Lemma dict_get_is_Some o k : k ∈ o.*1 -> is_Some (Dict.get k o).
Proof.
  intros Hk. destruct (Dict.get k o) eqn:E; [eauto|].
  by apply dict_get_None in E.
Qed.

Lemma dict_get_set o k k' v :
  Dict.get k' (Dict.set k v o) =
    if bool_decide (k = k') then Some v else Dict.get k' o.
Proof.
  induction o as [|[k0 v0] o IH]; simpl.
  - done.
  - destruct (bool_decide_reflect (k0 = k)) as [->|Hne]; simpl.
    + by destruct (bool_decide_reflect (k = k')).
    + destruct (bool_decide_reflect (k0 = k')) as [->|?].
      * by rewrite bool_decide_eq_false_2 by congruence.
      * done.
Qed.

Lemma dict_set_entries o k v k' v' :
  (k', v') ∈ Dict.set k v o -> (k', v') = (k, v) \/ (k', v') ∈ o.
Proof.
  induction o as [|[k0 v0] o IH]; simpl.
  - intros ?%list_elem_of_singleton. by left.
  - case_bool_decide; subst.
    + intros [->|?]%elem_of_cons; [by left | right; by right].
    + intros [->|?]%elem_of_cons; [right; left |].
      destruct IH as [?|?]; [done | by left | right; by right].
Qed.

Lemma dict_delete_entries o k k' v' :
  (k', v') ∈ Dict.delete k o -> (k', v') ∈ o.
Proof.
  induction o as [|[k0 v0] o IH]; simpl; [done|].
  case_bool_decide.
  - by right.
  - intros [->|?]%elem_of_cons; [left | right; auto].
Qed.

Lemma dict_delete_absent o k : Dict.get k o = None -> Dict.delete k o = o.
Proof.
  induction o as [|[k0 v0] o IH]; simpl; [done|].
  case_bool_decide; [done|]. intros ?. f_equal. auto.
Qed.

Lemma insert_sorted_perm (x : N * string) l :
  Dict.insert_sorted x l ≡ₚ x :: l.
Proof.
  induction l as [|y l IH]; simpl; [done|].
  destruct (x.1 <=? y.1)%N; [done|].
  rewrite IH. apply Permutation_swap.
Qed.

Lemma sort_perm (l : list (N * string)) :
  foldr Dict.insert_sorted [] l ≡ₚ l.
Proof.
  induction l as [|x l IH]; simpl; [done|].
  by rewrite insert_sorted_perm, IH.
Qed.

Lemma dict_elem_of_keys o k : k ∈ Dict.keys o <-> k ∈ o.*1.
Proof.
  unfold Dict.keys. rewrite elem_of_app, list_elem_of_filter.
  rewrite sort_perm. unfold Dict.index_keys.
  rewrite list_elem_of_fmap. split.
  - intros [([n k'] & -> & Hin)|[_ ?]]; [|done].
    apply list_elem_of_omap in Hin as (k'' & Hin & Hk'').
    destruct (Dict.array_index k''); by simplify_eq/=.
  - intros Hin. destruct (Dict.array_index k) as [n|] eqn:E; [left|by right].
    exists (n, k). split; [done|].
    apply list_elem_of_omap. exists k. by rewrite E.
Qed.
End dict.

(** ** Portfolio: total value and weights *)

Lemma live_members_live h p : live h p -> members_live h p.
Proof.
  intros Hlive k Hk. apply dict_elem_of_keys, dict_get_is_Some in Hk.
  destruct Hk as [r Hr]. destruct (Hlive k r) as [s Hs].
  { by apply dict_get_Some. }
  eauto.
Qed.

Lemma for_each_pure {S A B} (ks : list A) (body : B -> A -> M S B)
    (f : B -> A -> B) (s : S) :
  (forall acc k, k ∈ ks -> body acc k s = (Ok (f acc k), s)) ->
  forall acc, for_each ks acc body s = (Ok (fold_left f ks acc), s).
Proof.
  induction ks as [|k ks IH]; intros Hbody acc; simpl; [done|].
  rewrite (bind_ok _ _ _ _ _ (Hbody acc k ltac:(left))).
  apply IH. intros acc' k' ?. apply Hbody. by right.
Qed.

Lemma fold_left_fmap {A B C} (f : C -> B -> C) (g : A -> B) (l : list A) c :
  fold_left (fun acc x => f acc (g x)) l c = fold_left f (g <$> l) c.
Proof. revert c. induction l as [|x l IH]; intros c; simpl; [done|]. apply IH. Qed.

Lemma member_ok p k r h :
  Dict.get k (stocks p) = Some r -> member p k h = (Ok r, h).
Proof. unfold member. by intros ->. Qed.

Lemma member_of_key p k h :
  k ∈ Dict.keys (stocks p) -> exists r, member p k h = (Ok r, h).
Proof.
  intros [r Hr]%dict_elem_of_keys%dict_get_is_Some.
  exists r. by apply member_ok.
Qed.

Lemma calculateTotalValue_ok h p :
  members_live h p ->
  calculateTotalValue p h =
    (Ok (sum_loop (member_values h p),
         Portfolio.with_value (sum_loop (member_values h p)) p), h).
Proof.
  intros Hlive. unfold calculateTotalValue.
  erewrite bind_ok; [reflexivity|].
  rewrite (for_each_pure _ _
    (fun acc k => acc + to_number (member_object h p k ≫= Stock.value))).
  - unfold sum_loop, member_values. by rewrite <- fold_left_fmap.
  - intros acc k Hk. destruct (Hlive k Hk) as (r & s & Hr & Hs).
    rewrite (bind_ok _ _ _ _ _ (member_ok _ _ _ _ Hr)).
    rewrite (bind_ok _ _ _ _ _ (get_object_ok _ _ _ Hs)).
    unfold member_object. by rewrite Hr, Hs.
Qed.

Lemma total_loop_inv h p ks acc v h' :
  for_each ks acc (fun acc k =>
      let* r := member p k in
      let* s := get_object r in
      ret (acc + to_number (Stock.value s))) h = (Ok v, h') ->
  forall k, k ∈ ks ->
    exists r s, Dict.get k (stocks p) = Some r /\ objects h !! r = Some s.
Proof.
  revert acc. induction ks as [|k0 ks IH]; intros acc Hrun k Hk.
  { by apply elem_of_nil in Hk. }
  simpl in Hrun. apply bind_inv_ok in Hrun as (acc' & h1 & Hbody & Hrest).
  apply bind_inv_ok in Hbody as (r & h2 & Hr & Hbody).
  apply bind_inv_ok in Hbody as (s & h3 & Hs & Hret).
  unfold member in Hr. destruct (Dict.get k0 (stocks p)) as [r'|] eqn:Hget;
    [|discriminate].
  unfold ret in Hr. simplify_eq.
  unfold get_object in Hs. destruct (objects h2 !! r) as [s'|] eqn:Hobj;
    [|discriminate].
  unfold ret in Hret. simplify_eq.
  apply elem_of_cons in Hk as [->|Hk]; [eauto|].
  eapply IH; eauto.
Qed.

Lemma calculateTotalValue_inv h p x h' :
  calculateTotalValue p h = (Ok x, h') -> members_live h p.
Proof.
  unfold calculateTotalValue. intros Hrun.
  apply bind_inv_ok in Hrun as (v & h1 & Hloop & _).
  intros k Hk. eapply total_loop_inv; eauto.
Qed.

Lemma assign_weight_at_lookup T objs r r' :
  assign_weight_at T objs r !! r' =
    if bool_decide (r = r') then assign_weight T <$> objs !! r'
    else objs !! r'.
Proof.
  unfold assign_weight_at.
  destruct (objs !! r) as [s|] eqn:Hr; case_bool_decide; subst.
  - rewrite list_lookup_insert_eq by (by eapply lookup_lt_Some).
    by rewrite Hr.
  - by rewrite list_lookup_insert_ne.
  - by rewrite Hr.
  - done.
Qed.

Lemma assign_weight_idemp T (o : option Stock.t) :
  assign_weight T <$> (assign_weight T <$> o) = assign_weight T <$> o.
Proof. by destruct o. Qed.

Lemma assign_all_lookup T refs objs r :
  fold_left (assign_weight_at T) refs objs !! r =
    if bool_decide (r ∈ refs) then assign_weight T <$> objs !! r
    else objs !! r.
Proof.
  revert objs. induction refs as [|r0 refs IH]; intros objs; simpl.
  { done. }
  rewrite IH, assign_weight_at_lookup.
  destruct (bool_decide_reflect (r0 = r)) as [->|Hne].
  - rewrite (bool_decide_eq_true_2 (r ∈ r :: refs)) by left.
    case_bool_decide; [|done].
    apply assign_weight_idemp.
  - destruct (bool_decide_reflect (r ∈ refs)) as [Hin|Hnin].
    + by rewrite bool_decide_eq_true_2 by (by right).
    + rewrite bool_decide_eq_false_2; [done|].
      rewrite not_elem_of_cons. split; [congruence | done].
Qed.

Lemma assign_weight_at_length T objs r :
  length (assign_weight_at T objs r) = length objs.
Proof.
  unfold assign_weight_at. destruct (objs !! r); [apply length_insert | done].
Qed.

Lemma weights_loop p T arrs ks objs :
  (forall k, k ∈ ks ->
     exists r, Dict.get k (stocks p) = Some r /\ is_Some (objs !! r)) ->
  for_each ks tt (fun _ k =>
      let* r := member p k in update_object r (assign_weight T))
    (Heap objs arrs) =
  (Ok tt,
   Heap (fold_left (assign_weight_at T)
           (omap (fun k => Dict.get k (stocks p)) ks) objs) arrs).
Proof.
  revert objs. induction ks as [|k ks IH]; intros objs Hlive; simpl; [done|].
  destruct (Hlive k ltac:(left)) as (r & Hr & [s Hs]).
  rewrite Hr. simpl.
  erewrite bind_ok; cycle 1.
  { rewrite (bind_ok _ _ _ _ _ (member_ok _ _ _ _ Hr)).
    by apply update_object_ok. }
  simpl. replace (<[r := assign_weight T s]> objs)
    with (assign_weight_at T objs r)
    by (unfold assign_weight_at; by rewrite Hs).
  apply IH. intros k' Hk'. destruct (Hlive k' ltac:(by right)) as (r' & ? & ?).
  exists r'. split; [done|].
  apply lookup_lt_is_Some. rewrite assign_weight_at_length.
  by apply lookup_lt_is_Some.
Qed.

Lemma calculateWeights_ok h p :
  members_live h p ->
  calculateWeights p h =
    (Ok (Portfolio.with_value (sum_loop (member_values h p)) p),
     reweighed h p).
Proof.
  intros Hlive. unfold calculateWeights.
  rewrite (bind_ok _ _ _ _ _ (calculateTotalValue_ok _ _ Hlive)). simpl.
  destruct h as [objs arrs]. erewrite bind_ok; [reflexivity|].
  apply (weights_loop (Portfolio.with_value _ p)).
  intros k Hk. destruct (Hlive k Hk) as (r & s & ? & ?). simpl in *. eauto.
Qed.

Lemma calculateWeights_inv h p p' h' :
  calculateWeights p h = (Ok p', h') ->
  members_live h p /\
  p' = Portfolio.with_value (sum_loop (member_values h p)) p /\
  h' = reweighed h p.
Proof.
  intros Hrun. assert (members_live h p) as Hlive.
  { unfold calculateWeights in Hrun.
    apply bind_inv_ok in Hrun as (vt & h1 & Htotal & _).
    by eapply calculateTotalValue_inv. }
  rewrite (calculateWeights_ok _ _ Hlive) in Hrun. by simplify_eq.
Qed.

Lemma member_ref_elem p k r :
  k ∈ Dict.keys (stocks p) -> Dict.get k (stocks p) = Some r ->
  r ∈ member_refs p.
Proof. intros Hk Hr. apply list_elem_of_omap. eauto. Qed.

Lemma member_object_reweighed h p k :
  k ∈ Dict.keys (stocks p) ->
  member_object (reweighed h p) p k =
    assign_weight (sum_loop (member_values h p)) <$> member_object h p k.
Proof.
  intros Hk. unfold member_object, reweighed. simpl.
  destruct (Dict.get k (stocks p)) as [r|] eqn:Hr; [|done].
  rewrite assign_all_lookup.
  by rewrite bool_decide_eq_true_2 by (by eapply member_ref_elem).
Qed.






Lemma total_Fin_cons x l s :
  total (x :: l) = Fin s ->
  exists a b, x = Fin a /\ total l = Fin b /\ s = (a + b)%Qc.
Proof.
  simpl. destruct x as [a|[]|], (total l) as [b|[]|]; simpl; try done.
  intros [= <-]. eauto.
Qed.

Lemma total_Fin_finite (l : list num) t :
  total l = Fin t -> Forall (fun x => is_finite x = true) l.
Proof.
  revert t. induction l as [|x l IH]; intros t Ht; [constructor|].
  apply total_Fin_cons in Ht as (a & b & -> & Hb & _).
  constructor; [done | by eapply IH].
Qed.

Lemma total_finite_Fin (l : list num) :
  Forall (fun x => is_finite x = true) l -> exists t, total l = Fin t.
Proof.
  induction 1 as [|x l Hx _ [t IH]]; simpl; [by eexists|].
  destruct x as [a| |]; [|done..]. rewrite IH. by eexists.
Qed.



(** ** Covariance *)

Lemma calculateCovariance_self h s :
  calculateCovariance s s h = (Ok (of_Z 1), h).
Proof. unfold calculateCovariance. by rewrite bool_decide_eq_true_2. Qed.

Lemma calculateCovariance_ok h a b sa sb la lb :
  a <> b ->
  objects h !! a = Some sa -> arrays h !! returns sa = Some la ->
  objects h !! b = Some sb -> arrays h !! returns sb = Some lb ->
  calculateCovariance a b h = (Ok (covariance sa sb la lb), h).
Proof.
  intros Hne Ha Hla Hb Hlb. unfold calculateCovariance.
  rewrite bool_decide_eq_false_2 by done.
  rewrite (bind_ok _ _ _ _ _ (get_object_ok _ _ _ Ha)).
  rewrite (bind_ok _ _ _ _ _ (get_array_ok _ _ _ Hla)).
  rewrite (bind_ok _ _ _ _ _ (get_object_ok _ _ _ Hb)).
  by rewrite (bind_ok _ _ _ _ _ (get_array_ok _ _ _ Hlb)).
Qed.

Lemma fold_left_ext_all {A B} (f g : A -> B -> A) (l : list B) (a : A) :
  (forall acc x, f acc x = g acc x) -> fold_left f l a = fold_left g l a.
Proof.
  intros Hfg. revert a. induction l as [|x l IH]; intros a; simpl; [done|].
  by rewrite Hfg, IH.
Qed.

Lemma covariance_comm sa sb la lb :
  covariance sa sb la lb = covariance sb sa lb la.
Proof.
  unfold covariance. rewrite (Nat.min_comm (length lb)). f_equal.
  apply fold_left_ext_all. intros acc i. simpl. f_equal. apply js_mul_comm.
Qed.

Lemma div_by_zero_not_finite (x : num) : is_finite (x / of_Z 0) = false.
Proof.
  destruct x as [a| |]; [|done..].
  unfold js_div, of_Z. case_bool_decide as Hz; [by case_bool_decide|].
  by destruct Hz.
Qed.

Lemma covariance_one_tick sa sb la lb :
  Nat.min (length la) (length lb) = 1 ->
  is_finite (covariance sa sb la lb) = false.
Proof. unfold covariance. intros ->. apply div_by_zero_not_finite. Qed.

Lemma covariance_no_tick sa sb la lb :
  Nat.min (length la) (length lb) = 0 ->
  covariance sa sb la lb = of_Z 0.
Proof. unfold covariance. intros ->. compute_done. Qed.

(** ** Operations that recompute the weights *)

Lemma trigger_ends_with_weights op p h p' h' :
  run_trigger op p h = (Ok p', h') ->
  exists p1 h1,
    calculateWeights p1 h1 = (Ok p', h') /\
    cache p1 = cache p /\ risk p1 = risk p.
Proof.
  destruct op as [stock v clone|stock|stock v]; simpl; intros Hrun.
  - unfold addStock in Hrun.
    apply bind_inv_ok in Hrun as (s & h1 & _ & Hrun).
    apply bind_inv_ok in Hrun as (stored & h2 & _ & Hrun).
    apply bind_inv_ok in Hrun as (r & h3 & _ & Hrun).
    apply bind_inv_ok in Hrun as ([] & h4 & _ & Hrun).
    eexists _, _. split; [exact Hrun | done].
  - unfold removeStock in Hrun.
    apply bind_inv_ok in Hrun as (k & h1 & _ & Hrun).
    eexists _, _. split; [exact Hrun | done].
  - unfold updateStock in Hrun.
    apply bind_inv_ok in Hrun as (k & h1 & _ & Hrun).
    apply bind_inv_ok in Hrun as ([] & h2 & _ & Hrun).
    eexists _, _. split; [exact Hrun | done].
Qed.


Lemma live_insert h p r s :
  live h p -> live (Heap (<[r := s]> (objects h)) (arrays h)) p.
Proof.
  intros Hlive k r' Hin. simpl. apply lookup_lt_is_Some.
  rewrite length_insert. apply lookup_lt_is_Some. eauto.
Qed.

Lemma live_set h p k r :
  live h p -> is_Some (objects h !! r) ->
  live h (with_stocks (Dict.set k r (stocks p)) p).
Proof.
  intros Hlive Hr k' r' Hin. simpl in Hin.
  apply dict_set_entries in Hin as [[= -> ->]|Hin]; eauto.
Qed.

Lemma dict_get_elem_of_keys {V} (o : Dict.t V) k v :
  Dict.get k o = Some v -> k ∈ Dict.keys o.
Proof.
  intros Hget%dict_get_Some. apply dict_elem_of_keys.
  apply list_elem_of_fmap. by exists (k, v).
Qed.

Lemma reweighed_member h p k r s :
  Dict.get k (stocks p) = Some r -> objects h !! r = Some s ->
  objects (reweighed h p) !! r =
    Some (assign_weight (sum_loop (member_values h p)) s).
Proof.
  intros Hr Hs. unfold reweighed. cbn [objects]. rewrite assign_all_lookup.
  rewrite bool_decide_eq_true_2.
  - by rewrite Hs.
  - eapply member_ref_elem; [|done]. by eapply dict_get_elem_of_keys.
Qed.


(** ** The order of a sum does not matter *)

Lemma total_Permutation (l1 l2 : list num) :
  l1 ≡ₚ l2 -> total l1 = total l2.
Proof.
  induction 1 as [|x l1 l2 _ IH|x y l|l1 l2 l3 _ IH1 _ IH2]; simpl.
  - done.
  - by rewrite IH.
  - rewrite !js_add_assoc. by rewrite (js_add_comm y x).
  - by rewrite IH1.
Qed.

Lemma sum_loop_Permutation (l1 l2 : list num) :
  l1 ≡ₚ l2 -> sum_loop l1 = sum_loop l2.
Proof. rewrite !sum_loop_total. apply total_Permutation. Qed.

(** ** The two guards of [calculateRisk] *)

Lemma js_gt0_le0 (x : num) : x <> NaN -> js_gt0 x = negb (js_le0 x).
Proof.
  destruct x as [a|s|]; simpl; [|done..]. intros _.
  destruct (bool_decide_reflect (0 < a)%Qc) as [Hlt|Hnlt];
    destruct (bool_decide_reflect (a <= 0)%Qc) as [Hle|Hnle]; simpl; try done.
  - by apply Qclt_not_le in Hlt.
  - by apply Qcnot_lt_le in Hnlt.
Qed.

Lemma calculateRisk_single_file_agrees p h :
  value p <> NaN -> calculateRisk_single_file p h = calculateRisk p h.
Proof.
  intros Hv. unfold calculateRisk_single_file, calculateRisk.
  rewrite (js_gt0_le0 _ Hv). by destruct (js_le0 (value p)).
Qed.

(** ** Adding a stock: by reference and as a clone *)

Lemma new_ok h k :
  Stock.new k h =
    (Ok (length (objects h)),
     Heap (objects h ++ [Stock.mk k (length (arrays h)) (of_Z 0) None None])
          (arrays h ++ [[]])).
Proof. done. Qed.

Lemma update_last objs x arrs f :
  update_object (length objs) f (Heap (objs ++ [x]) arrs) =
    (Ok tt, Heap (objs ++ [f x]) arrs).
Proof.
  unfold update_object. cbn [objects arrays].
  rewrite list_lookup_middle by done.
  rewrite <- (Nat.add_0_r (length objs)) at 1. by rewrite insert_app_r.
Qed.



Lemma addStock_reference h p stock s v clone :
  clone <> Some true ->
  objects h !! stock = Some s ->
  addStock p stock v clone h =
    calculateWeights
      (with_stocks (Dict.set (ticker s) stock (stocks p)) p)
      (Heap (<[stock := Stock.with_value v s]> (objects h)) (arrays h)).
Proof.
  intros Hclone Hs. unfold addStock.
  rewrite (bind_ok _ _ _ _ _ (get_object_ok _ _ _ Hs)).
  erewrite bind_ok; cycle 1.
  { destruct clone as [[]|]; [done | reflexivity..]. }
  erewrite bind_ok; cycle 1.
  { apply member_ok. simpl. rewrite dict_get_set.
    by rewrite bool_decide_eq_true_2. }
  by rewrite (bind_ok _ _ _ _ _ (update_object_ok _ _ _ _ Hs)).
Qed.

Lemma addStock_clone h p stock s v :
  objects h !! stock = Some s ->
  addStock p stock v (Some true) h =
    calculateWeights
      (with_stocks (Dict.set (ticker s) (length (objects h)) (stocks p)) p)
      (Heap (objects h ++ [Stock.with_value v (clone_of s)])
            (arrays h ++ [[]])).
Proof.
  intros Hs. unfold addStock.
  rewrite (bind_ok _ _ _ _ _ (get_object_ok _ _ _ Hs)).
  erewrite bind_ok; cycle 1.
  { rewrite (bind_ok _ _ _ _ _ (new_ok _ _)).
    rewrite (bind_ok _ _ _ _ _ (update_last _ _ _ _)).
    rewrite (bind_ok _ _ _ _ _ (update_last _ _ _ _)).
    rewrite (bind_ok _ _ _ _ _ (update_last _ _ _ _)).
    reflexivity. }
  erewrite bind_ok; cycle 1.
  { apply member_ok. simpl. rewrite dict_get_set.
    by rewrite bool_decide_eq_true_2. }
  by rewrite (bind_ok _ _ _ _ _ (update_last _ _ _ _)).
Qed.

Lemma live_alloc h p s l :
  live h p -> live (Heap (objects h ++ [s]) (arrays h ++ [l])) p.
Proof.
  intros Hlive k r Hin. destruct (Hlive k r Hin) as [s' Hs'].
  exists s'. by apply lookup_app_l_Some.
Qed.

(** After [addStock(stock, v, true)] the member is a new object that holds
    the array object of the original. *)
Lemma addStock_clone_shares_returns h p stock s v :
  objects h !! stock = Some s ->
  live h p ->
  exists p' h' m,
    addStock p stock v (Some true) h = (Ok p', h') /\
    Dict.get (ticker s) (stocks p') = Some (length (objects h)) /\
    length (objects h) <> stock /\
    objects h' !! length (objects h) = Some m /\
    returns m = returns s /\ average m = average s /\
    returns <$> objects h' !! stock = Some (returns s).
Proof.
  intros Hs Hlive. rewrite (addStock_clone _ _ _ _ _ Hs).
  set (c := length (objects h)).
  set (p1 := with_stocks (Dict.set (ticker s) c (stocks p)) p).
  set (h1 := Heap (objects h ++ [Stock.with_value v (clone_of s)])
                  (arrays h ++ [[]])).
  assert (objects h1 !! c = Some (Stock.with_value v (clone_of s))) as Hc.
  { by apply list_lookup_middle. }
  assert (Dict.get (ticker s) (stocks p1) = Some c) as Hget.
  { simpl. rewrite dict_get_set. by rewrite bool_decide_eq_true_2. }
  assert (live h1 p1) as Hlive1.
  { apply live_set; [by apply live_alloc | eauto]. }
  rewrite (calculateWeights_ok _ _ (live_members_live _ _ Hlive1)).
  eexists _, _, _. split; [done|]. split; [exact Hget|].
  split. { apply lookup_lt_Some in Hs. unfold c. lia. }
  split. { by apply (reweighed_member h1 p1 (ticker s) c). }
  split; [done|]. split; [done|].
  unfold reweighed. cbn [objects]. rewrite assign_all_lookup.
  assert (objects h1 !! stock = Some s) as ->.
  { by apply lookup_app_l_Some. }
  by case_bool_decide.
Qed.

(** A push on one object is seen through every object that holds the same
    array, and does not touch the average of the others. *)
Lemma push_reaches_every_holder h stock s m sm l open close wait :
  objects h !! stock = Some s -> arrays h !! returns s = Some l ->
  objects h !! m = Some sm -> returns sm = returns s -> m <> stock ->
  exists h',
    push stock open close wait h = (Ok tt, h') /\
    returns_of h' m = Some (l ++ [tick_return open close]) /\
    average_of h' m = Some (average sm).
Proof.
  intros Hs Hl Hm Hshared Hne.
  assert (<[returns s := l ++ [tick_return open close]]> (arrays h)
            !! returns sm = Some (l ++ [tick_return open close])) as Harr.
  { rewrite Hshared. apply list_lookup_insert_eq. by eapply lookup_lt_Some. }
  destruct (decide (wait = Some true)) as [->|Hwait].
  - rewrite (push_deferred _ _ _ _ _ _ Hs Hl). eexists. split; [done|].
    unfold returns_of, average_of. cbn [objects arrays]. by rewrite Hm.
  - rewrite (push_appends _ _ _ _ _ _ _ Hs Hl Hwait). eexists. split; [done|].
    unfold returns_of, average_of. cbn [objects arrays].
    rewrite list_lookup_insert_ne by done. by rewrite Hm.
Qed.

(** The README tells callers to push a new tick to the stock and to each
    of its clones.  The three pushes land in one array. *)
Lemma readme_pushes_accumulate :
  exists aapl client other h c1 c2,
    Scenario.readme Stock.empty = (Ok (aapl, client, other), h) /\
    Dict.get "AAPL" (stocks client) = Some c1 /\
    Dict.get "AAPL" (stocks other) = Some c2 /\
    returns_of h aapl = Some [of_Z 100; of_Z 50; of_Z 50; of_Z 50] /\
    returns_of h c1 = Some [of_Z 100; of_Z 50; of_Z 50; of_Z 50] /\
    returns_of h c2 = Some [of_Z 100; of_Z 50; of_Z 50; of_Z 50].
Proof.
  eexists _, _, _, _, _, _.
  split; [vm_compute; reflexivity|].
  split; [vm_compute; reflexivity|].
  split; [vm_compute; reflexivity|].
  split; [compute_done|]. split; compute_done.
Qed.

(** ** Invariants of the reachable states *)

Lemma keyed_live h p : keyed h p -> live h p.
Proof. intros Hk k r Hin. destruct (Hk k r Hin) as (s & l & ? & _). eauto. Qed.

Lemma keyed_extends h h' p : extends h h' -> keyed h p -> keyed h' p.
Proof.
  intros [Hobj Harr] Hk k r Hin.
  destruct (Hk k r Hin) as (s & l & Hs & Ht & Hl).
  destruct (Hobj r s Hs) as (s' & Hs' & Ht' & Hr').
  destruct (Harr (returns s)) as [l' Hl']; [eauto|].
  exists s', l'. rewrite Ht', Hr'. done.
Qed.

Lemma keyed_same_stocks h p p' : stocks p' = stocks p -> keyed h p -> keyed h p'.
Proof. unfold keyed. by intros ->. Qed.

Lemma reweighed_lookup h p r :
  exists f, objects (reweighed h p) !! r = f <$> objects h !! r /\
    forall s, ticker (f s) = ticker s /\ returns (f s) = returns s /\
              average (f s) = average s /\ Stock.value (f s) = Stock.value s.
Proof.
  unfold reweighed. cbn [objects]. rewrite assign_all_lookup.
  case_bool_decide.
  - eexists. split; [reflexivity|]. done.
  - exists id. split; [by rewrite option_fmap_id|]. done.
Qed.

Lemma extends_reweighed h p : extends h (reweighed h p).
Proof.
  split; [|done]. intros r s Hs.
  destruct (reweighed_lookup h p r) as (f & Hf & Hfields).
  rewrite Hf, Hs. destruct (Hfields s) as (? & ? & _). eauto.
Qed.

Lemma arrays_allocated_reweighed h p :
  arrays_allocated h -> arrays_allocated (reweighed h p).
Proof.
  intros Ha r s' Hs'.
  destruct (reweighed_lookup h p r) as (f & Hf & Hfields).
  rewrite Hf in Hs'. destruct (objects h !! r) as [s|] eqn:Hs; [|done].
  injection Hs' as <-. destruct (Hfields s) as (_ & -> & _).
  by apply (Ha r s).
Qed.

Lemma weights_result h p p' h' :
  calculateWeights p h = (Ok p', h') ->
  h' = reweighed h p /\ stocks p' = stocks p /\
  cache p' = cache p /\ risk p' = risk p /\ empty_is_worthless p'.
Proof.
  intros (_ & -> & ->)%calculateWeights_inv. repeat split.
  intros Hnil. simpl in *. unfold member_values. by rewrite Hnil.
Qed.

Lemma get_object_inv h r s h' :
  get_object r h = (Ok s, h') -> objects h !! r = Some s /\ h' = h.
Proof.
  unfold get_object. destruct (objects h !! r); [|done]. by intros [= -> ->].
Qed.

Lemma update_object_inv h r f h' :
  update_object r f h = (Ok tt, h') ->
  exists s, objects h !! r = Some s /\
            h' = Heap (<[r := f s]> (objects h)) (arrays h).
Proof.
  unfold update_object. destruct (objects h !! r) as [s|]; [|done].
  intros [= <-]. eauto.
Qed.

Lemma update_array_inv h a f h' :
  update_array a f h = (Ok tt, h') ->
  exists l, arrays h !! a = Some l /\
            h' = Heap (objects h) (<[a := f l]> (arrays h)).
Proof.
  unfold update_array. destruct (arrays h !! a) as [l|]; [|done].
  intros [= <-]. eauto.
Qed.

Lemma is_Some_insert {A} (l : list A) i j x :
  is_Some (l !! j) -> is_Some (<[i := x]> l !! j).
Proof.
  rewrite !lookup_lt_is_Some. by rewrite length_insert.
Qed.

Lemma extends_trans h1 h2 h3 : extends h1 h2 -> extends h2 h3 -> extends h1 h3.
Proof.
  intros [Ho1 Ha1] [Ho2 Ha2]. split; [|eauto].
  intros r s Hs. destruct (Ho1 r s Hs) as (s1 & Hs1 & Ht1 & Hr1).
  destruct (Ho2 r s1 Hs1) as (s2 & Hs2 & Ht2 & Hr2).
  exists s2. rewrite Ht2, Hr2. done.
Qed.

Lemma extends_insert_object h r s s' :
  objects h !! r = Some s -> ticker s' = ticker s -> returns s' = returns s ->
  extends h (Heap (<[r := s']> (objects h)) (arrays h)).
Proof.
  intros Hs Ht Hr. split; [|done]. intros r0 s0 Hs0. cbn [objects].
  destruct (decide (r = r0)) as [->|Hne].
  - rewrite list_lookup_insert_eq by (by eapply lookup_lt_Some).
    simplify_eq. eauto.
  - rewrite list_lookup_insert_ne by done. eauto.
Qed.

Lemma extends_insert_array h a l :
  extends h (Heap (objects h) (<[a := l]> (arrays h))).
Proof. split; [eauto|]. intros a0. apply is_Some_insert. Qed.

Lemma extends_alloc h s l :
  extends h (Heap (objects h ++ [s]) (arrays h ++ [l])).
Proof.
  split.
  - intros r s0 Hs0. exists s0. split; [by apply lookup_app_l_Some | done].
  - intros a [l0 Hl0]. exists l0. by apply lookup_app_l_Some.
Qed.

Lemma arrays_allocated_insert_object h r s' :
  arrays_allocated h -> is_Some (arrays h !! returns s') ->
  arrays_allocated (Heap (<[r := s']> (objects h)) (arrays h)).
Proof.
  intros Ha Hs' r0 s0. cbn [objects arrays].
  intros [[-> [-> _]]|[_ Hs0]]%list_lookup_insert_Some; eauto.
Qed.

Lemma arrays_allocated_insert_array h a l :
  arrays_allocated h ->
  arrays_allocated (Heap (objects h) (<[a := l]> (arrays h))).
Proof.
  intros Ha r0 s0 Hs0. cbn [objects arrays] in *.
  apply is_Some_insert. eauto.
Qed.

Lemma arrays_allocated_alloc h s l :
  arrays_allocated h -> returns s <= length (arrays h) ->
  arrays_allocated (Heap (objects h ++ [s]) (arrays h ++ [l])).
Proof.
  intros Ha Hs r0 s0. cbn [objects arrays].
  intros [Hs0|[_ Hs0]]%lookup_app_Some.
  - destruct (Ha r0 s0 Hs0) as [l0 Hl0]. exists l0.
    by apply lookup_app_l_Some.
  - apply list_lookup_singleton_Some in Hs0 as [_ <-].
    apply lookup_lt_is_Some. rewrite length_app. simpl. lia.
Qed.

Lemma calculateAverage_inv h this x h' :
  calculateAverage this h = (Ok x, h') ->
  exists s l,
    objects h !! this = Some s /\ arrays h !! returns s = Some l /\
    h' = Heap (<[this := with_average (arithmetic_mean l) s]> (objects h))
              (arrays h).
Proof.
  intros Hrun. pose proof Hrun as Hrun'. unfold calculateAverage in Hrun'.
  apply bind_inv_ok in Hrun' as (s & h1 & [Hs ->]%get_object_inv & Hrun').
  unfold bind, get_array in Hrun'.
  destruct (arrays h !! returns s) as [l|] eqn:Hl; [|done].
  rewrite (calculateAverage_mean _ _ _ _ Hs Hl) in Hrun.
  injection Hrun as _ <-. eauto.
Qed.

Lemma push_inv h this open close wait h' :
  push this open close wait h = (Ok tt, h') ->
  exists s l,
    objects h !! this = Some s /\ arrays h !! returns s = Some l /\
    h' = Heap (match wait with
               | Some true => objects h
               | _ => <[this := with_average
                          (arithmetic_mean (l ++ [tick_return open close])) s]>
                        (objects h)
               end)
              (<[returns s := l ++ [tick_return open close]]> (arrays h)).
Proof.
  intros Hrun. pose proof Hrun as Hrun'. unfold push in Hrun'.
  apply bind_inv_ok in Hrun' as (s & h1 & [Hs ->]%get_object_inv & Hrun').
  apply bind_inv_ok in Hrun' as ([] & h2 & (l & Hl & _)%update_array_inv & _).
  exists s, l. split; [done|]. split; [done|].
  destruct (decide (wait = Some true)) as [->|Hw].
  - rewrite (push_deferred _ _ _ _ _ _ Hs Hl) in Hrun. by injection Hrun.
  - rewrite (push_appends _ _ _ _ _ _ _ Hs Hl Hw) in Hrun.
    injection Hrun as <-. by destruct wait as [[]|].
Qed.

(** *** Computations that only read the heap *)

Lemma read_only_ret {A} (a : A) : read_only (ret a).
Proof. done. Qed.

Lemma read_only_throw {A} e : read_only (@throw heap A e).
Proof. done. Qed.

Lemma read_only_bind {A B} (m : M heap A) (k : A -> M heap B) :
  read_only m -> (forall a, read_only (k a)) -> read_only (bind m k).
Proof.
  intros Hm Hk h. unfold bind. specialize (Hm h).
  destruct (m h) as [[a|e] h1]; simpl in *; subst; [apply Hk | done].
Qed.

Lemma read_only_for_each {A B} (ks : list A) (body : B -> A -> M heap B) :
  (forall acc k, read_only (body acc k)) ->
  forall acc, read_only (for_each ks acc body).
Proof.
  intros Hbody. induction ks as [|k ks IH]; intros acc; simpl.
  - apply read_only_ret.
  - apply read_only_bind; [apply Hbody | apply IH].
Qed.

Lemma read_only_get_object r : read_only (get_object r).
Proof. intros h. unfold get_object. by destruct (objects h !! r). Qed.

Lemma read_only_get_array a : read_only (get_array a).
Proof. intros h. unfold get_array. by destruct (arrays h !! a). Qed.

Lemma read_only_member p k : read_only (member p k).
Proof. unfold member. by destruct (Dict.get k (stocks p)). Qed.

Lemma read_only_calculateCovariance a b :
  read_only (calculateCovariance a b).
Proof.
  unfold calculateCovariance. case_bool_decide; [apply read_only_ret|].
  repeat (apply read_only_bind; [|intros ?]);
    auto using read_only_get_object, read_only_get_array, read_only_ret.
Qed.

Lemma read_only_quadratic_form w c : read_only (quadratic_form w c).
Proof.
  unfold quadratic_form.
  repeat match goal with
         | |- read_only (match ?x with _ => _ end) => destruct x
         end; auto using read_only_ret, read_only_throw.
Qed.

Create HintDb read_only.
#[local] Hint Resolve read_only_ret read_only_throw read_only_get_object
  read_only_get_array read_only_member read_only_calculateCovariance
  read_only_quadratic_form : read_only.

Ltac read_only :=
  repeat first
    [ apply read_only_bind; [|intros ?]
    | apply read_only_for_each; intros ? ?
    | solve [auto with read_only] ].

Lemma read_only_stringify p : read_only (stringify p).
Proof. unfold stringify. read_only. Qed.

Lemma read_only_createWeightMatrix p : read_only (createWeightMatrix p).
Proof. unfold createWeightMatrix. read_only. Qed.

Lemma read_only_createCovarianceMatrix p :
  read_only (createCovarianceMatrix p).
Proof. unfold createCovarianceMatrix. read_only. Qed.

Lemma read_only_cached_risk p : read_only (cached_risk p).
Proof.
  unfold cached_risk. apply read_only_bind; [apply read_only_stringify|].
  intros current. case_bool_decide; [|apply read_only_ret].
  apply read_only_bind; [apply read_only_createWeightMatrix | intros w].
  apply read_only_bind; [apply read_only_createCovarianceMatrix | intros c].
  apply read_only_bind; [apply read_only_quadratic_form | intros x].
  apply read_only_ret.
Qed.

Lemma read_only_calculateRisk p : read_only (calculateRisk p).
Proof.
  unfold calculateRisk. destruct (js_le0 (value p));
    [apply read_only_ret | apply read_only_cached_risk].
Qed.

Lemma read_only_run {A} (m : M heap A) h x h' :
  read_only m -> m h = (x, h') -> h' = h.
Proof. intros Hm Hrun. specialize (Hm h). by rewrite Hrun in Hm. Qed.

Lemma cached_risk_frame p h x p' h' :
  cached_risk p h = (Ok (x, p'), h') ->
  stocks p' = stocks p /\ value p' = value p.
Proof.
  unfold cached_risk. intros Hrun.
  apply bind_inv_ok in Hrun as (current & h1 & _ & Hrun).
  case_bool_decide.
  - apply bind_inv_ok in Hrun as (w & h2 & _ & Hrun).
    apply bind_inv_ok in Hrun as (c & h3 & _ & Hrun).
    apply bind_inv_ok in Hrun as (y & h4 & _ & Hrun).
    unfold ret in Hrun. by simplify_eq.
  - unfold ret in Hrun. by simplify_eq.
Qed.

Lemma calculateRisk_frame p h x p' h' :
  calculateRisk p h = (Ok (x, p'), h') ->
  h' = h /\ stocks p' = stocks p /\ value p' = value p.
Proof.
  intros Hrun. split; [by eapply read_only_run, Hrun; apply read_only_calculateRisk|].
  unfold calculateRisk in Hrun. destruct (js_le0 (value p)).
  - unfold ret in Hrun. by simplify_eq.
  - by eapply cached_risk_frame.
Qed.

(** *** Every operation keeps the invariant *)

Lemma keyed_set h p k r s l :
  keyed h p -> objects h !! r = Some s -> ticker s = k ->
  arrays h !! returns s = Some l ->
  keyed h (with_stocks (Dict.set k r (stocks p)) p).
Proof.
  intros Hk Hs Ht Hl k' r' Hin. cbn [stocks with_stocks] in Hin.
  apply dict_set_entries in Hin as [[= -> ->]|Hin]; eauto.
Qed.

Lemma keyed_delete h p k :
  keyed h p -> keyed h (with_stocks (Dict.delete k (stocks p)) p).
Proof.
  intros Hk k' r' Hin. cbn [stocks with_stocks] in Hin.
  apply dict_delete_entries in Hin. eauto.
Qed.

Lemma invariant_weights h p p' h' :
  keyed h p -> arrays_allocated h ->
  calculateWeights p h = (Ok p', h') -> invariant h' p'.
Proof.
  intros Hk Ha (-> & Hst & _ & _ & Hw)%weights_result.
  split; [|split; [|done]].
  - eapply keyed_same_stocks; [done|].
    eapply keyed_extends; [apply extends_reweighed | done].
  - by apply arrays_allocated_reweighed.
Qed.

Lemma invariant_new : invariant Stock.empty Portfolio.new.
Proof.
  split; [|split]; [|done..].
  intros k r Hin. by apply elem_of_nil in Hin.
Qed.

Lemma invariant_addStock h p stock v clone p' h' :
  invariant h p -> addStock p stock v clone h = (Ok p', h') ->
  invariant h' p'.
Proof.
  intros (Hk & Ha & Hw) Hrun.
  assert (exists s, objects h !! stock = Some s) as [s Hs].
  { unfold addStock in Hrun.
    apply bind_inv_ok in Hrun as (s & h1 & [Hs _]%get_object_inv & _).
    eauto. }
  destruct (Ha stock s Hs) as [l Hl].
  destruct (decide (clone = Some true)) as [->|Hclone].
  - rewrite (addStock_clone _ _ _ _ _ Hs) in Hrun.
    eapply invariant_weights; [| |exact Hrun].
    + eapply keyed_set with (s := Stock.with_value v (clone_of s)) (l := l).
      * eapply keyed_extends; [apply extends_alloc | done].
      * by apply list_lookup_middle.
      * done.
      * by apply lookup_app_l_Some.
    + apply arrays_allocated_alloc; [done|]. simpl.
      apply lookup_lt_Some in Hl. lia.
  - rewrite (addStock_reference _ _ _ _ _ _ Hclone Hs) in Hrun.
    eapply invariant_weights; [| |exact Hrun].
    + eapply keyed_set with (s := Stock.with_value v s) (l := l).
      * eapply keyed_extends; [|done]. by eapply extends_insert_object.
      * cbn [objects]. apply list_lookup_insert_eq. by eapply lookup_lt_Some.
      * done.
      * done.
    + apply arrays_allocated_insert_object; [done|]. simpl. eauto.
Qed.

Lemma invariant_removeStock h p stock p' h' :
  invariant h p -> removeStock p stock h = (Ok p', h') -> invariant h' p'.
Proof.
  intros (Hk & Ha & Hw) Hrun. unfold removeStock in Hrun.
  apply bind_inv_ok in Hrun as (k & h1 & Hticker & Hrun).
  assert (h1 = h) as ->.
  { destruct stock as [k0|r]; simpl in Hticker.
    - unfold ret in Hticker. by simplify_eq.
    - apply bind_inv_ok in Hticker as (s & h2 & [_ ->]%get_object_inv & Hret).
      unfold ret in Hret. by simplify_eq. }
  eapply invariant_weights; [| |exact Hrun]; [by apply keyed_delete | done].
Qed.

Lemma ticker_of_inv arg h k h' :
  ticker_of arg h = (Ok k, h') ->
  h' = h /\
  match arg with
  | Ticker k0 => k = k0
  | Object r => exists s, objects h !! r = Some s /\ k = ticker s
  end.
Proof.
  destruct arg as [k0|r]; simpl.
  - unfold ret. intros ?. by simplify_eq.
  - intros (s & h2 & [Hs ->]%get_object_inv & Hret)%bind_inv_ok.
    unfold ret in Hret. simplify_eq. eauto.
Qed.

(** The three ways of [updateStock]. *)
Lemma updateStock_member h p arg k r s v :
  ticker_of arg h = (Ok k, h) ->
  Dict.get k (stocks p) = Some r -> objects h !! r = Some s ->
  updateStock p arg v h =
    calculateWeights p
      (Heap (<[r := Stock.with_value v s]> (objects h)) (arrays h)).
Proof.
  intros Hk Hr Hs. unfold updateStock, lookup.
  rewrite (bind_ok _ _ _ _ _ Hk), Hr.
  by rewrite (bind_ok _ _ _ _ _ (update_object_ok _ _ _ _ Hs)).
Qed.

Lemma updateStock_inherited h p arg k v :
  ticker_of arg h = (Ok k, h) ->
  Dict.get k (stocks p) = None -> k ∈ Dict.inherited ->
  updateStock p arg v h = calculateWeights p h.
Proof.
  intros Hk Hr Hin. unfold updateStock, lookup.
  rewrite (bind_ok _ _ _ _ _ Hk), Hr.
  by rewrite bool_decide_eq_true_2.
Qed.

Lemma updateStock_undefined h p arg k v :
  ticker_of arg h = (Ok k, h) ->
  Dict.get k (stocks p) = None -> k ∉ Dict.inherited ->
  updateStock p arg v h = (Throw TypeError, h).
Proof.
  intros Hk Hr Hin. unfold updateStock, lookup.
  rewrite (bind_ok _ _ _ _ _ Hk), Hr.
  by rewrite bool_decide_eq_false_2.
Qed.

Lemma updateStock_inv h p arg v p' h' :
  updateStock p arg v h = (Ok p', h') ->
  exists k h1,
    ticker_of arg h = (Ok k, h) /\
    calculateWeights p h1 = (Ok p', h') /\
    ((exists r s,
        Dict.get k (stocks p) = Some r /\ objects h !! r = Some s /\
        h1 = Heap (<[r := Stock.with_value v s]> (objects h)) (arrays h)) \/
     (Dict.get k (stocks p) = None /\ k ∈ Dict.inherited /\ h1 = h)).
Proof.
  unfold updateStock, lookup. intros (k & h1 & Hk & Hrun)%bind_inv_ok.
  pose proof (ticker_of_inv _ _ _ _ Hk) as [-> _].
  apply bind_inv_ok in Hrun as ([] & h1 & Hwrite & Hrun).
  exists k, h1. split; [done|]. split; [done|].
  destruct (Dict.get k (stocks p)) as [r|] eqn:Hr.
  - apply update_object_inv in Hwrite as (s & Hs & ->). left. eauto.
  - destruct (bool_decide_reflect (k ∈ Dict.inherited)) as [Hin|Hin];
      [|done].
    unfold ret in Hwrite. simplify_eq. by right.
Qed.

Lemma invariant_updateStock h p stock v p' h' :
  invariant h p -> updateStock p stock v h = (Ok p', h') -> invariant h' p'.
Proof.
  intros (Hk & Ha & Hw) Hrun.
  apply updateStock_inv in Hrun
    as (k & h1 & _ & Hrun & [(r & s & _ & Hs & ->)|(_ & _ & ->)]).
  - eapply invariant_weights; [| |exact Hrun].
    + eapply keyed_extends; [|done]. by eapply extends_insert_object.
    + apply arrays_allocated_insert_object; [done|]. simpl. eauto.
  - by eapply invariant_weights.
Qed.

Lemma invariant_step op p h p' h' :
  invariant h p -> step op p h = (Ok p', h') -> invariant h' p'.
Proof.
  intros Hinv Hrun. pose proof Hinv as (Hk & Ha & Hw).
  destruct op as [k|r open close wait|r|op| | |]; simpl in Hrun.
  - unfold bind in Hrun. rewrite new_ok in Hrun. unfold ret in Hrun.
    simplify_eq. split; [|split; [|done]].
    + eapply keyed_extends; [apply extends_alloc | done].
    + apply arrays_allocated_alloc; [done|]. simpl. lia.
  - apply bind_inv_ok in Hrun as ([] & h1 & Hpush & Hret).
    unfold ret in Hret. simplify_eq.
    apply push_inv in Hpush as (s & l & Hs & Hl & ->).
    set (h1 := Heap (objects h)
                 (<[returns s := l ++ [tick_return open close]]> (arrays h))).
    assert (extends h h1) as He1 by apply extends_insert_array.
    assert (arrays_allocated h1) as Ha1
      by (by apply arrays_allocated_insert_array).
    destruct (decide (wait = Some true)) as [->|Hwait].
    + split; [by eapply keyed_extends | done].
    + assert (match wait with
              | Some true => objects h
              | _ => <[r := with_average
                         (arithmetic_mean (l ++ [tick_return open close])) s]>
                       (objects h)
              end = <[r := with_average
                         (arithmetic_mean (l ++ [tick_return open close])) s]>
                       (objects h)) as ->.
      { by destruct wait as [[]|]. }
      split; [|split; [|done]].
      * eapply keyed_extends; [|done]. eapply extends_trans; [exact He1|].
        by apply (extends_insert_object h1 r s).
      * apply (arrays_allocated_insert_object h1); [done|].
        simpl. apply is_Some_insert. eauto.
  - apply bind_inv_ok in Hrun as (x & h1 & Havg & Hret).
    unfold ret in Hret. simplify_eq.
    apply calculateAverage_inv in Havg as (s & l & Hs & Hl & ->).
    split; [|split; [|done]].
    + eapply keyed_extends; [|done]. by eapply extends_insert_object.
    + apply arrays_allocated_insert_object; [done|]. simpl. eauto.
  - destruct op as [stock v clone|stock|stock v]; simpl in Hrun.
    + by eapply invariant_addStock.
    + by eapply invariant_removeStock.
    + by eapply invariant_updateStock.
  - apply bind_inv_ok in Hrun as ([v p1] & h1 & Htotal & Hret).
    unfold ret in Hret. simplify_eq/=.
    pose proof (calculateTotalValue_inv _ _ _ _ Htotal) as Hlive.
    rewrite (calculateTotalValue_ok _ _ Hlive) in Htotal. simplify_eq.
    split; [done|]. split; [done|].
    intros Hnil. simpl in *. unfold member_values. by rewrite Hnil.
  - by eapply invariant_weights.
  - apply bind_inv_ok in Hrun as ([x p1] & h1 & Hrisk & Hret).
    unfold ret in Hret. simplify_eq/=.
    apply calculateRisk_frame in Hrisk as (-> & Hst & Hv).
    split; [by eapply keyed_same_stocks|]. split; [done|].
    intros Hnil. rewrite Hv. apply Hw. by rewrite <- Hst.
Qed.

Theorem reachable_invariant p h : reachable p h -> invariant h p.
Proof.
  induction 1 as [|p h op p' h' _ IH Hstep].
  - apply invariant_new.
  - by eapply invariant_step.
Qed.

(** ** The methods of [calculateRisk] on a snapshot of the members *)

Lemma quadratic_form_quadratic w c h :
  quadratic_form w c h =
    match quadratic w c with
    | Some x => (Ok x, h)
    | None => (Throw TypeError, h)
    end.
Proof.
  unfold quadratic_form, quadratic.
  destruct (Matrix.multiply c w) as [i|]; [|done].
  destruct (Matrix.multiply (Matrix.transpose w) i) as [pr|]; [|done].
  by destruct (Matrix.e 1 1 pr).
Qed.

Lemma entry_Some h p k e :
  entry h p k = Some e ->
  key e = k /\ Dict.get k (stocks p) = Some (address e) /\
  objects h !! address e = Some (object e) /\
  arrays h !! returns (object e) = Some (history e).
Proof.
  unfold entry. destruct (Dict.get k (stocks p)) as [r|]; [|done].
  destruct (objects h !! r) as [s|] eqn:Hs; [|done].
  destruct (arrays h !! returns s) as [l|] eqn:Hl; [|done].
  by intros [= <-].
Qed.

Lemma snapshot_entries h p snap :
  snapshot h p = Some snap ->
  Forall2 (fun k e => entry h p k = Some e) (Dict.keys (stocks p)) snap.
Proof. apply mapM_Some_1. Qed.

Lemma snapshot_elem h p snap e :
  snapshot h p = Some snap -> e ∈ snap ->
  key e ∈ Dict.keys (stocks p) /\ entry h p (key e) = Some e.
Proof.
  intros Hsnap%snapshot_entries He.
  apply list_elem_of_lookup in He as [i Hi].
  destruct (Forall2_lookup_r _ _ _ _ _ Hsnap Hi) as (k & Hk & Hke).
  destruct (entry_Some _ _ _ _ Hke) as (<- & _).
  split; [by eapply list_elem_of_lookup_2 | done].
Qed.

Lemma keyed_snapshot h p :
  keyed h p -> exists snap, snapshot h p = Some snap /\ coherent snap.
Proof.
  intros Hk.
  assert (forall k, k ∈ Dict.keys (stocks p) ->
            exists e, entry h p k = Some e /\ ticker (object e) = k)
    as Hentry.
  { intros k Hin. apply dict_elem_of_keys, dict_get_is_Some in Hin.
    destruct Hin as [r Hr].
    destruct (Hk k r (dict_get_Some _ _ _ Hr)) as (s & l & Hs & Ht & Hl).
    exists (View k r s l). unfold entry. by rewrite Hr, Hs, Hl. }
  destruct (mapM_is_Some_2 (entry h p) (Dict.keys (stocks p))) as [snap Hsnap].
  { apply Forall_forall. intros k Hin.
    destruct (Hentry k Hin) as (e & He & _). simpl. rewrite He. by eexists. }
  exists snap. split; [done|]. intros a b Ha Hb.
  destruct (snapshot_elem _ _ _ _ Hsnap Ha) as [Hka Hea].
  destruct (snapshot_elem _ _ _ _ Hsnap Hb) as [Hkb Heb].
  destruct (Hentry _ Hka) as (a' & Ha' & Hta).
  destruct (Hentry _ Hkb) as (b' & Hb' & Htb). simplify_eq.
  destruct (entry_Some _ _ _ _ Hea) as (_ & Hga & Hoa & _).
  destruct (entry_Some _ _ _ _ Heb) as (_ & Hgb & Hob & _).
  split.
  - intros Haddr. rewrite Haddr in Hoa. rewrite <- Hta, <- Htb. congruence.
  - intros Hkey. rewrite Hkey in Hga. congruence.
Qed.

Lemma for_each_collect {A B} (ks : list A) (ys : list B)
    (body : list B -> A -> M heap (list B)) (h : heap) :
  Forall2 (fun k y => forall acc, body acc k h = (Ok (acc ++ [y]), h)) ks ys ->
  forall acc, for_each ks acc body h = (Ok (acc ++ ys), h).
Proof.
  induction 1 as [|k y ks ys Hk _ IH]; intros acc; simpl.
  - by rewrite app_nil_r.
  - rewrite (bind_ok _ _ _ _ _ (Hk acc)). rewrite IH.
    by rewrite <- app_assoc.
Qed.

Lemma for_each_collect_nil {A B} (ks : list A) (ys : list B)
    (body : list B -> A -> M heap (list B)) (h : heap) :
  Forall2 (fun k y => forall acc, body acc k h = (Ok (acc ++ [y]), h)) ks ys ->
  for_each ks [] body h = (Ok ys, h).
Proof. intros Hbody. by rewrite (for_each_collect ks ys body h Hbody []). Qed.

Lemma stringify_snapshot h p snap :
  snapshot h p = Some snap -> stringify p h = (Ok (text_of snap), h).
Proof.
  intros Hsnap%snapshot_entries. unfold stringify, text_of.
  apply for_each_collect_nil. apply Forall2_fmap_r.
  eapply Forall2_impl; [exact Hsnap|]. intros k e He acc. simpl in *.
  destruct (entry_Some _ _ _ _ He) as (<- & Hg & Ho & Hl).
  rewrite (bind_ok _ _ _ _ _ (member_ok _ _ _ _ Hg)).
  rewrite (bind_ok _ _ _ _ _ (get_object_ok _ _ _ Ho)).
  by rewrite (bind_ok _ _ _ _ _ (get_array_ok _ _ _ Hl)).
Qed.

Lemma createWeightMatrix_snapshot h p snap :
  snapshot h p = Some snap ->
  createWeightMatrix p h = (Ok (Matrix.create_column (weights_of snap)), h).
Proof.
  intros Hsnap%snapshot_entries. unfold createWeightMatrix.
  erewrite bind_ok; [reflexivity|].
  apply for_each_collect_nil. apply Forall2_fmap_r.
  eapply Forall2_impl; [exact Hsnap|]. intros k e He acc. simpl in *.
  destruct (entry_Some _ _ _ _ He) as (<- & Hg & Ho & Hl).
  rewrite (bind_ok _ _ _ _ _ (member_ok _ _ _ _ Hg)).
  by rewrite (bind_ok _ _ _ _ _ (get_object_ok _ _ _ Ho)).
Qed.

Lemma calculateCovariance_views h p a b ka kb :
  entry h p ka = Some a -> entry h p kb = Some b ->
  calculateCovariance (address a) (address b) h =
    (Ok (covariance_between a b), h).
Proof.
  intros (_ & _ & Hoa & Hla)%entry_Some (_ & _ & Hob & Hlb)%entry_Some.
  unfold covariance_between. case_bool_decide as Haddr.
  - rewrite Haddr. apply calculateCovariance_self.
  - by apply calculateCovariance_ok.
Qed.

Lemma createCovarianceMatrix_snapshot h p snap :
  snapshot h p = Some snap ->
  createCovarianceMatrix p h = (Ok (covariances_of snap), h).
Proof.
  intros Hsnap%snapshot_entries. unfold createCovarianceMatrix.
  erewrite bind_ok; [reflexivity|].
  apply for_each_collect_nil. apply Forall2_fmap_r.
  eapply Forall2_impl; [exact Hsnap|]. intros ka a Ha acc. simpl in *.
  destruct (entry_Some _ _ _ _ Ha) as (_ & Hga & _).
  rewrite (bind_ok _ _ _ _ _ (member_ok _ _ _ _ Hga)).
  erewrite bind_ok; [reflexivity|].
  apply for_each_collect_nil. apply Forall2_fmap_r.
  eapply Forall2_impl; [exact Hsnap|]. intros kb b Hb row. simpl in *.
  destruct (entry_Some _ _ _ _ Hb) as (_ & Hgb & _).
  rewrite (bind_ok _ _ _ _ _ (member_ok _ _ _ _ Hgb)).
  by rewrite (bind_ok _ _ _ _ _ (calculateCovariance_views _ _ _ _ _ _ Ha Hb)).
Qed.

(** ** The cache *)

Lemma of_num_finite x y :
  JSON.of_num x = JSON.of_num y -> is_finite y = true -> x = y.
Proof. destruct x, y; simpl; try done. by intros [= ->]. Qed.

Lemma of_num_list l l' :
  JSON.of_num <$> l = JSON.of_num <$> l' ->
  Forall (fun x => is_finite x = true) l' -> l = l'.
Proof.
  revert l'. induction l as [|x l IH]; intros [|x' l'] Heq Hfin;
    try done.
  rewrite !fmap_cons in Heq. injection Heq as Hx Hl.
  apply Forall_cons in Hfin as [Hx' Hl'].
  f_equal; [by apply of_num_finite | by apply IH].
Qed.

Lemma of_num_option (o o' : option num) :
  JSON.of_num <$> o = JSON.of_num <$> o' ->
  is_finite (to_number o') = true -> o = o'.
Proof.
  destruct o as [x|], o' as [x'|]; simpl; try done.
  intros [= Hx] Hfin. f_equal. by apply of_num_finite.
Qed.

Lemma text_agree snap snap' :
  text_of snap = text_of snap' -> Forall printable snap' ->
  Forall2 agree snap snap'.
Proof.
  unfold text_of. revert snap'.
  induction snap as [|e snap IH]; intros [|e' snap'] Heq Hpr; try done.
  rewrite !fmap_cons in Heq.
  injection Heq as Hkey _ Hhist Havg _ Hweight Hrest.
  apply Forall_cons in Hpr as [(Hh & Ha & Hw) Hpr].
  constructor; [|by apply IH].
  split; [done|]. split; [by apply of_num_list|].
  split; [by apply of_num_finite | by apply of_num_option].
Qed.

Lemma fmap_agree {A B C} (R : A -> B -> Prop) (f : A -> C) (g : B -> C) l l' :
  Forall2 R l l' ->
  (forall x y, x ∈ l -> y ∈ l' -> R x y -> f x = g y) ->
  f <$> l = g <$> l'.
Proof.
  induction 1 as [|x y l l' Hxy _ IH]; intros Hfg; [done|].
  rewrite !fmap_cons. f_equal.
  - apply Hfg; [left | left | done].
  - apply IH. intros x' y' ? ?. apply Hfg; by right.
Qed.

Lemma covariance_ext a a' b b' la lb :
  average a = average a' -> average b = average b' ->
  covariance a b la lb = covariance a' b' la lb.
Proof. unfold covariance. by intros -> ->. Qed.

Lemma risk_agree snap snap' :
  Forall2 agree snap snap' -> coherent snap -> coherent snap' ->
  risk_of snap = risk_of snap'.
Proof.
  intros Hagree Hcoh Hcoh'. unfold risk_of. f_equal.
  - f_equal. unfold weights_of. eapply fmap_agree; [exact Hagree|].
    by intros e e' _ _ (_ & _ & _ & ->).
  - unfold covariances_of. eapply fmap_agree; [exact Hagree|].
    intros a a' Ha Ha' (Hka & Hha & Haa & _).
    eapply fmap_agree; [exact Hagree|].
    intros b b' Hb Hb' (Hkb & Hhb & Hab & _).
    unfold covariance_between.
    assert (address a = address b <-> address a' = address b') as Hiff.
    { rewrite (Hcoh a b Ha Hb), (Hcoh' a' b' Ha' Hb'). by rewrite Hka, Hkb. }
    destruct (bool_decide_reflect (address a = address b)) as [Hab'|Hab'];
      destruct (bool_decide_reflect (address a' = address b')) as [Hab''|Hab''];
      [done | tauto | tauto |].
    rewrite Hha, Hhb. by apply covariance_ext.
Qed.

Lemma length_create_column (ws : list num) :
  length (Matrix.create_column ws) = length ws.
Proof. apply length_fmap. Qed.

Lemma quadratic_total (ws : list num) (r : list num) (c : Matrix.t) :
  ws <> [] -> length r = length ws -> length (r :: c) = length ws ->
  is_Some (quadratic (Matrix.create_column ws) (r :: c)).
Proof.
  destruct ws as [|w ws]; [done|]. intros _ Hr Hc.
  unfold quadratic, Matrix.multiply.
  rewrite bool_decide_eq_true_2; cycle 1.
  { split; [done|]. split; [done|].
    unfold Matrix.cols. by rewrite length_create_column. }
  cbn [Matrix.create_column fmap list_fmap Matrix.cols length seq
       Matrix.transpose].
  rewrite bool_decide_eq_true_2; cycle 1.
  { split; [done|]. split; [done|]. cbn [Matrix.cols Matrix.column length].
    unfold Matrix.column. rewrite !length_fmap. cbn [length] in *.
    rewrite length_fmap. lia. }
  by eexists.
Qed.

Lemma risk_of_total snap : snap <> [] -> is_Some (risk_of snap).
Proof.
  destruct snap as [|a snap]; [done|]. intros _. unfold risk_of.
  unfold covariances_of. rewrite fmap_cons.
  apply quadratic_total.
  - done.
  - unfold weights_of. by rewrite !length_fmap.
  - unfold weights_of. simpl. by rewrite !length_fmap.
Qed.

Lemma risk_from_scratch_snapshot h p snap :
  snapshot h p = Some snap -> js_le0 (value p) = false ->
  risk_from_scratch p h =
    match risk_of snap with
    | Some x => (Ok x, h)
    | None => (Throw TypeError, h)
    end.
Proof.
  intros Hsnap Hv. unfold risk_from_scratch. rewrite Hv.
  rewrite (bind_ok _ _ _ _ _ (createWeightMatrix_snapshot _ _ _ Hsnap)).
  rewrite (bind_ok _ _ _ _ _ (createCovarianceMatrix_snapshot _ _ _ Hsnap)).
  apply quadratic_form_quadratic.
Qed.

Lemma cached_risk_snapshot h p snap :
  snapshot h p = Some snap ->
  cached_risk p h =
    if bool_decide (cache p <> Some (text_of snap)) then
      match risk_of snap with
      | Some x => (Ok (x, with_risk (text_of snap) x p), h)
      | None => (Throw TypeError, h)
      end
    else (Ok (risk p, p), h).
Proof.
  intros Hsnap. unfold cached_risk.
  rewrite (bind_ok _ _ _ _ _ (stringify_snapshot _ _ _ Hsnap)).
  case_bool_decide; [|done].
  rewrite (bind_ok _ _ _ _ _ (createWeightMatrix_snapshot _ _ _ Hsnap)).
  rewrite (bind_ok _ _ _ _ _ (createCovarianceMatrix_snapshot _ _ _ Hsnap)).
  unfold bind. rewrite quadratic_form_quadratic. fold (risk_of snap).
  by destruct (risk_of snap).
Qed.

Lemma cache_sound_miss p snap x :
  coherent snap -> risk_of snap = Some x ->
  cache_sound (with_risk (text_of snap) x p).
Proof.
  intros Hcoh Hx snap' Hcache Hcoh' Hpr'. simpl in *.
  injection Hcache as Htext.
  rewrite <- (risk_agree snap snap'); [done| |done..].
  by apply text_agree.
Qed.

Lemma keys_empty {V} (o : Dict.t V) : Dict.keys o = [] -> o = [].
Proof.
  destruct o as [|[k v] o]; [done|]. intros Hkeys.
  assert (k ∈ Dict.keys ((k, v) :: o)) as Hin.
  { apply dict_elem_of_keys. left. }
  rewrite Hkeys in Hin. by apply elem_of_nil in Hin.
Qed.

Lemma snapshot_nonempty h p snap :
  empty_is_worthless p -> snapshot h p = Some snap ->
  js_le0 (value p) = false -> snap <> [].
Proof.
  intros Hw Hsnap Hv ->. apply length_mapM in Hsnap.
  apply nil_length_inv, keys_empty in Hsnap.
  rewrite (Hw Hsnap) in Hv. by vm_compute in Hv.
Qed.

Lemma calculateRisk_snapshot h p snap :
  keyed h p -> empty_is_worthless p -> cache_sound p ->
  snapshot h p = Some snap ->
  exists x p',
    calculateRisk p h = (Ok (x, p'), h) /\ cache_sound p' /\
    (Forall printable snap -> risk_from_scratch p h = (Ok x, h)).
Proof.
  intros Hk Hw Hcache Hsnap.
  destruct (keyed_snapshot _ _ Hk) as (snap' & Hsnap' & Hcoh).
  assert (snap' = snap) as -> by congruence.
  unfold calculateRisk. destruct (js_le0 (value p)) eqn:Hv.
  { eexists _, _. split; [done|]. split; [done|].
    intros _. unfold risk_from_scratch. by rewrite Hv. }
  destruct (risk_of_total snap) as [x Hx].
  { by eapply snapshot_nonempty. }
  rewrite (cached_risk_snapshot _ _ _ Hsnap).
  rewrite (risk_from_scratch_snapshot _ _ _ Hsnap Hv), Hx.
  destruct (bool_decide_reflect (cache p <> Some (text_of snap)))
    as [Hmiss|Hhit].
  - eexists _, _. split; [done|]. split; [|done].
    by apply cache_sound_miss.
  - eexists _, _. split; [done|]. split; [done|].
    intros Hpr. apply dec_stable in Hhit.
    rewrite (Hcache snap Hhit Hcoh Hpr) in Hx. by injection Hx as ->.
Qed.

Lemma step_keeps_cache op p h p' h' :
  op <> CalculateRisk -> step op p h = (Ok p', h') ->
  cache p' = cache p /\ risk p' = risk p.
Proof.
  intros Hop Hrun.
  destruct op as [k|r open close wait|r|op| | |]; simpl in Hrun; [..|done].
  - apply bind_inv_ok in Hrun as (? & ? & _ & Hret).
    unfold ret in Hret. by simplify_eq.
  - apply bind_inv_ok in Hrun as (? & ? & _ & Hret).
    unfold ret in Hret. by simplify_eq.
  - apply bind_inv_ok in Hrun as (? & ? & _ & Hret).
    unfold ret in Hret. by simplify_eq.
  - apply trigger_ends_with_weights in Hrun as (p1 & h1 & Hw & <- & <-).
    by apply weights_result in Hw as (_ & _ & ? & ? & _).
  - apply bind_inv_ok in Hrun as ([v p1] & h1 & Htotal & Hret).
    unfold ret in Hret. simplify_eq/=.
    pose proof (calculateTotalValue_inv _ _ _ _ Htotal) as Hlive.
    rewrite (calculateTotalValue_ok _ _ Hlive) in Htotal. by simplify_eq.
  - by apply weights_result in Hrun as (_ & _ & ? & ? & _).
Qed.

Lemma cache_sound_same p p' :
  cache p' = cache p -> risk p' = risk p -> cache_sound p -> cache_sound p'.
Proof. unfold cache_sound. by intros -> ->. Qed.

Lemma cache_sound_step op p h p' h' :
  invariant h p -> cache_sound p -> step op p h = (Ok p', h') ->
  cache_sound p'.
Proof.
  intros (Hk & _ & Hw) Hcache Hrun.
  assert (op = CalculateRisk \/ op <> CalculateRisk) as [->|Hop].
  { destruct op; (by left) || (by right). }
  - simpl in Hrun.
    apply bind_inv_ok in Hrun as ([x p1] & h1 & Hrisk & Hret).
    unfold ret in Hret. simplify_eq/=.
    destruct (keyed_snapshot _ _ Hk) as (snap & Hsnap & _).
    destruct (calculateRisk_snapshot _ _ _ Hk Hw Hcache Hsnap)
      as (x' & p'' & Hrisk' & Hsound & _).
    rewrite Hrisk in Hrisk'. by simplify_eq.
  - destruct (step_keeps_cache _ _ _ _ _ Hop Hrun) as [Hc Hr].
    by eapply cache_sound_same.
Qed.

Lemma cache_sound_new : cache_sound Portfolio.new.
Proof. intros snap Hcache. discriminate. Qed.

Theorem reachable_cache_sound p h : reachable p h -> cache_sound p.
Proof.
  induction 1 as [|p h op p' h' Hreach IH Hstep].
  - apply cache_sound_new.
  - eapply cache_sound_step; [by apply reachable_invariant | done..].
Qed.

(** In a reachable state whose members have finite returns, averages and
    weights, [calculateRisk] returns the risk of the current members. *)
Theorem calculateRisk_fresh_on_printable_members p h :
  reachable p h ->
  exists snap x p',
    snapshot h p = Some snap /\
    calculateRisk p h = (Ok (x, p'), h) /\
    (Forall printable snap -> risk_from_scratch p h = (Ok x, h)).
Proof.
  intros Hreach.
  destruct (reachable_invariant _ _ Hreach) as (Hk & _ & Hw).
  destruct (keyed_snapshot _ _ Hk) as (snap & Hsnap & _).
  destruct (calculateRisk_snapshot _ _ _ Hk Hw
              (reachable_cache_sound _ _ Hreach) Hsnap)
    as (x & p' & Hrisk & _ & Hfresh).
  eauto 6.
Qed.

Corollary reachable_live p h : reachable p h -> live h p.
Proof. intros (Hk & _)%reachable_invariant. by apply keyed_live. Qed.

(** A run of several operations. *)
Lemma reachable_run ops p h p' h' :
  reachable p h -> run ops p h = (Ok p', h') -> reachable p' h'.
Proof.
  revert p h. induction ops as [|op ops IH]; intros p h Hreach Hrun.
  - unfold run, ret in Hrun. simpl in Hrun. by simplify_eq.
  - simpl in Hrun. apply bind_inv_ok in Hrun as (p1 & h1 & Hstep & Hrun).
    eapply IH; [|exact Hrun]. by eapply reachable_step.
Qed.

Lemma tested_state_reachable :
  reachable Scenario.tested_portfolio Scenario.tested_heap.
Proof.
  apply (reachable_run Scenario.tested_operations Portfolio.new Stock.empty);
    [constructor | compute_done].
Qed.

Lemma tested_state_is_the_end_of_the_test :
  Scenario.intel_and_apple Stock.empty =
    (Ok (0, 1, Scenario.tested_portfolio), Scenario.tested_heap).
Proof. compute_done. Qed.

(** * The claims *)

(** C1 (violated by the code): [addStock(s, v, true)] is meant to store a
    copy of [s] whose returns and average are frozen.  The copy is a new
    object, but [copy.returns = stock.returns] gives it the array object of
    the original.  Here [s] has one tick when it is added; the member's
    returns are [[100]] and its average is 100.  After [s.push(20, 30)] the
    member's returns are [[100; 50]], while its average is still 100. *)
Theorem C1_clone_shares_the_returns_array :
  exists s p h m h',
    Scenario.cloned Stock.empty = (Ok (s, p), h) /\
    Dict.get "AAPL" (stocks p) = Some m /\ m <> s /\
    returns_of h m = Some [of_Z 100] /\
    average_of h m = Some (of_Z 100) /\
    Stock.push s (of_Z 20) (of_Z 30) None h = (Ok tt, h') /\
    returns_of h' m = Some [of_Z 100; of_Z 50] /\
    average_of h' m = Some (of_Z 100).
Proof.
  eexists _, _, _, _, _.
  split; [vm_compute; reflexivity|].
  split; [vm_compute; reflexivity|].
  split; [by vm_compute|].
  split; [compute_done|].
  split; [compute_done|].
  split; [vm_compute; reflexivity|].
  split; compute_done.
Qed.

(** C2 (violated by the code): after a mutation, [calculateRisk] is meant
    to return the risk of the current members, never a cached one.  The
    cache key is the JSON text of the members, and JSON prints both
    [Infinity] and [-Infinity] as [null].  In [Scenario.replaced] member
    [A] has returns [[Infinity; 100]] and the risk, [-Infinity], is cached;
    [addStock] then replaces [A] by another stock with returns
    [[-Infinity; 100]] and the same average and value.  The text is
    unchanged, so in this reachable state [calculateRisk] (with either
    guard) answers [-Infinity] from the cache, while the risk computed from
    the current members is [Infinity]. *)
Theorem C2_cached_risk_survives_a_replaced_member :
  exists a2 p h p1 p2 h2 p3,
    Scenario.replaced Stock.empty = (Ok (a2, p), h) /\
    calculateRisk p h = (Ok (Inf true, p1), h) /\
    addStock p1 a2 (of_Z 1) None h = (Ok p2, h2) /\
    reachable p2 h2 /\
    calculateRisk p2 h2 = (Ok (Inf true, p3), h2) /\
    calculateRisk_single_file p2 h2 = (Ok (Inf true, p3), h2) /\
    risk_from_scratch p2 h2 = (Ok (Inf false), h2).
Proof.
  eexists _, _, _, _, _, _, _.
  split; [vm_compute; reflexivity|].
  split; [vm_compute; reflexivity|].
  split; [vm_compute; reflexivity|].
  split.
  { apply (reachable_run Scenario.replaced_operations
             Portfolio.new Stock.empty); [constructor | compute_done]. }
  split; [vm_compute; reflexivity|].
  split; vm_compute; reflexivity.
Qed.

(** C3: the scenario of the test suite.  With ticks (10,20), (20,30),
    (30,15) intel has returns [[100; 50; -50]] and average 100/3; with ticks
    (10,20), (20,30) apple has returns [[100; 50]] and average 75.  After
    adding intel at 30 and apple at 20 the total value is 50, the weights
    are 0.6 and 0.4, the covariance of intel and apple is 1250, the
    covariance matrix is [[1,1250],[1250,1]] and the risk, with either
    guard, is 600.52. *)
Theorem C3_intel_and_apple :
  exists intel apple p h si sa x p',
    Scenario.intel_and_apple Stock.empty = (Ok (intel, apple, p), h) /\
    objects h !! intel = Some si /\ objects h !! apple = Some sa /\
    arrays h !! returns si = Some [of_Z 100; of_Z 50; of_Z (-50)] /\
    average si = ratio 100 3 /\
    arrays h !! returns sa = Some [of_Z 100; of_Z 50] /\
    average sa = of_Z 75 /\
    calculateTotalValue p h = (Ok (of_Z 50, p), h) /\
    createWeightMatrix p h = (Ok [[ratio 6 10]; [ratio 4 10]], h) /\
    calculateCovariance intel apple h = (Ok (of_Z 1250), h) /\
    createCovarianceMatrix p h =
      (Ok [[of_Z 1; of_Z 1250]; [of_Z 1250; of_Z 1]], h) /\
    calculateRisk p h = (Ok (x, p'), h) /\
    calculateRisk_single_file p h = (Ok (x, p'), h) /\
    x = ratio 60052 100.
Proof.
  eexists _, _, _, _, _, _, _, _.
  split; [vm_compute; reflexivity|].
  split; [vm_compute; reflexivity|].
  split; [vm_compute; reflexivity|].
  split; [compute_done|].
  split; [compute_done|].
  split; [compute_done|].
  split; [compute_done|].
  split; [compute_done|].
  split; [compute_done|].
  split; [compute_done|].
  split; [compute_done|].
  split; [vm_compute; reflexivity|].
  split; [vm_compute; reflexivity | compute_done].
Qed.

(** C4: the covariance of a stock object with itself is exactly 1, whatever
    its returns and average are, and whether or not the heap holds it. *)
Theorem C4_self_covariance_is_one (h : heap) (s : ref) :
  calculateCovariance s s h = (Ok (of_Z 1), h).
Proof. apply calculateCovariance_self. Qed.

(** C5 as stated fails: [Scenario.untraded] has a stock without returns and
    a stock with two, so [n = 0]; the division is by [-1] and the covariance
    is zero, a finite number. *)
Lemma C5_zero_overlap_gives_zero :
  exists a b h sa sb la lb,
    Scenario.untraded Stock.empty = (Ok (a, b), h) /\
    a <> b /\
    objects h !! a = Some sa /\ arrays h !! returns sa = Some la /\
    objects h !! b = Some sb /\ arrays h !! returns sb = Some lb /\
    Nat.min (length la) (length lb) <= 1 /\
    calculateCovariance a b h = (Ok (of_Z 0), h) /\
    is_finite (of_Z 0) = true.
Proof.
  eexists _, _, _, _, _, _, _.
  split; [vm_compute; reflexivity|].
  split; [by vm_compute|].
  split; [vm_compute; reflexivity|].
  split; [vm_compute; reflexivity|].
  split; [vm_compute; reflexivity|].
  split; [vm_compute; reflexivity|].
  split; [vm_compute; lia|].
  split; [compute_done | done].
Qed.

(** C5 (amended): for two distinct stocks whose return histories overlap in
    [n <= 1] ticks, [calculateCovariance] does not throw.  With [n = 1] it
    divides by zero and returns [NaN], [Infinity] or [-Infinity], never a
    finite number; with [n = 0] it returns zero. *)
Theorem C5_covariance_of_short_histories h a b sa sb la lb :
  a <> b ->
  objects h !! a = Some sa -> arrays h !! returns sa = Some la ->
  objects h !! b = Some sb -> arrays h !! returns sb = Some lb ->
  Nat.min (length la) (length lb) <= 1 ->
  exists x,
    calculateCovariance a b h = (Ok x, h) /\
    match Nat.min (length la) (length lb) with
    | 0 => x = of_Z 0
    | _ => is_finite x = false
    end.
Proof.
  intros Hne Ha Hla Hb Hlb Hn.
  rewrite (calculateCovariance_ok h a b sa sb la lb) by done.
  eexists. split; [done|].
  destruct (Nat.min (length la) (length lb)) as [|[|n]] eqn:E; [| |lia].
  - by apply covariance_no_tick.
  - by apply covariance_one_tick.
Qed.

Lemma C5_witness :
  exists x,
    calculateCovariance 0 1 Scenario.single_tick_heap
      = (Ok x, Scenario.single_tick_heap) /\
    is_finite x = false.
Proof.
  apply (C5_covariance_of_short_histories Scenario.single_tick_heap 0 1
           (Stock.mk "A" 0 (of_Z 100) None None)
           (Stock.mk "B" 1 (of_Z 50) None None)
           [of_Z 100] [of_Z 50]);
    [discriminate | reflexivity | reflexivity | reflexivity | reflexivity
    | simpl; lia].
Defined.




(** C7 as stated fails: [toString] is not a member of the tested
    portfolio ([hasStock] says so), yet [this.stocks['toString']] finds the
    function that every object inherits, the assignment of [value] lands
    on that function, and [updateStock('toString', 5)] returns after
    recomputing the weights, which leaves the portfolio and the stocks as
    they were. *)
Lemma C7_inherited_name_is_found :
  Dict.get "toString" (stocks Scenario.tested_portfolio) = None /\
  hasStock Scenario.tested_portfolio (Ticker "toString")
    Scenario.tested_heap = (Ok false, Scenario.tested_heap) /\
  updateStock Scenario.tested_portfolio (Ticker "toString") (of_Z 5)
    Scenario.tested_heap
    = (Ok Scenario.tested_portfolio, Scenario.tested_heap).
Proof.
  split; [reflexivity|]. split; [reflexivity | compute_done].
Qed.

(** C7 (amended): when the ticker named by the argument (a string, or a
    stock through its [ticker]) is not a member and is not a name
    inherited from [Object.prototype], [updateStock] throws a [TypeError]
    and leaves the heap as it was; for an inherited name it does not
    throw and goes on to recompute the weights.  [removeStock] of a ticker
    that is not a member does not throw: it leaves the members as they
    are and recomputes the total value and the weight of every member. *)
Theorem C7_update_absent_throws_remove_absent_recomputes h p arg k v :
  ticker_of arg h = (Ok k, h) ->
  Dict.get k (stocks p) = None ->
  live h p ->
  updateStock p arg v h =
    (if bool_decide (k ∈ Dict.inherited) then calculateWeights p h
     else (Throw TypeError, h)) /\
  removeStock p arg h = calculateWeights p h /\
  exists p' h',
    removeStock p arg h = (Ok p', h') /\
    stocks p' = stocks p /\
    forall k' r s,
      Dict.get k' (stocks p) = Some r -> objects h !! r = Some s ->
      objects h' !! r = Some (assign_weight (value p') s).
Proof.
  intros Hk Habsent Hlive.
  assert (removeStock p arg h = calculateWeights p h) as Hremove.
  { unfold removeStock. rewrite (bind_ok _ _ _ _ _ Hk).
    rewrite (dict_delete_absent _ _ Habsent). by destruct p. }
  split; [|split; [done|]].
  - case_bool_decide.
    + by apply (updateStock_inherited h p arg k).
    + by apply (updateStock_undefined h p arg k).
  - rewrite Hremove.
    rewrite (calculateWeights_ok _ _ (live_members_live _ _ Hlive)).
    eexists _, _. split; [done|]. split; [done|].
    intros k' r s Hr Hs. by eapply reweighed_member.
Qed.

Lemma C7_witness :
  updateStock Scenario.tested_portfolio (Ticker "msft") (of_Z 5)
    Scenario.tested_heap = (Throw TypeError, Scenario.tested_heap) /\
  removeStock Scenario.tested_portfolio (Ticker "msft") Scenario.tested_heap
    = calculateWeights Scenario.tested_portfolio Scenario.tested_heap /\
  exists p' h',
    removeStock Scenario.tested_portfolio (Ticker "msft")
      Scenario.tested_heap = (Ok p', h') /\
    stocks p' = stocks Scenario.tested_portfolio /\
    forall k' r s,
      Dict.get k' (stocks Scenario.tested_portfolio) = Some r ->
      objects Scenario.tested_heap !! r = Some s ->
      objects h' !! r = Some (assign_weight (value p') s).
Proof.
  apply (C7_update_absent_throws_remove_absent_recomputes
           Scenario.tested_heap Scenario.tested_portfolio
           (Ticker "msft") "msft" (of_Z 5));
    [reflexivity | reflexivity |].
  intros k r Hin. vm_compute in Hin.
  apply elem_of_cons in Hin as [[= -> ->]|Hin]; [by eexists|].
  apply elem_of_cons in Hin as [[= -> ->]|Hin]; [by eexists|].
  by apply elem_of_nil in Hin.
Defined.

(** C8: [calculateAverage] stores and returns the arithmetic mean
    [sum(returns) / len(returns)]; [push(open, close)] with [wait] absent
    or false appends [(close - open) / open * 100] to the returns and
    stores the mean of the extended returns as the average. *)
Theorem C8_average_is_the_mean_and_push_appends
    h this s l open close wait :
  objects h !! this = Some s ->
  arrays h !! returns s = Some l ->
  wait <> Some true ->
  calculateAverage this h =
    (Ok (arithmetic_mean l),
     Heap (<[this := with_average (arithmetic_mean l) s]> (objects h))
          (arrays h)) /\
  push this open close wait h =
    (Ok tt,
     Heap (<[this := with_average
                       (arithmetic_mean (l ++ [tick_return open close])) s]>
             (objects h))
          (<[returns s := l ++ [tick_return open close]]> (arrays h))).
Proof.
  intros Hs Hl Hwait. split.
  - by apply calculateAverage_mean.
  - by apply push_appends.
Qed.

Lemma C8_witness :
  calculateAverage 0 Scenario.tested_heap =
    (Ok (arithmetic_mean [of_Z 100; of_Z 50; of_Z (-50)]),
     Heap (<[0 := with_average
                    (arithmetic_mean [of_Z 100; of_Z 50; of_Z (-50)])
                    Scenario.intel]> (objects Scenario.tested_heap))
          (arrays Scenario.tested_heap)) /\
  push 0 (of_Z 15) (of_Z 45) None Scenario.tested_heap =
    (Ok tt,
     Heap (<[0 := with_average
                    (arithmetic_mean
                       ([of_Z 100; of_Z 50; of_Z (-50)]
                          ++ [tick_return (of_Z 15) (of_Z 45)]))
                    Scenario.intel]> (objects Scenario.tested_heap))
          (<[returns Scenario.intel :=
               [of_Z 100; of_Z 50; of_Z (-50)]
                 ++ [tick_return (of_Z 15) (of_Z 45)]]>
             (arrays Scenario.tested_heap))).
Proof.
  apply (C8_average_is_the_mean_and_push_appends Scenario.tested_heap 0
           Scenario.intel [of_Z 100; of_Z 50; of_Z (-50)]
           (of_Z 15) (of_Z 45) None);
    [reflexivity | reflexivity | discriminate].
Defined.

(** C9: for two distinct stock objects, the covariance does not depend on
    the order of the arguments. *)
Theorem C9_covariance_is_symmetric h a b sa sb la lb :
  a <> b ->
  objects h !! a = Some sa -> arrays h !! returns sa = Some la ->
  objects h !! b = Some sb -> arrays h !! returns sb = Some lb ->
  calculateCovariance a b h = calculateCovariance b a h /\
  exists c, calculateCovariance a b h = (Ok c, h).
Proof.
  intros Hne Ha Hla Hb Hlb.
  rewrite (calculateCovariance_ok h a b sa sb la lb) by done.
  rewrite (calculateCovariance_ok h b a sb sa lb la) by done.
  split; [by rewrite covariance_comm | eauto].
Qed.

Lemma C9_witness :
  calculateCovariance 0 1 Scenario.tested_heap
    = calculateCovariance 1 0 Scenario.tested_heap /\
  exists c, calculateCovariance 0 1 Scenario.tested_heap
              = (Ok c, Scenario.tested_heap).
Proof.
  apply (C9_covariance_is_symmetric Scenario.tested_heap 0 1
           Scenario.intel Scenario.apple
           [of_Z 100; of_Z 50; of_Z (-50)] [of_Z 100; of_Z 50]);
    [discriminate | reflexivity | reflexivity | reflexivity | reflexivity].
Defined.


(** ** Loading a stock *)

Lemma push_all_cons this o c ticks wait h :
  push_all this ((o, c) :: ticks) wait h =
    (push this o c wait ;; push_all this ticks wait) h.
Proof.
  unfold push_all. simpl. unfold bind.
  by destruct (push this o c wait h) as [[[]|e] h'].
Qed.

Lemma push_all_deferred this ticks : forall h s l,
  objects h !! this = Some s ->
  arrays h !! returns s = Some l ->
  push_all this ticks (Some true) h =
    (Ok tt,
     Heap (objects h) (<[returns s := l ++ tick_returns ticks]> (arrays h))).
Proof.
  induction ticks as [|[o c] ticks IH]; intros h s l Hs Hl.
  - unfold push_all, tick_returns. simpl. unfold ret.
    rewrite app_nil_r, list_insert_id by done. by destruct h.
  - rewrite push_all_cons.
    rewrite (bind_ok _ _ _ _ _ (push_deferred h this s l o c Hs Hl)).
    rewrite (IH _ s (l ++ [tick_return o c])); simpl; [|done|].
    + rewrite list_insert_insert_eq. by rewrite <- app_assoc.
    + apply list_lookup_insert_eq. by eapply lookup_lt_Some.
Qed.

Lemma with_average_twice x y s :
  with_average y (with_average x s) = with_average y s.
Proof. by destruct s. Qed.

Lemma push_all_immediate this wait ticks :
  wait <> Some true ->
  forall o c h s l,
    objects h !! this = Some s ->
    arrays h !! returns s = Some l ->
    push_all this ((o, c) :: ticks) wait h =
      (Ok tt,
       Heap (<[this := with_average
                 (arithmetic_mean (l ++ tick_returns ((o, c) :: ticks))) s]>
               (objects h))
            (<[returns s := l ++ tick_returns ((o, c) :: ticks)]> (arrays h))).
Proof.
  intros Hw. induction ticks as [|[o' c'] ticks IH]; intros o c h s l Hs Hl.
  - rewrite push_all_cons.
    by rewrite (bind_ok _ _ _ _ _ (push_appends h this s l o c wait Hs Hl Hw)).
  - rewrite push_all_cons.
    rewrite (bind_ok _ _ _ _ _ (push_appends h this s l o c wait Hs Hl Hw)).
    rewrite (IH o' c' _ (with_average
                           (arithmetic_mean (l ++ [tick_return o c])) s)
               (l ++ [tick_return o c])); simpl.
    + by rewrite !list_insert_insert_eq, with_average_twice, <- app_assoc.
    + apply list_lookup_insert_eq. by eapply lookup_lt_Some.
    + apply list_lookup_insert_eq. by eapply lookup_lt_Some.
Qed.

(** ** Finite and other numbers *)

Lemma of_nat_S_nonzero n : Q2Qc (inject_Z (Z.of_nat (S n))) <> 0%Qc.
Proof.
  change 0%Qc with (Q2Qc (inject_Z 0)). intros H%Q2Qc_eq_iff.
  unfold Qeq in H. simpl in H. lia.
Qed.

Lemma tick_return_zero_open close :
  is_finite (tick_return (of_Z 0) close) = false.
Proof.
  unfold tick_return.
  pose proof (div_by_zero_not_finite (close - of_Z 0)) as H.
  destruct ((close - of_Z 0) / of_Z 0) as [q|s|]; [done| |done].
  unfold js_mul, of_Z. by case_bool_decide.
Qed.

Lemma tick_return_finite (o c : Qc) :
  o <> 0%Qc ->
  tick_return (Fin o) (Fin c) =
    Fin ((c - o) / o * Q2Qc (inject_Z 100))%Qc.
Proof.
  intros Ho. unfold tick_return. simpl. by rewrite bool_decide_eq_false_2.
Qed.

Lemma mean_not_finite (l : list num) :
  Exists (fun x => is_finite x = false) l ->
  is_finite (arithmetic_mean l) = false.
Proof.
  intros Hex. unfold arithmetic_mean.
  destruct (total l) as [t|s|] eqn:Ht.
  - apply total_Fin_finite in Ht. apply Exists_exists in Hex as (x & Hx & Hfx).
    rewrite Forall_forall in Ht. specialize (Ht x Hx). congruence.
  - done.
  - done.
Qed.

Lemma mean_finite (l : list num) :
  l <> [] -> Forall (fun x => is_finite x = true) l ->
  exists q, arithmetic_mean l = Fin q.
Proof.
  intros Hne [t Ht]%total_finite_Fin. unfold arithmetic_mean. rewrite Ht.
  destruct l as [|x l]; [done|].
  unfold of_nat, of_Z. cbn [length js_div].
  rewrite bool_decide_eq_false_2 by apply of_nat_S_nonzero. eauto.
Qed.

(** ** Dictionaries: keys *)

Section dict_keys.
Context {V : Type}.
Implicit Types (o : Dict.t V) (k : string) (v : V).

Lemma dict_set_same o k v : Dict.get k o = Some v -> Dict.set k v o = o.
Proof.
  induction o as [|[k0 v0] o IH]; csimpl; [done|].
  case_bool_decide; [by intros [= ->]; subst|]. intros ?. f_equal. auto.
Qed.

Lemma dict_delete_set o k v :
  Dict.get k o = None -> Dict.delete k (Dict.set k v o) = o.
Proof.
  induction o as [|[k0 v0] o IH]; csimpl.
  - by rewrite bool_decide_eq_true_2.
  - case_bool_decide as Hk; [done|]. intros ?. csimpl.
    rewrite bool_decide_eq_false_2 by done. f_equal. auto.
Qed.

Lemma dict_set_keys o k v :
  (Dict.set k v o).*1 = if bool_decide (k ∈ o.*1) then o.*1 else o.*1 ++ [k].
Proof.
  induction o as [|[k0 v0] o IH]; csimpl.
  - done.
  - destruct (bool_decide_reflect (k0 = k)) as [->|Hne]; csimpl.
    + by rewrite bool_decide_eq_true_2 by (apply elem_of_cons; by left).
    + rewrite IH. destruct (bool_decide_reflect (k ∈ o.*1)) as [Hin|Hin].
      * by rewrite bool_decide_eq_true_2 by (apply elem_of_cons; by right).
      * rewrite bool_decide_eq_false_2; [done|].
        intros [?|?]%elem_of_cons; [congruence | done].
Qed.

Lemma filter_all {A} (P : A -> Prop) `{forall x, Decision (P x)} (l : list A) :
  Forall P l -> filter P l = l.
Proof.
  induction 1 as [|x l Hx _ IH]; [done|].
  by rewrite filter_cons_True, IH.
Qed.

Lemma dict_delete_keys o k :
  NoDup o.*1 -> (Dict.delete k o).*1 = filter (fun k' => k' <> k) o.*1.
Proof.
  induction o as [|[k0 v0] o IH]; csimpl; [done|].
  intros [Hnotin Hnodup]%NoDup_cons. case_bool_decide as Hk; csimpl.
  - subst. rewrite filter_cons_False by (by intros ?).
    symmetry. apply filter_all. apply Forall_forall.
    intros k' Hin ->. done.
  - rewrite filter_cons_True by done. f_equal. auto.
Qed.

Lemma nodup_set o k v : NoDup o.*1 -> NoDup (Dict.set k v o).*1.
Proof.
  intros Hnodup. rewrite dict_set_keys. case_bool_decide as Hin; [done|].
  apply NoDup_app. split; [done|]. split; [|apply NoDup_singleton].
  intros k' Hk' ->%list_elem_of_singleton. done.
Qed.

Lemma nodup_delete o k : NoDup o.*1 -> NoDup (Dict.delete k o).*1.
Proof.
  intros Hnodup. rewrite dict_delete_keys by done. by apply NoDup_filter.
Qed.

Lemma dict_get_delete o k k' :
  NoDup o.*1 ->
  Dict.get k' (Dict.delete k o) =
    if bool_decide (k = k') then None else Dict.get k' o.
Proof.
  induction o as [|[k0 v0] o IH]; csimpl.
  - by case_bool_decide.
  - intros [Hnotin Hnodup]%NoDup_cons.
    destruct (bool_decide_reflect (k0 = k)) as [->|Hne]; csimpl.
    + destruct (bool_decide_reflect (k = k')) as [->|?]; [|done].
      by apply dict_get_None.
    + rewrite IH by done.
      destruct (bool_decide_reflect (k0 = k')) as [->|?]; [|done].
      by rewrite bool_decide_eq_false_2 by congruence.
Qed.

Lemma dict_get_key o k : is_Some (Dict.get k o) <-> k ∈ Dict.keys o.
Proof.
  rewrite dict_elem_of_keys. split; [|apply dict_get_is_Some].
  intros [v Hv]. destruct (decide (k ∈ o.*1)) as [|Hn]; [done|].
  apply dict_get_None in Hn. congruence.
Qed.

Lemma index_keys_split (ks : list string) :
  (Dict.index_keys ks).*2
    ++ filter (fun k => Dict.array_index k = None) ks ≡ₚ ks.
Proof.
  induction ks as [|k ks IH]; [done|].
  unfold Dict.index_keys in *. csimpl.
  destruct (Dict.array_index k) as [n|] eqn:E; csimpl.
  - rewrite filter_cons_False by (by rewrite E). by rewrite IH.
  - rewrite filter_cons_True by done.
    by rewrite <- Permutation_middle, IH.
Qed.

Lemma dict_keys_perm o : Dict.keys o ≡ₚ o.*1.
Proof.
  unfold Dict.keys. rewrite sort_perm. apply index_keys_split.
Qed.
End dict_keys.

(** ** The total value and the weights are kept up to date *)

Lemma member_values_ext h h' p p' :
  stocks p' = stocks p ->
  (forall k, k ∈ Dict.keys (stocks p) ->
     member_object h' p k ≫= Stock.value = member_object h p k ≫= Stock.value) ->
  member_values h' p' = member_values h p.
Proof.
  intros Hst Hext. unfold member_values. rewrite Hst.
  apply list_fmap_ext. intros i k Hk%list_elem_of_lookup_2.
  f_equal. rewrite <- (Hext k Hk). unfold member_object. by rewrite Hst.
Qed.

Lemma same_holdings_refl h : same_holdings h h.
Proof. intros r s Hs. eauto. Qed.

Lemma same_holdings_arrays h arrs : same_holdings h (Heap (objects h) arrs).
Proof. intros r s Hs. eauto. Qed.

Lemma same_holdings_average h r s x arrs :
  objects h !! r = Some s ->
  same_holdings h (Heap (<[r := with_average x s]> (objects h)) arrs).
Proof.
  intros Hs r' s' Hs'. simpl. destruct (decide (r = r')) as [<-|Hne].
  - rewrite list_lookup_insert_eq by by eapply lookup_lt_Some.
    simplify_eq. eauto.
  - rewrite list_lookup_insert_ne by done. eauto.
Qed.

Lemma same_holdings_alloc h s arrs :
  same_holdings h (Heap (objects h ++ [s]) arrs).
Proof. intros r s' Hs'. simpl. rewrite (lookup_app_l_Some _ _ _ _ Hs'). eauto. Qed.

Lemma up_to_date_same_holdings h h' p p' :
  live h p -> same_holdings h h' ->
  stocks p' = stocks p -> value p' = value p ->
  up_to_date h p -> up_to_date h' p'.
Proof.
  intros Hlive Hsame Hst Hv [Hval Hw]. split.
  - rewrite Hv, Hval. f_equal. symmetry. apply member_values_ext; [done|].
    intros k Hk. unfold member_object.
    destruct (Dict.get k (stocks p)) as [r|] eqn:Hr; [|done].
    destruct (Hlive k r (dict_get_Some _ _ _ Hr)) as [s Hs].
    destruct (Hsame r s Hs) as (s' & Hs' & Hvs & _).
    rewrite Hs, Hs'. simpl. done.
  - intros k r s' Hr Hs'. rewrite Hst in Hr.
    destruct (Hlive k r (dict_get_Some _ _ _ Hr)) as [s Hs].
    destruct (Hsame r s Hs) as (s'' & Hs'' & Hvs & Hws).
    simplify_eq. rewrite Hws, Hvs, Hv. eauto.
Qed.

Lemma up_to_date_weights h p p' h' :
  calculateWeights p h = (Ok p', h') -> up_to_date h' p'.
Proof.
  intros (Hlive & -> & ->)%calculateWeights_inv. split.
  - simpl. f_equal. symmetry. apply member_values_ext; [done|].
    intros k Hk. rewrite member_object_reweighed by done.
    by destruct (member_object h p k).
  - intros k r s' Hr Hs'. simpl in Hr.
    destruct (Hlive k (dict_get_elem_of_keys _ _ _ Hr))
      as (r0 & s & Hr0 & Hs).
    simplify_eq. rewrite (reweighed_member h p k r s Hr Hs) in Hs'.
    by simplify_eq.
Qed.

Lemma assign_weight_fixed T (s : Stock.t) :
  Stock.weight s = Some (to_number (Stock.value s) / T) ->
  assign_weight T s = s.
Proof. destruct s. simpl. unfold assign_weight, with_weight. simpl. by intros ->. Qed.

Lemma reweighed_fixed h p : up_to_date h p -> reweighed h p = h.
Proof.
  intros [Hval Hw]. unfold reweighed. destruct h as [objs arrs].
  simpl in *. f_equal. apply list_eq. intros r. rewrite assign_all_lookup.
  case_bool_decide as Hin; [|done].
  apply list_elem_of_omap in Hin as (k & _ & Hr).
  destruct (objs !! r) as [s|] eqn:Hs; [|done]. simpl. f_equal.
  apply assign_weight_fixed. rewrite <- Hval. eauto.
Qed.

Lemma addStock_inv h p stock v clone p' h' :
  addStock p stock v clone h = (Ok p', h') ->
  exists s, objects h !! stock = Some s.
Proof.
  unfold addStock. intros (s & h1 & [Hs _]%get_object_inv & _)%bind_inv_ok.
  eauto.
Qed.

Lemma removeStock_inv h p arg p' h' :
  removeStock p arg h = (Ok p', h') ->
  exists k,
    ticker_of arg h = (Ok k, h) /\
    calculateWeights (with_stocks (Dict.delete k (stocks p)) p) h
      = (Ok p', h').
Proof.
  unfold removeStock. intros (k & h1 & Hk & Hrun)%bind_inv_ok.
  pose proof (ticker_of_inv _ _ _ _ Hk) as [-> _]. eauto.
Qed.

Lemma trigger_stocks op p h p' h' :
  run_trigger op p h = (Ok p', h') ->
  match op with
  | AddStock stock v clone =>
      exists s r, objects h !! stock = Some s /\
                  stocks p' = Dict.set (ticker s) r (stocks p)
  | RemoveStock arg =>
      exists k, ticker_of arg h = (Ok k, h) /\
                stocks p' = Dict.delete k (stocks p)
  | UpdateStock arg v => stocks p' = stocks p
  end.
Proof.
  intros Hrun. destruct op as [stock v clone|arg|arg v]; simpl in Hrun.
  - destruct (addStock_inv _ _ _ _ _ _ _ Hrun) as [s Hs]. exists s.
    destruct (decide (clone = Some true)) as [->|Hclone].
    + rewrite (addStock_clone _ _ _ _ _ Hs) in Hrun.
      apply weights_result in Hrun as (_ & Hst & _). simpl in Hst. eauto.
    + rewrite (addStock_reference _ _ _ _ _ _ Hclone Hs) in Hrun.
      apply weights_result in Hrun as (_ & Hst & _). simpl in Hst. eauto.
  - apply removeStock_inv in Hrun as (k & Hk & Hrun).
    apply weights_result in Hrun as (_ & Hst & _). simpl in Hst. eauto.
  - apply updateStock_inv in Hrun as (k & h1 & _ & Hrun & _).
    by apply weights_result in Hrun as (_ & Hst & _).
Qed.

Lemma step_stocks op p h p' h' :
  step op p h = (Ok p', h') ->
  stocks p' = stocks p \/
  (exists k r, stocks p' = Dict.set k r (stocks p)) \/
  (exists k, stocks p' = Dict.delete k (stocks p)).
Proof.
  intros Hrun.
  destruct op as [k|r open close wait|r|op| | |]; simpl in Hrun.
  - apply bind_inv_ok in Hrun as (? & ? & _ & Hret).
    unfold ret in Hret. simplify_eq. by left.
  - apply bind_inv_ok in Hrun as (? & ? & _ & Hret).
    unfold ret in Hret. simplify_eq. by left.
  - apply bind_inv_ok in Hrun as (? & ? & _ & Hret).
    unfold ret in Hret. simplify_eq. by left.
  - apply trigger_stocks in Hrun.
    destruct op as [stock v clone|arg|arg v].
    + destruct Hrun as (s & r & _ & ->). right. left. eauto.
    + destruct Hrun as (k & _ & ->). right. right. eauto.
    + by left.
  - apply bind_inv_ok in Hrun as ([v p1] & h1 & Htotal & Hret).
    unfold ret in Hret. simplify_eq/=.
    pose proof (calculateTotalValue_inv _ _ _ _ Htotal) as Hlive.
    rewrite (calculateTotalValue_ok _ _ Hlive) in Htotal. simplify_eq.
    by left.
  - apply weights_result in Hrun as (_ & Hst & _). by left.
  - apply bind_inv_ok in Hrun as ([x p1] & h1 & Hrisk & Hret).
    unfold ret in Hret. simplify_eq/=.
    apply calculateRisk_frame in Hrisk as (_ & Hst & _). by left.
Qed.

Lemma reachable_nodup p h : reachable p h -> NoDup (stocks p).*1.
Proof.
  induction 1 as [|p h op p' h' _ IH Hstep].
  - apply NoDup_nil_2.
  - apply step_stocks in Hstep as [->|[(k & r & ->)|(k & ->)]];
      [done | by apply nodup_set | by apply nodup_delete].
Qed.

Lemma up_to_date_step op p h p' h' :
  live h p -> up_to_date h p -> step op p h = (Ok p', h') ->
  up_to_date h' p'.
Proof.
  intros Hlive Hup Hrun.
  destruct op as [k|r open close wait|r|op| | |]; simpl in Hrun.
  - unfold bind in Hrun. rewrite new_ok in Hrun. unfold ret in Hrun.
    simplify_eq.
    eapply up_to_date_same_holdings; [done|apply same_holdings_alloc|done..].
  - apply bind_inv_ok in Hrun as ([] & h1 & Hpush & Hret).
    unfold ret in Hret. simplify_eq.
    apply push_inv in Hpush as (s & l & Hs & Hl & ->).
    eapply up_to_date_same_holdings; [done| |done..].
    destruct wait as [[]|];
      [apply same_holdings_arrays | by apply same_holdings_average..].
  - apply bind_inv_ok in Hrun as (x & h1 & Havg & Hret).
    unfold ret in Hret. simplify_eq.
    apply calculateAverage_inv in Havg as (s & l & Hs & Hl & ->).
    eapply up_to_date_same_holdings; [done| |done..].
    by apply same_holdings_average.
  - apply trigger_ends_with_weights in Hrun as (p1 & h1 & Hw & _).
    by eapply up_to_date_weights.
  - apply bind_inv_ok in Hrun as ([v p1] & h1 & Htotal & Hret).
    unfold ret in Hret. simplify_eq/=.
    pose proof (calculateTotalValue_inv _ _ _ _ Htotal) as Hlive'.
    rewrite (calculateTotalValue_ok _ _ Hlive') in Htotal. simplify_eq.
    destruct Hup as [Hval Hw]. rewrite <- Hval. by destruct p.
  - by eapply up_to_date_weights.
  - apply bind_inv_ok in Hrun as ([x p1] & h1 & Hrisk & Hret).
    unfold ret in Hret. simplify_eq/=.
    apply calculateRisk_frame in Hrisk as (-> & Hst & Hv).
    eapply up_to_date_same_holdings; [done|apply same_holdings_refl|done..].
Qed.

Lemma up_to_date_new : up_to_date Stock.empty Portfolio.new.
Proof. split; [done|]. intros k r s Hr. done. Qed.

Lemma reachable_up_to_date p h : reachable p h -> up_to_date h p.
Proof.
  induction 1 as [|p h op p' h' Hreach IH Hstep].
  - apply up_to_date_new.
  - eapply up_to_date_step; [|done..]. by apply reachable_live.
Qed.

(** ** Membership *)

Lemma reweighed_unlisted h p r :
  r ∉ member_refs p -> objects (reweighed h p) !! r = objects h !! r.
Proof.
  intros Hr. unfold reweighed. simpl. rewrite assign_all_lookup.
  by rewrite bool_decide_eq_false_2.
Qed.

Lemma member_refs_get p r :
  r ∈ member_refs p <-> exists k, Dict.get k (stocks p) = Some r.
Proof.
  unfold member_refs. rewrite list_elem_of_omap. split.
  - intros (k & _ & Hr). eauto.
  - intros [k Hr]. exists k. split; [|done].
    by eapply dict_get_elem_of_keys.
Qed.

Lemma ticker_of_reweighed h p arg k :
  ticker_of arg h = (Ok k, h) ->
  ticker_of arg (reweighed h p) = (Ok k, reweighed h p).
Proof.
  intros [_ Harg]%ticker_of_inv. destruct arg as [k0|r]; simpl.
  - by subst.
  - destruct Harg as (s & Hs & ->).
    destruct (reweighed_lookup h p r) as (f & Hf & Hkeep).
    rewrite Hs in Hf. change (f <$> Some s) with (Some (f s)) in Hf.
    rewrite (bind_ok _ _ _ _ _ (get_object_ok _ _ _ Hf)).
    by destruct (Hkeep s) as (-> & _).
Qed.

Lemma live_delete h p k :
  live h p -> live h (with_stocks (Dict.delete k (stocks p)) p).
Proof. intros Hlive k' r Hin. eapply Hlive, dict_delete_entries, Hin. Qed.

Lemma keys_length {V} (o : Dict.t V) : length (Dict.keys o) = length o.
Proof. by rewrite dict_keys_perm, length_fmap. Qed.

(** The state in which [addStock] calls [calculateWeights]. *)
Lemma addStock_stored h p stock s v clone :
  objects h !! stock = Some s -> live h p ->
  exists r h1 m,
    addStock p stock v clone h =
      calculateWeights
        (with_stocks (Dict.set (ticker s) r (stocks p)) p) h1 /\
    live h1 (with_stocks (Dict.set (ticker s) r (stocks p)) p) /\
    objects h1 !! r = Some m /\
    m = Stock.with_value v (if bool_decide (clone = Some true)
                            then clone_of s else s) /\
    (if bool_decide (clone = Some true)
     then r = length (objects h) else r = stock) /\
    (forall r', r' <> r -> r' < length (objects h) ->
       objects h1 !! r' = objects h !! r') /\
    ticker_of (Object stock) h1 = (Ok (ticker s), h1).
Proof.
  intros Hs Hlive. destruct (decide (clone = Some true)) as [->|Hclone].
  - rewrite (addStock_clone _ _ _ _ _ Hs).
    rewrite bool_decide_eq_true_2 by done.
    eexists _, _, _. split; [done|]. split; [|split; [|split; [done|]]].
    + apply live_set; [by apply live_alloc|]. simpl.
      rewrite list_lookup_middle by done. eauto.
    + simpl. by apply list_lookup_middle.
    + split; [done|]. split.
      * intros r' _ Hlt. simpl. by apply lookup_app_l.
      * simpl. set (h1 := Heap _ _).
        assert (objects h1 !! stock = Some s) as Hs1
          by by apply lookup_app_l_Some.
        by rewrite (bind_ok _ _ _ _ _ (get_object_ok _ _ _ Hs1)).
  - rewrite (addStock_reference _ _ _ _ _ _ Hclone Hs).
    rewrite bool_decide_eq_false_2 by done.
    assert (stock < length (objects h)) as Hlt by by eapply lookup_lt_Some.
    eexists _, _, _. split; [done|]. split; [|split; [|split; [done|]]].
    + apply live_set; [by apply live_insert|]. simpl.
      rewrite list_lookup_insert_eq by done. eauto.
    + simpl. by apply list_lookup_insert_eq.
    + split; [done|]. split.
      * intros r' Hne _. simpl. by apply list_lookup_insert_ne.
      * simpl. set (h1 := Heap _ _).
        assert (objects h1 !! stock = Some (Stock.with_value v s)) as Hs1
          by by apply list_lookup_insert_eq.
        by rewrite (bind_ok _ _ _ _ _ (get_object_ok _ _ _ Hs1)).
Qed.

Lemma live_reweighed h p q : live h q -> live (reweighed h p) q.
Proof.
  intros Hlive k r Hin. destruct (Hlive k r Hin) as [s Hs].
  destruct (reweighed_lookup h p r) as (f & -> & _). rewrite Hs. by eexists.
Qed.

Lemma assign_weight_twice T1 T2 (s : Stock.t) :
  assign_weight T2 (assign_weight T1 s) = assign_weight T2 s.
Proof. by destruct s. Qed.

Lemma spare_state_reachable :
  reachable Scenario.tested_portfolio Cases.spare_heap.
Proof.
  apply (reachable_run Cases.spare_operations Portfolio.new Stock.empty);
    [constructor | compute_done].
Qed.

Lemma cloned_state_reachable :
  reachable Cases.cloned_portfolio Cases.cloned_heap.
Proof.
  apply (reachable_run Cases.cloned_operations Portfolio.new Stock.empty);
    [constructor | compute_done].
Qed.

(** ** Covariance as a sum of products *)

Lemma fold_seq_zip (f : num -> num -> num) (la : list num) :
  forall (lb pa pb : list num) (acc : num),
    length pa = length pb ->
    fold_left (fun acc i =>
        acc + f (to_number ((pa ++ la) !! i)) (to_number ((pb ++ lb) !! i)))
      (seq (length pa) (Nat.min (length la) (length lb))) acc
    = fold_left js_add (zip_with f la lb) acc.
Proof.
  induction la as [|x la IH]; intros lb pa pb acc Hlen; [done|].
  destruct lb as [|y lb]; [done|].
  cbn [length Nat.min seq fold_left zip_with].
  rewrite list_lookup_middle by done.
  rewrite list_lookup_middle by done.
  specialize (IH lb (pa ++ [x]) (pb ++ [y]) (acc + f x y)).
  rewrite <- !app_assoc, !length_app in IH. cbn [length app] in IH.
  rewrite Nat.add_1_r in IH. apply IH. lia.
Qed.

Lemma covariance_zip a b ra rb :
  covariance a b ra rb =
    total (co_deviations a b ra rb)
      / of_Z (Z.of_nat (Nat.min (length ra) (length rb)) - 1).
Proof.
  unfold covariance, co_deviations. f_equal.
  rewrite <- (js_add_0_l (total _)), <- fold_left_js_add.
  apply (fold_seq_zip
           (fun x y => (x - average a) * (y - average b)) ra rb [] []).
  done.
Qed.

Lemma zip_with_longer {A B C} (f : A -> B -> C) (la extra : list A) :
  forall lb, length lb <= length la ->
    zip_with f (la ++ extra) lb = zip_with f la lb.
Proof.
  induction la as [|x la IH]; intros [|y lb] Hlen; simpl in *;
    [by destruct extra | lia | done |].
  f_equal. apply IH. lia.
Qed.

Lemma Qc_square_nonneg (x : Qc) : (0 <= x * x)%Qc.
Proof.
  destruct (Qclt_le_dec x 0) as [Hneg|Hpos].
  - assert (0 <= - x)%Qc as Hopp.
    { apply Qclt_le_weak in Hneg. apply Qcopp_le_compat in Hneg.
      by replace (- 0)%Qc with 0%Qc in Hneg by ring. }
    replace (x * x)%Qc with (- x * - x)%Qc by ring.
    rewrite <- (Qcmult_0_l (- x)) at 1. by apply Qcmult_le_compat_r.
  - rewrite <- (Qcmult_0_l x) at 1. by apply Qcmult_le_compat_r.
Qed.

Lemma squares_total (m : Qc) (l : list num) :
  Forall (fun x => is_finite x = true) l ->
  exists t,
    total (zip_with (fun x y => (x - Fin m) * (y - Fin m)) l l) = Fin t /\
    (0 <= t)%Qc.
Proof.
  induction 1 as [|x l Hx _ (t & Ht & Hpos)].
  - exists 0%Qc. split; [done | apply Qcle_refl].
  - destruct x as [q| |]; [|done..].
    exists ((q + - m) * (q + - m) + t)%Qc. split.
    + cbn [zip_with total]. by rewrite Ht.
    + rewrite <- (Qcplus_0_l 0). apply Qcplus_le_compat; [|done].
      apply Qc_square_nonneg.
Qed.

Lemma Qc_div_nonneg (t d : Qc) : (0 <= t)%Qc -> (0 < d)%Qc -> (0 <= t / d)%Qc.
Proof.
  intros Ht Hd. unfold Qcdiv. rewrite <- (Qcmult_0_l (/ d)).
  apply Qcmult_le_compat_r; [done|].
  change (0 <= Qred (/ d))%Q. rewrite Qred_correct.
  apply Qinv_le_0_compat. by apply Qlt_le_weak.
Qed.

Lemma pred_of_nat_pos n : 2 <= n -> (0 < Q2Qc (inject_Z (Z.of_nat n - 1)))%Qc.
Proof.
  intros Hn. change (0 < Qred (inject_Z (Z.of_nat n - 1)))%Q.
  rewrite Qred_correct. unfold Qlt. simpl. lia.
Qed.

Lemma worthless_state_reachable :
  reachable Cases.worthless_portfolio Cases.worthless_heap.
Proof.
  apply (reachable_run Cases.worthless_operations Portfolio.new
           Stock.empty);
    [constructor | compute_done].
Qed.

(** ** The covariance matrix *)

Lemma covariance_between_comm (a b : view) :
  covariance_between a b = covariance_between b a.
Proof.
  unfold covariance_between.
  destruct (bool_decide_reflect (address a = address b)) as [Heq|Hne].
  - by rewrite bool_decide_eq_true_2.
  - rewrite bool_decide_eq_false_2 by congruence. apply covariance_comm.
Qed.

Lemma covariances_cols (snap : list view) :
  Matrix.cols (covariances_of snap) = length snap.
Proof. destruct snap; [done|]. simpl. by rewrite length_fmap. Qed.

Lemma covariances_lookup (snap : list view) i :
  covariances_of snap !! i =
    (fun a => covariance_between a <$> snap) <$> snap !! i.
Proof. unfold covariances_of, Matrix.t. by rewrite list_lookup_fmap. Qed.

Lemma covariances_transpose (snap : list view) :
  Matrix.transpose (covariances_of snap) = covariances_of snap.
Proof.
  unfold Matrix.transpose. rewrite covariances_cols.
  apply list_eq. intros j. rewrite covariances_lookup.
  unfold Matrix.t. rewrite list_lookup_fmap.
  destruct (snap !! j) as [b|] eqn:Hb.
  - rewrite lookup_seq_lt by by eapply lookup_lt_Some. simpl. f_equal.
    unfold Matrix.column, covariances_of. rewrite <- list_fmap_compose.
    apply list_fmap_ext. intros i a _. simpl.
    rewrite list_lookup_fmap, Hb. simpl. apply covariance_between_comm.
  - rewrite lookup_seq_ge; [done|]. by apply lookup_ge_None.
Qed.

(** ** Risk *)

Lemma emptied_state_reachable :
  reachable Cases.emptied_portfolio Cases.emptied.2.
Proof.
  apply (reachable_run Cases.emptied_operations Portfolio.new Stock.empty);
    [constructor | vm_compute; reflexivity].
Qed.

Lemma lone_state_reachable :
  reachable Cases.lone_portfolio Cases.lone_heap.
Proof.
  apply (reachable_run Cases.lone_operations Portfolio.new Stock.empty);
    [constructor | compute_done].
Qed.

Lemma finite_members_printable h p snap :
  snapshot h p = Some snap -> finite_members h p -> Forall printable snap.
Proof.
  intros Hsnap Hfin. apply Forall_forall. intros e He.
  destruct (snapshot_elem _ _ _ _ Hsnap He) as [_ Hentry].
  apply entry_Some in Hentry as (_ & Hr & Hs & Hl).
  exact (Hfin _ _ _ _ Hr Hs Hl).
Qed.

Lemma calculateRisk_of_finite_members p h :
  reachable p h -> finite_members h p ->
  exists x p',
    calculateRisk p h = (Ok (x, p'), h) /\
    risk_from_scratch p h = (Ok x, h).
Proof.
  intros Hreach Hfin.
  destruct (calculateRisk_fresh_on_printable_members _ _ Hreach)
    as (snap & x & p' & Hsnap & Hrun & Hfresh).
  exists x, p'. split; [done|].
  by eapply Hfresh, finite_members_printable.
Qed.

Lemma keys_singleton {V} k (v : V) : Dict.keys [(k, v)] = [k].
Proof.
  unfold Dict.keys, Dict.index_keys. simpl.
  destruct (Dict.array_index k) eqn:E; simpl.
  - rewrite filter_cons_False by (by rewrite E). done.
  - rewrite filter_cons_True by done. done.
Qed.

Lemma unit_risk : quadratic (Matrix.create_column [of_Z 1]) [[of_Z 1]]
                  = Some (of_Z 1).
Proof. compute_done. Qed.

(** ** Histories are shared by clones only *)

Lemma apart_kept h h' :
  histories_apart h -> shape_kept h h' -> histories_apart h'.
Proof.
  intros Hapart Hkept r1 r2 s1' s2' Hs1' Hs2' Hshared.
  destruct (Hkept r1 s1' Hs1') as (s1 & Hs1 & -> & Hr1).
  destruct (Hkept r2 s2' Hs2') as (s2 & Hs2 & -> & Hr2).
  apply (Hapart r1 r2 s1 s2 Hs1 Hs2). congruence.
Qed.

Lemma shape_kept_arrays h arrs : shape_kept h (Heap (objects h) arrs).
Proof. intros r s Hs. eauto. Qed.

Lemma shape_kept_insert h r s s' arrs :
  objects h !! r = Some s -> ticker s' = ticker s -> returns s' = returns s ->
  shape_kept h (Heap (<[r := s']> (objects h)) arrs).
Proof.
  intros Hs Ht Hr r0 s0 Hs0. simpl in Hs0.
  destruct (decide (r = r0)) as [<-|Hne].
  - rewrite list_lookup_insert_eq in Hs0 by by eapply lookup_lt_Some.
    simplify_eq. eauto.
  - rewrite list_lookup_insert_ne in Hs0 by done. eauto.
Qed.

Lemma shape_kept_reweighed h p : shape_kept h (reweighed h p).
Proof.
  intros r s' Hs'. destruct (reweighed_lookup h p r) as (f & Hf & Hkeep).
  rewrite Hs' in Hf. destruct (objects h !! r) as [s|]; [|done].
  simpl in Hf. simplify_eq. exists s. split; [done|].
  by destruct (Hkeep s) as (-> & -> & _).
Qed.

Lemma apart_alloc h s arrs :
  histories_apart h ->
  (forall r s0, objects h !! r = Some s0 -> returns s0 = returns s ->
     ticker s0 = ticker s) ->
  histories_apart (Heap (objects h ++ [s]) arrs).
Proof.
  intros Hapart Hnew r1 r2 s1 s2 Hs1 Hs2 Hshared. simpl in *.
  apply lookup_app_Some in Hs1 as [Hs1|[_ Hs1]];
    apply lookup_app_Some in Hs2 as [Hs2|[_ Hs2]].
  - by eapply Hapart.
  - apply list_lookup_singleton_Some in Hs2 as [_ <-]. by eapply Hnew.
  - apply list_lookup_singleton_Some in Hs1 as [_ <-].
    symmetry. by eapply Hnew.
  - apply list_lookup_singleton_Some in Hs1 as [_ <-].
    by apply list_lookup_singleton_Some in Hs2 as [_ <-].
Qed.

Lemma apart_weights h p p' h' :
  histories_apart h -> calculateWeights p h = (Ok p', h') ->
  histories_apart h'.
Proof.
  intros Hapart (_ & _ & ->)%calculateWeights_inv.
  eapply apart_kept; [done | apply shape_kept_reweighed].
Qed.

Lemma apart_step op p h p' h' :
  arrays_allocated h -> histories_apart h ->
  step op p h = (Ok p', h') -> histories_apart h'.
Proof.
  intros Harrays Hapart Hrun.
  destruct op as [k|r open close wait|r|op| | |]; simpl in Hrun.
  - unfold bind in Hrun. rewrite new_ok in Hrun. unfold ret in Hrun.
    simplify_eq. apply apart_alloc; [done|].
    intros r s0 Hs0 Hshared. simpl in Hshared.
    destruct (Harrays r s0 Hs0) as [l Hl%lookup_lt_Some]. lia.
  - apply bind_inv_ok in Hrun as ([] & h1 & Hpush & Hret).
    unfold ret in Hret. simplify_eq.
    apply push_inv in Hpush as (s & l & Hs & Hl & ->).
    eapply apart_kept; [done|].
    destruct wait as [[]|];
      [apply shape_kept_arrays | by eapply shape_kept_insert..].
  - apply bind_inv_ok in Hrun as (x & h1 & Havg & Hret).
    unfold ret in Hret. simplify_eq.
    apply calculateAverage_inv in Havg as (s & l & Hs & Hl & ->).
    eapply apart_kept; [done|]. by eapply shape_kept_insert.
  - destruct op as [stock v clone|arg|arg v]; simpl in Hrun.
    + destruct (addStock_inv _ _ _ _ _ _ _ Hrun) as [s Hs].
      destruct (decide (clone = Some true)) as [->|Hclone].
      * rewrite (addStock_clone _ _ _ _ _ Hs) in Hrun.
        eapply apart_weights; [|exact Hrun].
        apply apart_alloc; [done|]. intros r s0 Hs0 Hshared.
        by apply (Hapart r stock s0 s).
      * rewrite (addStock_reference _ _ _ _ _ _ Hclone Hs) in Hrun.
        eapply apart_weights; [|exact Hrun].
        eapply apart_kept; [done|]. by eapply shape_kept_insert.
    + apply removeStock_inv in Hrun as (k & _ & Hrun).
      by eapply apart_weights.
    + apply updateStock_inv in Hrun
        as (k & h1 & _ & Hrun & [(r & s & _ & Hs & ->)|(_ & _ & ->)]).
      * eapply apart_weights; [|exact Hrun].
        eapply apart_kept; [done|]. by eapply shape_kept_insert.
      * by eapply apart_weights.
  - apply bind_inv_ok in Hrun as ([v p1] & h1 & Htotal & Hret).
    unfold ret in Hret. simplify_eq/=.
    pose proof (calculateTotalValue_inv _ _ _ _ Htotal) as Hlive.
    rewrite (calculateTotalValue_ok _ _ Hlive) in Htotal. by simplify_eq.
  - by eapply apart_weights.
  - apply bind_inv_ok in Hrun as ([x p1] & h1 & Hrisk & Hret).
    unfold ret in Hret. simplify_eq/=.
    by apply calculateRisk_frame in Hrisk as (-> & _).
Qed.

Lemma reachable_apart p h : reachable p h -> histories_apart h.
Proof.
  induction 1 as [|p h op p' h' Hreach IH Hstep].
  - intros r1 r2 s1 s2 Hs1. done.
  - destruct (reachable_invariant _ _ Hreach) as (_ & Harrays & _).
    by eapply apart_step.
Qed.

(** ** Weights of positive values *)

Lemma total_bounds (l : list num) :
  Forall (fun x => exists v, x = Fin v /\ (0 < v)%Qc) l ->
  exists t, total l = Fin t /\ (0 <= t)%Qc /\
    forall v, Fin v ∈ l -> (v <= t)%Qc.
Proof.
  induction 1 as [|x l (v & -> & Hv) _ (t & Ht & Hpos & Hle)].
  - exists 0%Qc. split; [done|]. split; [apply Qcle_refl|].
    by intros v ?%elem_of_nil.
  - exists (v + t)%Qc. split; [simpl; by rewrite Ht|]. split.
    + rewrite <- (Qcplus_0_l 0). apply Qcplus_le_compat; [|done].
      by apply Qclt_le_weak.
    + intros v' [[= ->]|Hin]%elem_of_cons.
      * rewrite <- (Qcplus_0_r v) at 1.
        apply Qcplus_le_compat; [apply Qcle_refl | done].
      * rewrite <- (Qcplus_0_l v').
        apply Qcplus_le_compat; [by apply Qclt_le_weak | by apply Hle].
Qed.

Lemma Qc_inv_pos (d : Qc) : (0 < d)%Qc -> (0 < / d)%Qc.
Proof.
  intros Hd. change (0 < Qred (/ d))%Q. rewrite Qred_correct.
  by apply Qinv_lt_0_compat.
Qed.

Lemma Qc_fraction (v t : Qc) :
  (0 < v)%Qc -> (v <= t)%Qc -> (0 < v / t)%Qc /\ (v / t <= 1)%Qc.
Proof.
  intros Hv Hle.
  assert (0 < t)%Qc as Ht by by eapply Qclt_le_trans.
  assert (t <> 0%Qc) as Hne.
  { intros ->. by apply (Qclt_not_eq 0 0). }
  split.
  - unfold Qcdiv. rewrite <- (Qcmult_0_l (/ t)).
    apply Qcmult_lt_compat_r; [by apply Qc_inv_pos | done].
  - apply (Qcmult_lt_0_le_reg_r _ _ t Ht).
    replace (v / t * t)%Qc with v by (by field).
    by rewrite Qcmult_1_l.
Qed.
(** * Further properties of the methods *)

(** ** Stock *)

(** X1: [new Stock(ticker)] makes an object that did not exist before,
    with the ticker, the average 0, neither value nor weight, and an empty
    array of its own: no object of the heap holds this array, and no
    object of the heap is changed. *)
Theorem X1_a_new_stock_shares_nothing p h k :
  reachable p h ->
  exists r a h',
    Stock.new k h = (Ok r, h') /\
    objects h !! r = None /\
    objects h' !! r = Some (Stock.mk k a (of_Z 0) None None) /\
    arrays h' !! a = Some [] /\
    forall r0 s0, objects h !! r0 = Some s0 ->
      objects h' !! r0 = Some s0 /\ returns s0 <> a.
Proof.
  intros Hreach.
  destruct (reachable_invariant _ _ Hreach) as (_ & Harrays & _).
  rewrite new_ok. eexists _, _, _. split; [done|]. simpl.
  split; [by apply lookup_ge_None|].
  split; [by apply list_lookup_middle|].
  split; [by apply list_lookup_middle|].
  intros r0 s0 Hs0. split; [by apply lookup_app_l_Some|].
  destruct (Harrays r0 s0 Hs0) as [l Hl%lookup_lt_Some]. lia.
Qed.

Lemma X1_witness :
  exists r a h',
    Stock.new "msft" Scenario.tested_heap = (Ok r, h') /\
    objects Scenario.tested_heap !! r = None /\
    objects h' !! r = Some (Stock.mk "msft" a (of_Z 0) None None) /\
    arrays h' !! a = Some [] /\
    forall r0 s0, objects Scenario.tested_heap !! r0 = Some s0 ->
      objects h' !! r0 = Some s0 /\ returns s0 <> a.
Proof.
  apply (X1_a_new_stock_shares_nothing Scenario.tested_portfolio
           Scenario.tested_heap "msft").
  exact tested_state_reachable.
Defined.

(** X2: [calculateAverage] on a stock without returns divides 0 by 0: it
    stores and returns [NaN], and does not throw. *)
Theorem X2_average_of_no_returns h this s :
  objects h !! this = Some s ->
  arrays h !! returns s = Some [] ->
  calculateAverage this h =
    (Ok NaN, Heap (<[this := with_average NaN s]> (objects h)) (arrays h)).
Proof.
  intros Hs Hl. by rewrite (calculateAverage_mean h this s []).
Qed.

Lemma X2_witness :
  calculateAverage 0 Cases.fresh_heap =
    (Ok NaN,
     Heap (<[0 := with_average NaN (Stock.mk "A" 0 (of_Z 0) None None)]>
             (objects Cases.fresh_heap))
          (arrays Cases.fresh_heap)).
Proof.
  apply (X2_average_of_no_returns Cases.fresh_heap 0
           (Stock.mk "A" 0 (of_Z 0) None None));
    reflexivity.
Defined.

(** X3: pushing a non-empty list of ticks with [wait = true] and calling
    [calculateAverage] once at the end leaves the same heap as pushing
    them with the average recomputed every time: the returns are extended
    by the returns of the ticks and the average is their mean. *)
Theorem X3_deferred_pushes_then_average h this s l ticks wait :
  objects h !! this = Some s ->
  arrays h !! returns s = Some l ->
  ticks <> [] ->
  wait <> Some true ->
  (push_all this ticks (Some true) ;; calculateAverage this ;; ret tt) h =
    push_all this ticks wait h /\
  exists h',
    push_all this ticks wait h = (Ok tt, h') /\
    returns_of h' this = Some (l ++ tick_returns ticks) /\
    average_of h' this = Some (arithmetic_mean (l ++ tick_returns ticks)).
Proof.
  intros Hs Hl Hne Hw. destruct ticks as [|[o c] ticks]; [done|].
  rewrite (push_all_immediate this wait ticks Hw o c h s l Hs Hl).
  assert (this < length (objects h)) as Hlt by by eapply lookup_lt_Some.
  assert (returns s < length (arrays h)) as Hlt' by by eapply lookup_lt_Some.
  split.
  - rewrite (bind_ok _ _ _ _ _ (push_all_deferred this _ h s l Hs Hl)).
    set (h1 := Heap _ _).
    rewrite (bind_ok _ _ _ _ _
               (calculateAverage_mean h1 this s
                  (l ++ tick_returns ((o, c) :: ticks)) Hs
                  (list_lookup_insert_eq _ _ _ Hlt'))).
    done.
  - eexists. split; [done|]. unfold returns_of, average_of. simpl.
    rewrite list_lookup_insert_eq by done. simpl.
    by rewrite list_lookup_insert_eq.
Qed.

Lemma X3_witness :
  (push_all 1 [(of_Z 30, of_Z 15); (of_Z 15, of_Z 45)] (Some true) ;;
   calculateAverage 1 ;; ret tt) Scenario.tested_heap =
    push_all 1 [(of_Z 30, of_Z 15); (of_Z 15, of_Z 45)] None
      Scenario.tested_heap /\
  exists h',
    push_all 1 [(of_Z 30, of_Z 15); (of_Z 15, of_Z 45)] None
      Scenario.tested_heap = (Ok tt, h') /\
    returns_of h' 1 =
      Some ([of_Z 100; of_Z 50]
              ++ tick_returns [(of_Z 30, of_Z 15); (of_Z 15, of_Z 45)]) /\
    average_of h' 1 =
      Some (arithmetic_mean
              ([of_Z 100; of_Z 50]
                 ++ tick_returns [(of_Z 30, of_Z 15); (of_Z 15, of_Z 45)])).
Proof.
  apply (X3_deferred_pushes_then_average Scenario.tested_heap 1
           Scenario.apple [of_Z 100; of_Z 50]
           [(of_Z 30, of_Z 15); (of_Z 15, of_Z 45)] None);
    [reflexivity | reflexivity | discriminate | discriminate].
Defined.

(** X4: a tick that opens at 0 has no finite return (the division by the
    opening price gives [NaN] or an infinity), and the average recomputed
    by the same [push] is not finite either. *)
Theorem X4_zero_open_spoils_the_average h this s l close wait :
  objects h !! this = Some s ->
  arrays h !! returns s = Some l ->
  wait <> Some true ->
  exists h' x,
    push this (of_Z 0) close wait h = (Ok tt, h') /\
    returns_of h' this = Some (l ++ [tick_return (of_Z 0) close]) /\
    is_finite (tick_return (of_Z 0) close) = false /\
    average_of h' this = Some x /\ is_finite x = false.
Proof.
  intros Hs Hl Hw.
  rewrite (push_appends h this s l (of_Z 0) close wait Hs Hl Hw).
  assert (this < length (objects h)) as Hlt by by eapply lookup_lt_Some.
  assert (returns s < length (arrays h)) as Hlt' by by eapply lookup_lt_Some.
  eexists _, _. split; [done|]. unfold returns_of, average_of. simpl.
  rewrite list_lookup_insert_eq by done. simpl.
  rewrite list_lookup_insert_eq by done.
  split; [done|]. split; [apply tick_return_zero_open|]. split; [done|].
  apply mean_not_finite, Exists_app. right. apply Exists_cons_hd.
  apply tick_return_zero_open.
Qed.

Lemma X4_witness :
  exists h' x,
    push 1 (of_Z 0) (of_Z 5) None Scenario.tested_heap = (Ok tt, h') /\
    returns_of h' 1 =
      Some ([of_Z 100; of_Z 50] ++ [tick_return (of_Z 0) (of_Z 5)]) /\
    is_finite (tick_return (of_Z 0) (of_Z 5)) = false /\
    average_of h' 1 = Some x /\ is_finite x = false.
Proof.
  apply (X4_zero_open_spoils_the_average Scenario.tested_heap 1
           Scenario.apple [of_Z 100; of_Z 50] (of_Z 5) None);
    [reflexivity | reflexivity | discriminate].
Defined.

(** X5: on a stock whose returns are all finite, a tick with finite prices
    and an opening price other than 0 appends the finite return
    [(close - open) / open * 100], and the recomputed average is finite. *)
Theorem X5_finite_ticks_keep_the_average_finite h this s l (o c : Qc) wait :
  objects h !! this = Some s ->
  arrays h !! returns s = Some l ->
  wait <> Some true ->
  Forall (fun x => is_finite x = true) l ->
  o <> 0%Qc ->
  exists h' q,
    push this (Fin o) (Fin c) wait h = (Ok tt, h') /\
    returns_of h' this =
      Some (l ++ [Fin ((c - o) / o * Q2Qc (inject_Z 100))%Qc]) /\
    average_of h' this = Some (Fin q).
Proof.
  intros Hs Hl Hw Hfin Ho.
  rewrite (push_appends h this s l (Fin o) (Fin c) wait Hs Hl Hw).
  assert (this < length (objects h)) as Hlt by by eapply lookup_lt_Some.
  assert (returns s < length (arrays h)) as Hlt' by by eapply lookup_lt_Some.
  rewrite (tick_return_finite o c Ho).
  destruct (mean_finite (l ++ [Fin ((c - o) / o * Q2Qc (inject_Z 100))%Qc]))
    as [q Hq].
  { by destruct l. }
  { apply Forall_app. split; [done|]. by apply Forall_singleton. }
  exists (Heap (<[this := with_average
                  (arithmetic_mean
                     (l ++ [Fin ((c - o) / o * Q2Qc (inject_Z 100))%Qc])) s]>
                 (objects h))
               (<[returns s :=
                    l ++ [Fin ((c - o) / o * Q2Qc (inject_Z 100))%Qc]]>
                  (arrays h))), q.
  split; [done|]. unfold returns_of, average_of. simpl.
  rewrite list_lookup_insert_eq by done. simpl.
  rewrite list_lookup_insert_eq by done. by rewrite Hq.
Qed.

Lemma X5_witness :
  exists h' q,
    push 1 (Fin (Q2Qc 30)) (Fin (Q2Qc 15)) None Scenario.tested_heap
      = (Ok tt, h') /\
    returns_of h' 1 =
      Some ([of_Z 100; of_Z 50]
              ++ [Fin ((Q2Qc 15 - Q2Qc 30) / Q2Qc 30
                       * Q2Qc (inject_Z 100))%Qc]) /\
    average_of h' 1 = Some (Fin q).
Proof.
  apply (X5_finite_ticks_keep_the_average_finite Scenario.tested_heap 1
           Scenario.apple [of_Z 100; of_Z 50] (Q2Qc 30) (Q2Qc 15) None);
    [reflexivity | reflexivity | discriminate | by repeat constructor
    | compute_done].
Defined.

(** X6: in every reached state [push] on one stock leaves every stock
    with another ticker as it is, returns included: only [addStock] with
    [clone = true] makes two objects hold one array, and the clone has the
    ticker of its original. *)
Theorem X6_push_stays_within_the_ticker p h a b sa sb open close wait :
  reachable p h ->
  objects h !! a = Some sa ->
  objects h !! b = Some sb ->
  ticker sa <> ticker sb ->
  exists h',
    push a open close wait h = (Ok tt, h') /\
    objects h' !! b = Some sb /\
    returns_of h' b = returns_of h b.
Proof.
  intros Hreach Ha Hb Hticker.
  destruct (reachable_invariant _ _ Hreach) as (_ & Harrays & _).
  pose proof (reachable_apart _ _ Hreach) as Hapart.
  destruct (Harrays a sa Ha) as [la Hla].
  assert (a <> b) as Hne by congruence.
  assert (returns sa <> returns sb) as Hunshared.
  { intros Hshared. by apply Hticker, (Hapart a b sa sb). }
  destruct (decide (wait = Some true)) as [->|Hwait].
  - rewrite (push_deferred h a sa la open close Ha Hla).
    eexists. split; [done|]. split; [done|].
    unfold returns_of. simpl. rewrite Hb.
    by rewrite list_lookup_insert_ne.
  - rewrite (push_appends h a sa la open close wait Ha Hla Hwait).
    eexists. split; [done|]. unfold returns_of. simpl.
    rewrite list_lookup_insert_ne by done. split; [done|].
    rewrite Hb. by rewrite list_lookup_insert_ne.
Qed.

Lemma X6_witness :
  exists h',
    push 0 (of_Z 15) (of_Z 45) None Scenario.tested_heap = (Ok tt, h') /\
    objects h' !! 1 = Some Scenario.apple /\
    returns_of h' 1 = returns_of Scenario.tested_heap 1.
Proof.
  apply (X6_push_stays_within_the_ticker Scenario.tested_portfolio
           Scenario.tested_heap 0 1 Scenario.intel Scenario.apple
           (of_Z 15) (of_Z 45) None);
    [exact tested_state_reachable | reflexivity | reflexivity
    | discriminate].
Defined.

(** ** Portfolio: the members *)

(** X7: [hasStock] answers [true] exactly for the tickers that
    [getStockTickers] lists; of a stock object only the ticker counts. *)
Theorem X7_hasStock_iff_listed h p arg k :
  ticker_of arg h = (Ok k, h) ->
  exists b,
    hasStock p arg h = (Ok b, h) /\
    (b = true <-> k ∈ getStockTickers p).
Proof.
  intros Hk. unfold hasStock. rewrite (bind_ok _ _ _ _ _ Hk).
  eexists. split; [done|].
  unfold Dict.hasOwnProperty, getStockTickers. rewrite bool_decide_eq_true.
  apply dict_get_key.
Qed.

Lemma X7_witness :
  exists b,
    hasStock Scenario.tested_portfolio (Object 1) Scenario.tested_heap
      = (Ok b, Scenario.tested_heap) /\
    (b = true <-> "apple" ∈ getStockTickers Scenario.tested_portfolio).
Proof.
  apply (X7_hasStock_iff_listed Scenario.tested_heap
           Scenario.tested_portfolio (Object 1) "apple");
    reflexivity.
Defined.

(** X8: in every state reached from a new portfolio by calls of the
    methods, [getStockTickers] lists no ticker twice, and the member stored
    under a ticker is a stock object that carries this ticker. *)
Theorem X8_members_are_filed_under_their_ticker p h :
  reachable p h ->
  NoDup (getStockTickers p) /\
  forall k, k ∈ getStockTickers p ->
    exists r s,
      member p k h = (Ok r, h) /\ objects h !! r = Some s /\ ticker s = k.
Proof.
  intros Hreach. split.
  - unfold getStockTickers. rewrite dict_keys_perm.
    by apply (reachable_nodup p h).
  - intros k [r Hr]%dict_get_key.
    destruct (reachable_invariant _ _ Hreach) as (Hkeyed & _).
    destruct (Hkeyed k r (dict_get_Some _ _ _ Hr)) as (s & l & Hs & Ht & _).
    exists r, s. split; [by apply member_ok | done].
Qed.

Lemma X8_witness :
  NoDup (getStockTickers Scenario.tested_portfolio) /\
  forall k, k ∈ getStockTickers Scenario.tested_portfolio ->
    exists r s,
      member Scenario.tested_portfolio k Scenario.tested_heap
        = (Ok r, Scenario.tested_heap) /\
      objects Scenario.tested_heap !! r = Some s /\ ticker s = k.
Proof.
  apply (X8_members_are_filed_under_their_ticker
           Scenario.tested_portfolio Scenario.tested_heap).
  exact tested_state_reachable.
Defined.

(** X9: [addStock] of an existing stock object does not throw.  Afterwards
    the tickers are the earlier ones and the ticker of the stock,
    [hasStock] of the stock is [true], and the number of tickers has grown
    by one exactly when the ticker was not a member before: a stock with
    the ticker of a member replaces that member. *)
Theorem X9_addStock_registers_the_ticker h p stock s v clone :
  objects h !! stock = Some s ->
  live h p ->
  exists p' h',
    addStock p stock v clone h = (Ok p', h') /\
    (forall k, k ∈ getStockTickers p' <->
               k = ticker s \/ k ∈ getStockTickers p) /\
    hasStock p' (Object stock) h' = (Ok true, h') /\
    length (getStockTickers p') =
      if Dict.hasOwnProperty (ticker s) (stocks p)
      then length (getStockTickers p)
      else S (length (getStockTickers p)).
Proof.
  intros Hs Hlive.
  destruct (addStock_stored h p stock s v clone Hs Hlive)
    as (r & h1 & m & -> & Hlive1 & Hm & Hmeq & Hr & Hkeep & Hk).
  rewrite (calculateWeights_ok _ _ (live_members_live _ _ Hlive1)).
  eexists _, _. split; [done|]. unfold getStockTickers. simpl.
  split; [|split].
  - intros k. rewrite !dict_elem_of_keys, dict_set_keys.
    destruct (bool_decide_reflect (ticker s ∈ (stocks p).*1)) as [Hin|Hin].
    + split; [intros ?; by right | by intros [->|?]].
    + rewrite elem_of_app, list_elem_of_singleton. tauto.
  - unfold hasStock.
    rewrite (bind_ok _ _ _ _ _ (ticker_of_reweighed _ _ _ _ Hk)).
    unfold ret, Dict.hasOwnProperty. simpl. rewrite dict_get_set.
    rewrite (bool_decide_eq_true_2 (ticker s = ticker s)) by done.
    by rewrite bool_decide_eq_true_2 by eauto.
  - rewrite !keys_length. rewrite <- !(length_fmap fst), dict_set_keys.
    unfold Dict.hasOwnProperty.
    destruct (bool_decide_reflect (ticker s ∈ (stocks p).*1)) as [Hin|Hin].
    + by rewrite bool_decide_eq_true_2 by by apply dict_get_is_Some.
    + rewrite bool_decide_eq_false_2.
      * rewrite length_app. simpl. lia.
      * apply dict_get_None in Hin. rewrite Hin. by intros [? ?].
Qed.

Lemma X9_witness :
  exists p' h',
    addStock Scenario.tested_portfolio 1 (of_Z 5) (Some true)
      Scenario.tested_heap = (Ok p', h') /\
    (forall k, k ∈ getStockTickers p' <->
               k = ticker Scenario.apple \/
               k ∈ getStockTickers Scenario.tested_portfolio) /\
    hasStock p' (Object 1) h' = (Ok true, h') /\
    length (getStockTickers p') =
      if Dict.hasOwnProperty (ticker Scenario.apple)
           (stocks Scenario.tested_portfolio)
      then length (getStockTickers Scenario.tested_portfolio)
      else S (length (getStockTickers Scenario.tested_portfolio)).
Proof.
  apply (X9_addStock_registers_the_ticker Scenario.tested_heap
           Scenario.tested_portfolio 1 Scenario.apple (of_Z 5) (Some true));
    [reflexivity|].
  intros k r Hin. vm_compute in Hin.
  apply elem_of_cons in Hin as [[= -> ->]|Hin]; [by eexists|].
  apply elem_of_cons in Hin as [[= -> ->]|Hin]; [by eexists|].
  by apply elem_of_nil in Hin.
Defined.

(** X10: [removeStock] of a member does not throw.  Afterwards its ticker
    is no longer listed and [hasStock] is [false] for it, the other
    tickers are listed as before, and the removed stock object is left as
    it was: it keeps the value and the weight it had as a member. *)
Theorem X10_removeStock_unregisters p h arg k r s :
  reachable p h ->
  ticker_of arg h = (Ok k, h) ->
  Dict.get k (stocks p) = Some r ->
  objects h !! r = Some s ->
  exists p' h',
    removeStock p arg h = (Ok p', h') /\
    (forall k', k' ∈ getStockTickers p' <->
                k' <> k /\ k' ∈ getStockTickers p) /\
    hasStock p' arg h' = (Ok false, h') /\
    objects h' !! r = Some s.
Proof.
  intros Hreach Hk Hr Hs.
  pose proof (reachable_nodup _ _ Hreach) as Hnodup.
  destruct (reachable_invariant _ _ Hreach) as (Hkeyed & _).
  pose proof (keyed_live _ _ Hkeyed) as Hlive.
  unfold removeStock. rewrite (bind_ok _ _ _ _ _ Hk).
  set (p1 := with_stocks (Dict.delete k (stocks p)) p).
  assert (live h p1) as Hlive1 by by apply live_delete.
  rewrite (calculateWeights_ok _ _ (live_members_live _ _ Hlive1)).
  eexists _, _. split; [done|]. unfold getStockTickers.
  split; [|split].
  - intros k'. simpl. rewrite !dict_elem_of_keys, dict_delete_keys by done.
    rewrite list_elem_of_filter. tauto.
  - unfold hasStock. rewrite (bind_ok _ _ _ _ _ (ticker_of_reweighed _ _ _ _ Hk)).
    unfold ret. simpl. unfold Dict.hasOwnProperty.
    rewrite dict_get_delete by done.
    rewrite (bool_decide_eq_true_2 (k = k)) by done.
    rewrite bool_decide_eq_false_2; [done|]. by intros [? ?].
  - rewrite reweighed_unlisted; [done|].
    intros (k' & Hk')%member_refs_get. simpl in Hk'.
    rewrite dict_get_delete in Hk' by done.
    case_bool_decide as Hne; [done|].
    destruct (Hkeyed k' r (dict_get_Some _ _ _ Hk')) as (s' & _ & Hs' & Ht' & _).
    destruct (Hkeyed k r (dict_get_Some _ _ _ Hr)) as (s'' & _ & Hs'' & Ht'' & _).
    congruence.
Qed.

Lemma X10_witness :
  exists p' h',
    removeStock Scenario.tested_portfolio (Object 1) Scenario.tested_heap
      = (Ok p', h') /\
    (forall k', k' ∈ getStockTickers p' <->
                k' <> "apple" /\
                k' ∈ getStockTickers Scenario.tested_portfolio) /\
    hasStock p' (Object 1) h' = (Ok false, h') /\
    objects h' !! 1 = Some Scenario.apple.
Proof.
  apply (X10_removeStock_unregisters Scenario.tested_portfolio
           Scenario.tested_heap (Object 1) "apple" 1 Scenario.apple);
    [exact tested_state_reachable | reflexivity | reflexivity | reflexivity].
Defined.

(** X11: adding a stock whose ticker is not a member and removing it again
    gives back the portfolio as it was (members, total value, risk and
    cache), and leaves every member object as it was. *)
Theorem X11_addStock_then_removeStock p h stock s v clone :
  reachable p h ->
  objects h !! stock = Some s ->
  Dict.get (ticker s) (stocks p) = None ->
  exists p1 h1 h2,
    addStock p stock v clone h = (Ok p1, h1) /\
    removeStock p1 (Object stock) h1 = (Ok p, h2) /\
    forall k r, Dict.get k (stocks p) = Some r ->
      objects h2 !! r = objects h !! r.
Proof.
  intros Hreach Hs Hfresh.
  destruct (reachable_invariant _ _ Hreach) as (Hkeyed & _).
  pose proof (keyed_live _ _ Hkeyed) as Hlive.
  destruct (reachable_up_to_date _ _ Hreach) as [Hval Hw].
  destruct (addStock_stored h p stock s v clone Hs Hlive)
    as (r0 & h0 & m & -> & Hlive0 & Hm & Hmeq & Hr0 & Hkeep & Hk).
  set (p0 := with_stocks (Dict.set (ticker s) r0 (stocks p)) p) in *.
  rewrite (calculateWeights_ok _ _ (live_members_live _ _ Hlive0)).
  set (T1 := sum_loop (member_values h0 p0)).
  (* a member of [p] is not the stored object, and is reweighed *)
  assert (forall k r s0, Dict.get k (stocks p) = Some r ->
            objects h !! r = Some s0 ->
            objects (reweighed h0 p0) !! r = Some (assign_weight T1 s0))
    as Hmember.
  { intros k r s0 Hr Hs0.
    assert (k <> ticker s) as Hne by congruence.
    assert (r <> r0) as Hne0.
    { intros ->. destruct (bool_decide (clone = Some true)).
      - apply lookup_lt_Some in Hs0. lia.
      - subst r0. destruct (Hkeyed k stock (dict_get_Some _ _ _ Hr))
          as (s' & _ & Hs' & Ht & _). congruence. }
    apply (reweighed_member h0 p0 k r s0).
    - unfold p0. simpl. rewrite dict_get_set.
      by rewrite bool_decide_eq_false_2 by congruence.
    - rewrite Hkeep; [done..|]. by eapply lookup_lt_Some. }
  set (p1 := Portfolio.with_value T1 p0).
  set (h1 := reweighed h0 p0).
  assert (removeStock p1 (Object stock) h1 =
            calculateWeights (Portfolio.with_value T1 p) h1) as Hremove.
  { unfold removeStock, h1.
    rewrite (bind_ok _ _ _ _ _ (ticker_of_reweighed _ _ _ _ Hk)).
    unfold p1, p0. simpl. by rewrite dict_delete_set. }
  assert (live h1 (Portfolio.with_value T1 p)) as Hlive1.
  { apply live_reweighed. intros k r Hin.
    destruct (Hlive k r Hin) as [s0 Hs0].
    assert (is_Some (objects h !! r)) as Hsome by eauto.
    destruct (decide (r = r0)) as [->|Hne]; [eauto|].
    rewrite Hkeep; [done..|]. by eapply lookup_lt_Some. }
  assert (member_values h1 (Portfolio.with_value T1 p) = member_values h p)
    as Hvalues.
  { apply member_values_ext; [done|]. intros k Hk'.
    unfold member_object.
    destruct (Dict.get k (stocks p)) as [r|] eqn:Hr; [|done].
    destruct (Hlive k r (dict_get_Some _ _ _ Hr)) as [s0 Hs0].
    unfold h1. by rewrite (Hmember k r s0 Hr Hs0), Hs0. }
  exists p1, h1, (reweighed h1 (Portfolio.with_value T1 p)).
  split; [done|]. split.
  - rewrite Hremove.
    rewrite (calculateWeights_ok _ _ (live_members_live _ _ Hlive1)).
    rewrite Hvalues, <- Hval. f_equal. by destruct p.
  - intros k r Hr. destruct (Hlive k r (dict_get_Some _ _ _ Hr)) as [s0 Hs0].
    rewrite (reweighed_member h1 (Portfolio.with_value T1 p) k r
               (assign_weight T1 s0) Hr (Hmember k r s0 Hr Hs0)).
    rewrite Hvalues, <- Hval, assign_weight_twice, Hs0. f_equal.
    apply assign_weight_fixed. eauto.
Qed.

Lemma X11_witness :
  exists p1 h1 h2,
    addStock Scenario.tested_portfolio 2 (of_Z 50) None Cases.spare_heap
      = (Ok p1, h1) /\
    removeStock p1 (Object 2) h1 = (Ok Scenario.tested_portfolio, h2) /\
    forall k r, Dict.get k (stocks Scenario.tested_portfolio) = Some r ->
      objects h2 !! r = objects Cases.spare_heap !! r.
Proof.
  apply (X11_addStock_then_removeStock Scenario.tested_portfolio
           Cases.spare_heap 2 Cases.msft (of_Z 50) None);
    [exact spare_state_reachable | reflexivity | reflexivity].
Defined.

(** X12: [updateStock] of a member does what [addStock] without [clone]
    does when it is handed the member object again: the value is written
    into the object and the weights are recomputed. *)
Theorem X12_updateStock_is_addStock_of_the_member p h arg k r v clone :
  reachable p h ->
  ticker_of arg h = (Ok k, h) ->
  Dict.get k (stocks p) = Some r ->
  clone <> Some true ->
  updateStock p arg v h = addStock p r v clone h /\
  exists p' h', updateStock p arg v h = (Ok p', h').
Proof.
  intros Hreach Hk Hr Hclone.
  destruct (reachable_invariant _ _ Hreach) as (Hkeyed & _).
  pose proof (keyed_live _ _ Hkeyed) as Hlive.
  destruct (Hkeyed k r (dict_get_Some _ _ _ Hr)) as (s & l & Hs & Ht & _).
  assert (updateStock p arg v h =
            calculateWeights p
              (Heap (<[r := Stock.with_value v s]> (objects h)) (arrays h)))
    as ->.
  { by apply (updateStock_member h p arg k r s). }
  split.
  - rewrite (addStock_reference _ _ _ _ _ _ Hclone Hs), Ht.
    rewrite (dict_set_same _ _ _ Hr). by destruct p.
  - rewrite calculateWeights_ok; [by eexists _, _|].
    by apply live_members_live, live_insert.
Qed.

Lemma X12_witness :
  updateStock Scenario.tested_portfolio (Ticker "apple") (of_Z 70)
    Scenario.tested_heap
    = addStock Scenario.tested_portfolio 1 (of_Z 70) None
        Scenario.tested_heap /\
  exists p' h',
    updateStock Scenario.tested_portfolio (Ticker "apple") (of_Z 70)
      Scenario.tested_heap = (Ok p', h').
Proof.
  apply (X12_updateStock_is_addStock_of_the_member
           Scenario.tested_portfolio Scenario.tested_heap
           (Ticker "apple") "apple" 1 (of_Z 70) None);
    [exact tested_state_reachable | reflexivity | reflexivity | discriminate].
Defined.

(** X13: [updateStock] looks the member up by the ticker of its argument.
    Handed a stock object that carries the ticker of a member but is not
    the member itself (the original of a clone, say), it writes the value
    into the member and leaves the object it was handed as it is. *)
Theorem X13_updateStock_goes_by_the_ticker p h other so r v :
  reachable p h ->
  objects h !! other = Some so ->
  Dict.get (ticker so) (stocks p) = Some r ->
  other <> r ->
  exists p' h' s',
    updateStock p (Object other) v h = (Ok p', h') /\
    objects h' !! other = Some so /\
    objects h' !! r = Some s' /\ Stock.value s' = Some v.
Proof.
  intros Hreach Hso Hr Hne.
  destruct (reachable_invariant _ _ Hreach) as (Hkeyed & _).
  pose proof (keyed_live _ _ Hkeyed) as Hlive.
  destruct (Hkeyed _ r (dict_get_Some _ _ _ Hr)) as (s & l & Hs & Ht & _).
  assert (ticker_of (Object other) h = (Ok (ticker so), h)) as Hk.
  { simpl. by rewrite (bind_ok _ _ _ _ _ (get_object_ok _ _ _ Hso)). }
  set (h1 := Heap (<[r := Stock.with_value v s]> (objects h)) (arrays h)).
  assert (updateStock p (Object other) v h = calculateWeights p h1) as ->.
  { by apply (updateStock_member h p (Object other) (ticker so) r s). }
  rewrite calculateWeights_ok by by apply live_members_live, live_insert.
  eexists _, _, _. split; [done|]. split; [|split].
  - rewrite reweighed_unlisted.
    + unfold h1. simpl. by rewrite list_lookup_insert_ne.
    + intros (k' & Hk')%member_refs_get.
      destruct (Hkeyed k' other (dict_get_Some _ _ _ Hk'))
        as (so' & _ & Hso' & Ht' & _).
      congruence.
  - apply (reweighed_member h1 p (ticker so) r (Stock.with_value v s) Hr).
    unfold h1. simpl. apply list_lookup_insert_eq. by eapply lookup_lt_Some.
  - done.
Qed.

Lemma X13_witness :
  exists p' h' s',
    updateStock Cases.cloned_portfolio (Object 0) (of_Z 40)
      Cases.cloned_heap = (Ok p', h') /\
    objects h' !! 0 = Some Cases.original /\
    objects h' !! 1 = Some s' /\ Stock.value s' = Some (of_Z 40).
Proof.
  apply (X13_updateStock_goes_by_the_ticker Cases.cloned_portfolio
           Cases.cloned_heap 0 Cases.original 1 (of_Z 40));
    [exact cloned_state_reachable | reflexivity | reflexivity | discriminate].
Defined.

(** X14: [addStock] with [clone = true] writes nothing into the caller's
    object.  The member is a new object with the ticker and the average of
    the original; the value is written into the new object only. *)
Theorem X14_clone_leaves_the_original_untouched p h stock s v :
  reachable p h ->
  objects h !! stock = Some s ->
  exists p' h' m sm,
    addStock p stock v (Some true) h = (Ok p', h') /\
    objects h' !! stock = Some s /\
    Dict.get (ticker s) (stocks p') = Some m /\ m <> stock /\
    objects h' !! m = Some sm /\
    ticker sm = ticker s /\ average sm = average s /\
    Stock.value sm = Some v.
Proof.
  intros Hreach Hs.
  destruct (reachable_invariant _ _ Hreach) as (Hkeyed & _).
  pose proof (keyed_live _ _ Hkeyed) as Hlive.
  assert (stock < length (objects h)) as Hlt by by eapply lookup_lt_Some.
  rewrite (addStock_clone _ _ _ _ _ Hs).
  set (n := length (objects h)) in *.
  set (p1 := with_stocks (Dict.set (ticker s) n (stocks p)) p).
  set (h1 := Heap (objects h ++ [Stock.with_value v (clone_of s)])
               (arrays h ++ [[]])).
  assert (live h1 p1) as Hlive1.
  { apply live_set; [by apply live_alloc|]. simpl.
    unfold n. rewrite list_lookup_middle by done. eauto. }
  assert (Dict.get (ticker s) (stocks p1) = Some n) as Hget.
  { unfold p1. simpl. rewrite dict_get_set.
    by rewrite bool_decide_eq_true_2. }
  rewrite (calculateWeights_ok _ _ (live_members_live _ _ Hlive1)).
  exists (Portfolio.with_value (sum_loop (member_values h1 p1)) p1),
    (reweighed h1 p1), n,
    (assign_weight (sum_loop (member_values h1 p1))
       (Stock.with_value v (clone_of s))).
  split; [done|]. split; [|split; [done|split; [lia|]]].
  - rewrite reweighed_unlisted.
    + unfold h1. simpl. by apply lookup_app_l_Some.
    + intros (k' & Hk')%member_refs_get. unfold p1 in Hk'. simpl in Hk'.
      rewrite dict_get_set in Hk'. case_bool_decide; [simplify_eq; lia|].
      destruct (Hkeyed k' stock (dict_get_Some _ _ _ Hk'))
        as (s' & _ & Hs' & Ht' & _).
      congruence.
  - split; [|done].
    apply (reweighed_member h1 p1 (ticker s) n _ Hget).
    unfold h1, n. simpl. by apply list_lookup_middle.
Qed.

Lemma X14_witness :
  exists p' h' m sm,
    addStock Scenario.tested_portfolio 1 (of_Z 5) (Some true)
      Scenario.tested_heap = (Ok p', h') /\
    objects h' !! 1 = Some Scenario.apple /\
    Dict.get (ticker Scenario.apple) (stocks p') = Some m /\ m <> 1 /\
    objects h' !! m = Some sm /\
    ticker sm = ticker Scenario.apple /\
    average sm = average Scenario.apple /\
    Stock.value sm = Some (of_Z 5).
Proof.
  apply (X14_clone_leaves_the_original_untouched Scenario.tested_portfolio
           Scenario.tested_heap 1 Scenario.apple (of_Z 5));
    [exact tested_state_reachable | reflexivity].
Defined.

(** ** Portfolio: total value and weights *)

(** X15: in every state reached from a new portfolio by calls of the
    methods, the stored total value and the stored weights are those of
    the current values: [calculateTotalValue] returns the stored total,
    [calculateWeights] changes nothing, and the weight of every member is
    its value divided by the total. *)
Theorem X15_value_and_weights_are_up_to_date p h :
  reachable p h ->
  calculateTotalValue p h = (Ok (value p, p), h) /\
  calculateWeights p h = (Ok p, h) /\
  forall k r s,
    Dict.get k (stocks p) = Some r -> objects h !! r = Some s ->
    Stock.weight s = Some (to_number (Stock.value s) / value p).
Proof.
  intros Hreach.
  pose proof (live_members_live _ _ (reachable_live _ _ Hreach)) as Hlive.
  pose proof (reachable_up_to_date _ _ Hreach) as Hup.
  pose proof Hup as [Hval Hw].
  assert (Portfolio.with_value (value p) p = p) as Hp by by destruct p.
  split; [|split; [|done]].
  - by rewrite (calculateTotalValue_ok _ _ Hlive), <- Hval, Hp.
  - by rewrite (calculateWeights_ok _ _ Hlive), <- Hval, Hp, reweighed_fixed.
Qed.

Lemma X15_witness :
  calculateTotalValue Scenario.tested_portfolio Scenario.tested_heap
    = (Ok (value Scenario.tested_portfolio, Scenario.tested_portfolio),
       Scenario.tested_heap) /\
  calculateWeights Scenario.tested_portfolio Scenario.tested_heap
    = (Ok Scenario.tested_portfolio, Scenario.tested_heap) /\
  forall k r s,
    Dict.get k (stocks Scenario.tested_portfolio) = Some r ->
    objects Scenario.tested_heap !! r = Some s ->
    Stock.weight s =
      Some (to_number (Stock.value s) / value Scenario.tested_portfolio).
Proof.
  apply (X15_value_and_weights_are_up_to_date Scenario.tested_portfolio
           Scenario.tested_heap).
  exact tested_state_reachable.
Defined.

(** X16: [calculateWeights] divides by the total value without looking at
    it.  In a reached state whose total value is 0 no member has a finite
    weight (each is [NaN] or an infinity), and [calculateRisk] answers 0
    without reading the weights. *)
Theorem X16_zero_total_leaves_no_finite_weight p h :
  reachable p h ->
  value p = of_Z 0 ->
  (forall k r s,
     Dict.get k (stocks p) = Some r -> objects h !! r = Some s ->
     exists w, Stock.weight s = Some w /\ is_finite w = false) /\
  calculateRisk p h = (Ok (of_Z 0, p), h).
Proof.
  intros Hreach Hzero. split.
  - intros k r s Hr Hs.
    destruct (reachable_up_to_date _ _ Hreach) as [_ Hw].
    rewrite (Hw k r s Hr Hs), Hzero. eexists. split; [done|].
    apply div_by_zero_not_finite.
  - unfold calculateRisk. by rewrite Hzero.
Qed.

Lemma X16_witness :
  (forall k r s,
     Dict.get k (stocks Cases.worthless_portfolio) = Some r ->
     objects Cases.worthless_heap !! r = Some s ->
     exists w, Stock.weight s = Some w /\ is_finite w = false) /\
  calculateRisk Cases.worthless_portfolio Cases.worthless_heap
    = (Ok (of_Z 0, Cases.worthless_portfolio), Cases.worthless_heap).
Proof.
  apply (X16_zero_total_leaves_no_finite_weight
           Cases.worthless_portfolio Cases.worthless_heap);
    [exact worthless_state_reachable | reflexivity].
Defined.

(** X17: in a reached state in which every member has a positive finite
    value, every weight is a finite number above 0 and at most 1. *)
Theorem X17_weights_of_positive_values_are_fractions p h k r s :
  reachable p h ->
  (forall k' r' s',
     Dict.get k' (stocks p) = Some r' -> objects h !! r' = Some s' ->
     exists v, Stock.value s' = Some (Fin v) /\ (0 < v)%Qc) ->
  Dict.get k (stocks p) = Some r -> objects h !! r = Some s ->
  exists w, Stock.weight s = Some (Fin w) /\ (0 < w)%Qc /\ (w <= 1)%Qc.
Proof.
  intros Hreach Hpositive Hr Hs.
  destruct (reachable_up_to_date _ _ Hreach) as [Hval Hw].
  pose proof (reachable_live _ _ Hreach) as Hlive.
  destruct (total_bounds (member_values h p)) as (t & Ht & _ & Hle).
  { apply Forall_forall. intros x Hx. unfold member_values in Hx.
    apply list_elem_of_fmap in Hx as (k' & -> & Hk').
    apply dict_get_key in Hk' as [r' Hr']. unfold member_object.
    rewrite Hr'.
    destruct (Hlive k' r' (dict_get_Some _ _ _ Hr')) as [s' Hs'].
    destruct (Hpositive k' r' s' Hr' Hs') as (v & Hv & Hpos).
    rewrite Hs'. simpl. rewrite Hv. eauto. }
  destruct (Hpositive k r s Hr Hs) as (v & Hv & Hpos).
  assert (v <= t)%Qc as Hvt.
  { apply Hle. unfold member_values. apply list_elem_of_fmap.
    exists k. split; [|by eapply dict_get_elem_of_keys].
    unfold member_object. by rewrite Hr, Hs; simpl; rewrite Hv. }
  destruct (Qc_fraction v t Hpos Hvt) as [Hlow Hhigh].
  rewrite (Hw k r s Hr Hs), Hval, sum_loop_total, Ht, Hv. simpl.
  rewrite bool_decide_eq_false_2; [eauto|].
  intros ->. apply (Qclt_not_le _ _ Hpos Hvt).
Qed.

Lemma X17_witness :
  exists w,
    Stock.weight Scenario.apple = Some (Fin w) /\
    (0 < w)%Qc /\ (w <= 1)%Qc.
Proof.
  apply (X17_weights_of_positive_values_are_fractions
           Scenario.tested_portfolio Scenario.tested_heap
           "apple" 1 Scenario.apple);
    [exact tested_state_reachable | | reflexivity | reflexivity].
  intros k r s Hr Hs. simpl in Hr.
  repeat case_bool_decide; simplify_eq; cbn in Hs; simplify_eq.
  - exists (Q2Qc (inject_Z 30)). by split.
  - exists (Q2Qc (inject_Z 20)). by split.
Defined.

(** ** Portfolio: covariance *)

(** X18: for two distinct stock objects [calculateCovariance] returns the
    sum of the products [(a.returns[i] - a.average) * (b.returns[i] -
    b.average)] over the ticks that both histories have, divided by the
    number of these ticks less one.  The averages are the stored ones. *)
Theorem X18_covariance_is_a_sum_of_products h a b sa sb la lb :
  a <> b ->
  objects h !! a = Some sa -> arrays h !! returns sa = Some la ->
  objects h !! b = Some sb -> arrays h !! returns sb = Some lb ->
  calculateCovariance a b h =
    (Ok (total (co_deviations sa sb la lb)
           / of_Z (Z.of_nat (Nat.min (length la) (length lb)) - 1)), h).
Proof.
  intros Hne Ha Hla Hb Hlb.
  rewrite (calculateCovariance_ok h a b sa sb la lb) by done.
  by rewrite covariance_zip.
Qed.

Lemma X18_witness :
  calculateCovariance 0 1 Scenario.tested_heap =
    (Ok (total (co_deviations Scenario.intel Scenario.apple
                  [of_Z 100; of_Z 50; of_Z (-50)] [of_Z 100; of_Z 50])
           / of_Z (Z.of_nat
                     (Nat.min (length [of_Z 100; of_Z 50; of_Z (-50)])
                        (length [of_Z 100; of_Z 50])) - 1)),
     Scenario.tested_heap).
Proof.
  apply (X18_covariance_is_a_sum_of_products Scenario.tested_heap 0 1
           Scenario.intel Scenario.apple
           [of_Z 100; of_Z 50; of_Z (-50)] [of_Z 100; of_Z 50]);
    [discriminate | reflexivity | reflexivity | reflexivity | reflexivity].
Defined.

(** X19: the ticks that only the longer history has do not enter the
    covariance.  Pushing a tick with [wait = true] (so that the stored
    average stays) onto the stock whose history is at least as long as the
    other, and is not shared with it, leaves the covariance as it is. *)
Theorem X19_covariance_ignores_the_longer_tail
    h a b sa sb la lb open close :
  a <> b ->
  objects h !! a = Some sa -> arrays h !! returns sa = Some la ->
  objects h !! b = Some sb -> arrays h !! returns sb = Some lb ->
  returns sa <> returns sb ->
  length lb <= length la ->
  exists h' c,
    push a open close (Some true) h = (Ok tt, h') /\
    calculateCovariance a b h = (Ok c, h) /\
    calculateCovariance a b h' = (Ok c, h').
Proof.
  intros Hne Ha Hla Hb Hlb Hshared Hlen.
  rewrite (push_deferred h a sa la open close Ha Hla).
  eexists _, _. split; [done|].
  rewrite (calculateCovariance_ok h a b sa sb la lb) by done.
  split; [done|].
  rewrite (calculateCovariance_ok _ a b sa sb
             (la ++ [tick_return open close]) lb); try done.
  - rewrite !covariance_zip. unfold co_deviations.
    rewrite zip_with_longer by done. rewrite length_app. simpl.
    by rewrite !Nat.min_r by lia.
  - simpl. apply list_lookup_insert_eq. by eapply lookup_lt_Some.
  - simpl. by rewrite list_lookup_insert_ne.
Qed.

Lemma X19_witness :
  exists h' c,
    push 0 (of_Z 15) (of_Z 45) (Some true) Scenario.tested_heap
      = (Ok tt, h') /\
    calculateCovariance 0 1 Scenario.tested_heap
      = (Ok c, Scenario.tested_heap) /\
    calculateCovariance 0 1 h' = (Ok c, h').
Proof.
  apply (X19_covariance_ignores_the_longer_tail Scenario.tested_heap 0 1
           Scenario.intel Scenario.apple
           [of_Z 100; of_Z 50; of_Z (-50)] [of_Z 100; of_Z 50]
           (of_Z 15) (of_Z 45));
    [discriminate | reflexivity | reflexivity | reflexivity | reflexivity
    | discriminate | simpl; lia].
Defined.

(** X20: the covariance of a stock with itself is 1 only for one and the
    same object.  For two distinct objects with the same history and the
    same average (a stock and its clone), with finite numbers and at least
    two ticks, [calculateCovariance] returns a finite number that is not
    negative: the sum of the squared deviations over [n - 1]. *)
Theorem X20_covariance_with_a_clone_is_a_variance h a b sa sb l m :
  a <> b ->
  objects h !! a = Some sa -> objects h !! b = Some sb ->
  arrays h !! returns sa = Some l -> returns sb = returns sa ->
  average sa = Fin m -> average sb = Fin m ->
  Forall (fun x => is_finite x = true) l ->
  2 <= length l ->
  exists v,
    calculateCovariance a b h = (Ok (Fin v), h) /\ (0 <= v)%Qc.
Proof.
  intros Hne Ha Hb Hl Hshared Hma Hmb Hfin Hlen.
  rewrite (calculateCovariance_ok h a b sa sb l l); [|done..|congruence].
  rewrite covariance_zip. unfold co_deviations. rewrite Hma, Hmb.
  destruct (squares_total m l Hfin) as (t & -> & Hpos).
  rewrite Nat.min_id.
  pose proof (pred_of_nat_pos (length l) Hlen) as Hd.
  unfold of_Z. cbn [js_div].
  rewrite bool_decide_eq_false_2.
  - eexists. split; [done|]. by apply Qc_div_nonneg.
  - intros Hz. rewrite Hz in Hd. by apply (Qclt_not_eq 0 0).
Qed.

Lemma X20_witness :
  exists v,
    calculateCovariance 0 1 Cases.twin_heap
      = (Ok (Fin v), Cases.twin_heap) /\
    (0 <= v)%Qc.
Proof.
  apply (X20_covariance_with_a_clone_is_a_variance Cases.twin_heap 0 1
           (Stock.mk "AAPL" 0 (of_Z 75) None None)
           (Stock.mk "AAPL" 0 (of_Z 75) (Some (of_Z 30)) (Some (of_Z 1)))
           [of_Z 100; of_Z 50] (Q2Qc (inject_Z 75)));
    [discriminate | reflexivity | reflexivity | reflexivity | reflexivity
    | reflexivity | reflexivity | by repeat constructor | simpl; lia].
Defined.

(** X21: in every reached state with at least one member,
    [createCovarianceMatrix] returns a square matrix with one row per
    ticker, equal to its transpose and with 1 on the diagonal.  (What
    [Matrix.create] makes of an empty array is left to the library.) *)
Theorem X21_covariance_matrix_is_symmetric p h :
  reachable p h ->
  getStockTickers p <> [] ->
  exists m,
    createCovarianceMatrix p h = (Ok m, h) /\
    length m = length (getStockTickers p) /\
    Matrix.transpose m = m /\
    forall i, i < length (getStockTickers p) ->
      Matrix.e (S i) (S i) m = Some (of_Z 1).
Proof.
  intros Hreach _.
  destruct (reachable_invariant _ _ Hreach) as (Hkeyed & _).
  destruct (keyed_snapshot _ _ Hkeyed) as (snap & Hsnap & _).
  pose proof (Forall2_length _ _ _ (snapshot_entries _ _ _ Hsnap)) as Hlen.
  exists (covariances_of snap).
  split; [by apply createCovarianceMatrix_snapshot|].
  unfold getStockTickers. rewrite Hlen.
  split; [unfold covariances_of; by rewrite length_fmap|].
  split; [apply covariances_transpose|].
  intros i Hi. apply lookup_lt_is_Some in Hi as [b Hb].
  unfold Matrix.e. rewrite covariances_lookup, Hb. simpl.
  rewrite list_lookup_fmap, Hb. simpl. unfold covariance_between.
  by rewrite bool_decide_eq_true_2.
Qed.

Lemma X21_witness :
  exists m,
    createCovarianceMatrix Scenario.tested_portfolio Scenario.tested_heap
      = (Ok m, Scenario.tested_heap) /\
    length m = length (getStockTickers Scenario.tested_portfolio) /\
    Matrix.transpose m = m /\
    forall i, i < length (getStockTickers Scenario.tested_portfolio) ->
      Matrix.e (S i) (S i) m = Some (of_Z 1).
Proof.
  apply (X21_covariance_matrix_is_symmetric Scenario.tested_portfolio
           Scenario.tested_heap);
    [exact tested_state_reachable | compute_done].
Defined.

(** X22: the weight matrix and the covariance matrix are laid out along
    [getStockTickers].  In every reached state with at least one member,
    row [i] of the weight matrix holds the weight of the member under the
    [i]-th ticker, and the cell [(i, j)] of the covariance matrix holds
    what [calculateCovariance] returns for the members under the [i]-th
    and the [j]-th ticker. *)
Theorem X22_matrix_rows_follow_the_tickers p h :
  reachable p h ->
  getStockTickers p <> [] ->
  exists w c,
    createWeightMatrix p h = (Ok w, h) /\
    createCovarianceMatrix p h = (Ok c, h) /\
    forall i j ki kj,
      getStockTickers p !! i = Some ki ->
      getStockTickers p !! j = Some kj ->
      exists ri rj si x,
        member p ki h = (Ok ri, h) /\ member p kj h = (Ok rj, h) /\
        objects h !! ri = Some si /\
        Matrix.e (S i) 1 w = Some (to_number (Stock.weight si)) /\
        calculateCovariance ri rj h = (Ok x, h) /\
        Matrix.e (S i) (S j) c = Some x.
Proof.
  intros Hreach _.
  destruct (reachable_invariant _ _ Hreach) as (Hkeyed & _).
  destruct (keyed_snapshot _ _ Hkeyed) as (snap & Hsnap & _).
  pose proof (snapshot_entries _ _ _ Hsnap) as Hentries.
  exists (Matrix.create_column (weights_of snap)), (covariances_of snap).
  split; [by apply createWeightMatrix_snapshot|].
  split; [by apply createCovarianceMatrix_snapshot|].
  intros i j ki kj Hki Hkj. unfold getStockTickers in *.
  destruct (Forall2_lookup_l _ _ _ _ _ Hentries Hki) as (ei & Hei & Hi).
  destruct (Forall2_lookup_l _ _ _ _ _ Hentries Hkj) as (ej & Hej & Hj).
  pose proof (entry_Some _ _ _ _ Hi) as (_ & Hri & Hsi & _).
  pose proof (entry_Some _ _ _ _ Hj) as (_ & Hrj & _ & _).
  exists (address ei), (address ej), (object ei), (covariance_between ei ej).
  split; [by apply member_ok|]. split; [by apply member_ok|].
  split; [done|]. split; [|split].
  - unfold Matrix.e, Matrix.create_column, weights_of, Matrix.t.
    by rewrite !list_lookup_fmap, Hei.
  - by eapply calculateCovariance_views.
  - unfold Matrix.e. rewrite covariances_lookup, Hei. simpl.
    by rewrite list_lookup_fmap, Hej.
Qed.

Lemma X22_witness :
  exists w c,
    createWeightMatrix Scenario.tested_portfolio Scenario.tested_heap
      = (Ok w, Scenario.tested_heap) /\
    createCovarianceMatrix Scenario.tested_portfolio Scenario.tested_heap
      = (Ok c, Scenario.tested_heap) /\
    forall i j ki kj,
      getStockTickers Scenario.tested_portfolio !! i = Some ki ->
      getStockTickers Scenario.tested_portfolio !! j = Some kj ->
      exists ri rj si x,
        member Scenario.tested_portfolio ki Scenario.tested_heap
          = (Ok ri, Scenario.tested_heap) /\
        member Scenario.tested_portfolio kj Scenario.tested_heap
          = (Ok rj, Scenario.tested_heap) /\
        objects Scenario.tested_heap !! ri = Some si /\
        Matrix.e (S i) 1 w = Some (to_number (Stock.weight si)) /\
        calculateCovariance ri rj Scenario.tested_heap
          = (Ok x, Scenario.tested_heap) /\
        Matrix.e (S i) (S j) c = Some x.
Proof.
  apply (X22_matrix_rows_follow_the_tickers Scenario.tested_portfolio
           Scenario.tested_heap);
    [exact tested_state_reachable | compute_done].
Defined.

(** ** Portfolio: risk *)

(** X23: in every reached state a portfolio without members has the total
    value 0, so that [calculateRisk] answers 0 and changes nothing; the
    stored risk and the cache keep what an earlier call left there.  The
    single-file version of the method does the same. *)
Theorem X23_empty_portfolio_has_risk_zero p h :
  reachable p h ->
  getStockTickers p = [] ->
  value p = of_Z 0 /\
  calculateRisk p h = (Ok (of_Z 0, p), h) /\
  calculateRisk_single_file p h = (Ok (of_Z 0, p), h).
Proof.
  intros Hreach Hnone%keys_empty.
  destruct (reachable_invariant _ _ Hreach) as (_ & _ & Hworthless).
  pose proof (Hworthless Hnone) as Hzero.
  unfold calculateRisk, calculateRisk_single_file. by rewrite Hzero.
Qed.

Lemma X23_witness :
  value Cases.emptied_portfolio = of_Z 0 /\
  calculateRisk Cases.emptied_portfolio Cases.emptied.2
    = (Ok (of_Z 0, Cases.emptied_portfolio), Cases.emptied.2) /\
  calculateRisk_single_file Cases.emptied_portfolio Cases.emptied.2
    = (Ok (of_Z 0, Cases.emptied_portfolio), Cases.emptied.2).
Proof.
  apply (X23_empty_portfolio_has_risk_zero Cases.emptied_portfolio
           Cases.emptied.2);
    [exact emptied_state_reachable | reflexivity].
Defined.

(** X24: a second [calculateRisk] right after a first one returns the same
    risk and changes nothing: the first call has left the text of the
    members in the cache. *)
Theorem X24_calculateRisk_twice p h x p' h' :
  calculateRisk p h = (Ok (x, p'), h') ->
  calculateRisk p' h' = (Ok (x, p'), h').
Proof.
  intros Hrun.
  pose proof (calculateRisk_frame _ _ _ _ _ Hrun) as (-> & Hst & Hv).
  unfold calculateRisk in *. rewrite Hv.
  destruct (js_le0 (value p)); [unfold ret in *; by simplify_eq|].
  unfold cached_risk in *.
  apply bind_inv_ok in Hrun as (current & h1 & Hstr & Hrun).
  assert (h1 = h) as ->
    by (eapply read_only_run, Hstr; apply read_only_stringify).
  assert (stringify p' h = (Ok current, h)) as Hstr'.
  { rewrite <- Hstr. unfold stringify, member. by rewrite Hst. }
  rewrite (bind_ok _ _ _ _ _ Hstr').
  destruct (bool_decide_reflect (cache p <> Some current)) as [Hmiss|Hhit].
  - apply bind_inv_ok in Hrun as (w & h1 & _ & Hrun).
    apply bind_inv_ok in Hrun as (c & h2 & _ & Hrun).
    apply bind_inv_ok in Hrun as (x0 & h3 & _ & Hrun).
    unfold ret in Hrun. simplify_eq. simpl.
    by rewrite bool_decide_eq_false_2 by (by intros ?).
  - unfold ret in Hrun. simplify_eq.
    by rewrite bool_decide_eq_false_2.
Qed.

Lemma X24_witness :
  calculateRisk Cases.assessed_portfolio Scenario.tested_heap
    = (Ok (ratio 60052 100, Cases.assessed_portfolio),
       Scenario.tested_heap).
Proof.
  apply (X24_calculateRisk_twice Scenario.tested_portfolio
           Scenario.tested_heap).
  compute_done.
Defined.

(** X25: the cache does not go stale as long as the numbers are finite.
    In every reached state in which the returns, the average and the
    weight of every member are finite, [calculateRisk] does not throw and
    returns the risk computed from the current members, whatever the
    cache holds. *)
Theorem X25_cached_risk_is_fresh_for_finite_members p h :
  reachable p h ->
  finite_members h p ->
  exists x p',
    calculateRisk p h = (Ok (x, p'), h) /\
    risk_from_scratch p h = (Ok x, h).
Proof. apply calculateRisk_of_finite_members. Qed.

Lemma X25_witness :
  exists x p',
    calculateRisk Scenario.tested_portfolio Scenario.tested_heap
      = (Ok (x, p'), Scenario.tested_heap) /\
    risk_from_scratch Scenario.tested_portfolio Scenario.tested_heap
      = (Ok x, Scenario.tested_heap).
Proof.
  apply (X25_cached_risk_is_fresh_for_finite_members
           Scenario.tested_portfolio Scenario.tested_heap);
    [exact tested_state_reachable|].
  intros k r s l Hr Hs Hl. simpl in Hr.
  repeat case_bool_decide; simplify_eq; cbn in Hs; simplify_eq;
    cbn in Hl; simplify_eq; by repeat constructor.
Defined.

(** X26: a portfolio with a single member, a positive total value and
    finite returns has the risk 1, whatever the returns are: the weight is
    1 and the covariance of the member with itself is taken to be 1. *)
Theorem X26_single_member_has_risk_one p h k r s l t :
  reachable p h ->
  stocks p = [(k, r)] ->
  objects h !! r = Some s -> arrays h !! returns s = Some l ->
  Forall (fun x => is_finite x = true) l ->
  is_finite (average s) = true ->
  value p = Fin t -> (0 < t)%Qc ->
  exists p', calculateRisk p h = (Ok (of_Z 1, p'), h).
Proof.
  intros Hreach Hst Hs Hl Hfin Havg Hv Hpos.
  assert (Dict.get k (stocks p) = Some r) as Hr.
  { rewrite Hst. simpl. by rewrite bool_decide_eq_true_2. }
  assert (t <> 0%Qc) as Hne.
  { intros ->. by apply (Qclt_not_eq 0 0). }
  assert (Stock.weight s = Some (of_Z 1)) as Hw.
  { destruct (reachable_up_to_date _ _ Hreach) as [Hval Hweight].
    rewrite (Hweight k r s Hr Hs). f_equal.
    assert (Dict.keys (stocks p) = [k]) as Hkeys
      by (rewrite Hst; apply keys_singleton).
    assert (sum_loop (member_values h p) = to_number (Stock.value s))
      as Hsum.
    { rewrite sum_loop_total. unfold member_values.
      rewrite Hkeys, fmap_cons, fmap_nil. unfold member_object.
      rewrite Hr, Hs. cbn [mbind option_bind total]. apply js_add_0_r. }
    rewrite <- Hsum, <- Hval, Hv. cbn [js_div].
    rewrite bool_decide_eq_false_2 by done.
    unfold of_Z. f_equal. change (Q2Qc (inject_Z 1)) with 1%Qc. by field. }
  assert (finite_members h p) as Hfinite.
  { intros k' r' s' l' Hr' Hs' Hl'. rewrite Hst in Hr'. simpl in Hr'.
    case_bool_decide; [|done]. simplify_eq. by rewrite Hw. }
  destruct (calculateRisk_of_finite_members p h Hreach Hfinite)
    as (x & p' & Hrun & Hfresh).
  exists p'. rewrite Hrun. do 2 f_equal. f_equal.
  assert (snapshot h p = Some [View k r s l]) as Hsnap.
  { unfold snapshot. rewrite Hst, keys_singleton. simpl. unfold entry.
    rewrite Hst. simpl. by rewrite bool_decide_eq_true_2, Hs, Hl. }
  rewrite (risk_from_scratch_snapshot h p _ Hsnap) in Hfresh.
  - assert (risk_of [View k r s l] = Some (of_Z 1)) as Hrisk.
    { unfold risk_of, weights_of, covariances_of, covariance_between.
      rewrite !fmap_cons, !fmap_nil. cbn [object address].
      rewrite Hw, bool_decide_eq_true_2 by done. exact unit_risk. }
    rewrite Hrisk in Hfresh. by simplify_eq.
  - rewrite Hv. simpl. apply bool_decide_eq_false_2.
    by apply Qclt_not_le.
Qed.

Lemma X26_witness :
  exists p',
    calculateRisk Cases.lone_portfolio Cases.lone_heap
      = (Ok (of_Z 1, p'), Cases.lone_heap).
Proof.
  apply (X26_single_member_has_risk_one Cases.lone_portfolio
           Cases.lone_heap "intel" 0 Cases.lone [of_Z 100; of_Z 50]
           (Q2Qc (inject_Z 30)));
    [exact lone_state_reachable | reflexivity | reflexivity | reflexivity
    | by repeat constructor | reflexivity | reflexivity | compute_done].
Defined.

(** X27: the two versions of [calculateRisk], the one that starts with
    [if (this.value <= 0) return 0] and the older one that wraps the body
    in [if (this.value > 0)], return the same and leave the same state
    whenever the total value is a number; they part only for [NaN], which
    passes the first test and fails the second. *)
Theorem X27_both_versions_of_calculateRisk_agree p h :
  value p <> NaN ->
  calculateRisk_single_file p h = calculateRisk p h.
Proof.
  intros Hv. unfold calculateRisk_single_file, calculateRisk.
  rewrite (js_gt0_le0 _ Hv). by destruct (js_le0 (value p)).
Qed.

Lemma X27_witness :
  calculateRisk_single_file Scenario.tested_portfolio Scenario.tested_heap
    = calculateRisk Scenario.tested_portfolio Scenario.tested_heap.
Proof.
  apply (X27_both_versions_of_calculateRisk_agree
           Scenario.tested_portfolio Scenario.tested_heap).
  discriminate.
Defined.

(** ** What throws *)

(** X28: in every reached state a method throws only when it is handed
    something that is not a stock object, or when [updateStock] is asked
    for a ticker that is not a member.  Every other call returns. *)
Theorem X28_the_methods_do_not_throw p h op :
  reachable p h ->
  applicable h p op ->
  exists p' h', step op p h = (Ok p', h').
Proof.
  intros Hreach Happ.
  destruct (reachable_invariant _ _ Hreach) as (Hkeyed & Harrays & _).
  pose proof (keyed_live _ _ Hkeyed) as Hlive.
  pose proof (live_members_live _ _ Hlive) as Hmembers.
  destruct op as [k|r open close wait|r|op| | |]; simpl in *.
  - unfold bind. rewrite new_ok. by eexists _, _.
  - destruct Happ as [s Hs]. destruct (Harrays r s Hs) as [l Hl].
    destruct (decide (wait = Some true)) as [->|Hwait].
    + rewrite (bind_ok _ _ _ _ _ (push_deferred h r s l open close Hs Hl)).
      by eexists _, _.
    + rewrite (bind_ok _ _ _ _ _
                 (push_appends h r s l open close wait Hs Hl Hwait)).
      by eexists _, _.
  - destruct Happ as [s Hs]. destruct (Harrays r s Hs) as [l Hl].
    rewrite (bind_ok _ _ _ _ _ (calculateAverage_mean h r s l Hs Hl)).
    by eexists _, _.
  - destruct op as [stock v clone|arg|arg v]; simpl in *.
    + destruct Happ as [s Hs].
      destruct (addStock_stored h p stock s v clone Hs Hlive)
        as (r0 & h0 & m & -> & Hlive0 & _).
      rewrite (calculateWeights_ok _ _ (live_members_live _ _ Hlive0)).
      by eexists _, _.
    + assert (exists k, ticker_of arg h = (Ok k, h)) as [k Hk].
      { destruct arg as [k|r]; simpl; [by eexists|].
        destruct Happ as [s Hs].
        rewrite (bind_ok _ _ _ _ _ (get_object_ok _ _ _ Hs)). by eexists. }
      unfold removeStock. rewrite (bind_ok _ _ _ _ _ Hk).
      rewrite calculateWeights_ok; [by eexists _, _|].
      by apply live_members_live, live_delete.
    + destruct Happ as (k & Hk & r & Hr).
      destruct (Hlive k r (dict_get_Some _ _ _ Hr)) as [s Hs].
      rewrite (updateStock_member h p arg k r s v Hk Hr Hs).
      rewrite calculateWeights_ok; [by eexists _, _|].
      by apply live_members_live, live_insert.
  - rewrite (bind_ok _ _ _ _ _ (calculateTotalValue_ok _ _ Hmembers)).
    by eexists _, _.
  - rewrite (calculateWeights_ok _ _ Hmembers). by eexists _, _.
  - destruct (calculateRisk_fresh_on_printable_members _ _ Hreach)
      as (snap & x & p' & _ & Hrun & _).
    rewrite (bind_ok _ _ _ _ _ Hrun). by eexists _, _.
Qed.

Lemma X28_witness :
  exists p' h',
    step (Trigger (UpdateStock (Object 1) (of_Z 70)))
      Scenario.tested_portfolio Scenario.tested_heap = (Ok p', h').
Proof.
  apply (X28_the_methods_do_not_throw Scenario.tested_portfolio
           Scenario.tested_heap
           (Trigger (UpdateStock (Object 1) (of_Z 70))));
    [exact tested_state_reachable|].
  exists "apple". split; [reflexivity | by eexists].
Defined.
